(** * rollup: the module loader (src/ModuleLoader.ts)

    A shallow embedding of the loader that builds rollup's module graph:
    the predicate builders [getIdMatcher] and [getHasModuleSideEffects],
    the registry [modulesById], entry and manual-chunk bookkeeping, the
    recursive fetch and the re-export closure.

    Conventions.
    - Objects that the loader shares and mutates (Module, ExternalModule)
      live in a heap and are named by references; the registry, the entry
      index and the manual-chunk lists hold references, so aliasing is
      visible.
    - JavaScript runs the loader on one thread: the code between two
      [await]s is atomic.  Every such segment is one function of the state.
    - [error(...)] and [throw] are the [Threw] outcome; [graph.warn] appends
      to the list of warnings; calls of plugin hooks and of user callbacks
      are logged, so that "is not invoked" can be stated. *)

From stdpp Require Import gmap strings list sorting.

Open Scope string_scope.
Open Scope list_scope.

(** ** JavaScript strings *)

(** The sentinel prefix of virtual modules, the one-character string '\0'. *)
Definition NUL : string := String Ascii.zero EmptyString.

(** [id.startsWith('\0')] *)
Definition startsWith (p s : string) : bool := String.prefix p s.

(** ** Logged calls

    A computation that may call a user callback returns its value together
    with the calls it made, in order. *)
Module Traced.

Definition t (C A : Type) : Type := A * list C.

Definition ret {C A} (a : A) : t C A := (a, []).

Definition value {C A} (m : t C A) : A := fst m.
Definition calls {C A} (m : t C A) : list C := snd m.

End Traced.

(** ** The resolution predicate builders *)

(** What a callback option may return: [boolean | null | undefined]. *)
Inductive cb_result := CbTrue | CbFalse | CbNull | CbUndefined.

Definition truthy (r : cb_result) : bool :=
  match r with CbTrue => true | _ => false end.

(** [r !== false] *)
Definition not_false (r : cb_result) : bool :=
  match r with CbFalse => false | _ => true end.

(** An element of the [Set] that [getIdMatcher] builds.  Ids are strings;
    any other value is never [SameValueZero] to a queried id. *)
Inductive set_elem := EStr (s : string) | ENotString.

Global Instance set_elem_eq_dec : EqDecision set_elem.
Proof. solve_decision. Defined.

Section IdMatcher.

(** The rest arguments [...args : T] of the predicate. *)
Context {T : Type}.

(** The option: [boolean | string[] | function] by its declared type; a
    single string and any other value are what JavaScript lets through. *)
Inductive id_option :=
| OptBool (b : bool)
| OptFun (f : string → T → cb_result)
| OptIds (ids : list string)
| OptString (s : string)
| OptOther (is_truthy : bool).

(** Truthiness of the option, as [if (option)] tests it. *)
Definition option_truthy (o : id_option) : bool :=
  match o with
  | OptBool b => b
  | OptFun _ => true
  | OptIds _ => true
  | OptString s => negb (String.eqb s "")
  | OptOther b => b
  end.

(** [Array.isArray(option) ? option : option ? [option] : []] *)
Definition option_ids (o : id_option) : list set_elem :=
  match o with
  | OptIds ids => EStr <$> ids
  | OptString s => if option_truthy o then [EStr s] else []
  | _ => if option_truthy o then [ENotString] else []
  end.

(** [ids.has(id)] on [new Set(elems)] *)
Definition Set_has (elems : list set_elem) (id : string) : bool :=
  bool_decide (EStr id ∈ elems).

Definition getIdMatcher (option : id_option) (id : string) (args : T)
  : Traced.t (string * T) bool :=
  match option with
  | OptBool true => Traced.ret true
  | OptFun f =>
      if negb (startsWith NUL id)
      then (orb (truthy (f id args)) false, [(id, args)])
      else Traced.ret false
  | _ =>
      if option_truthy option
      then Traced.ret (Set_has (option_ids option) id)
      else Traced.ret false
  end.

End IdMatcher.

Arguments id_option : clear implicits.

(** Warnings that [graph.warn] receives. *)
Inductive warning :=
| errInvalidOption (option explanation : string)
| errNamespaceConflict (name reexportingModule additionalExportAllModule : string)
| errUnresolvedImportTreatedAsExternal (source importer : string).

Global Instance warning_eq_dec : EqDecision warning.
Proof. solve_decision. Defined.

(** [treeshake.moduleSideEffects]: a boolean, the string 'no-external', a
    function, an array of ids, or anything else. *)
Inductive mse_option :=
| MseBool (b : bool)
| MseNoExternal
| MseFun (f : string → bool → cb_result)
| MseIds (ids : list string)
| MseOther (is_truthy : bool).

(** A call of a user callback made by the side-effects predicate: of the
    [moduleSideEffects] function, or of the [pureExternalModules] function. *)
Inductive mse_call :=
| CallModuleSideEffects (id : string) (external : bool)
| CallPureExternal (id : string).

(** The builder warns while it builds (not when the predicate runs): the
    result is the warnings of the build step and the predicate. *)
Definition getHasModuleSideEffects
    (moduleSideEffectsOption : mse_option)
    (pureExternalModules : id_option unit)
  : list warning * (string → bool → Traced.t mse_call bool) :=
  match moduleSideEffectsOption with
  | MseBool b => ([], λ _ _, Traced.ret b)
  | MseNoExternal => ([], λ _ external, Traced.ret (negb external))
  | MseFun f =>
      ([], λ id external,
         if negb (startsWith NUL id)
         then (not_false (f id external), [CallModuleSideEffects id external])
         else Traced.ret true)
  | MseIds ids => ([], λ id _, Traced.ret (Set_has (EStr <$> ids) id))
  | MseOther is_truthy =>
      ((if is_truthy
        then [errInvalidOption "treeshake.moduleSideEffects"
                "please use one of false, 'no-external', a function or an array"]
        else []),
       λ (id : string) (external : bool),
         if external
         then
           let r := getIdMatcher pureExternalModules id tt in
           (negb (Traced.value r),
            (λ c : string * unit, CallPureExternal (fst c)) <$> Traced.calls r)
         else Traced.ret true)
  end.

(** ** Errors and outcomes *)

(** What [error(...)] and [throw] raise.  The constructors named [err...]
    are the error builders of utils/error that the loader calls. *)
Inductive error :=
| errBadLoader (id : string)
| errCannotAssignModuleToChunk (moduleId assignToAlias currentAlias : string)
| errEntryCannotBeExternal (unresolvedId : string)
| errInternalIdCannotBeExternal (source importer : string)
| errUnresolvedEntry (unresolvedId : string)
| errUnresolvedImport (source importer : string)
| CannotFetchExternalModule (id : string)
    (* new Error(`Cannot fetch external module ${id}`) *)
| PluginError (message : string)
    (* a rejection that comes out of a plugin hook or of the transform *)
| TypeError (message : string).
    (* raised by the JavaScript runtime itself *)

Global Instance error_eq_dec : EqDecision error.
Proof. solve_decision. Defined.

(** How a synchronous call ends, and how a promise settles. *)
Inductive outcome (A : Type) :=
| Returned (a : A)
| Threw (e : error).
Arguments Returned {A} a.
Arguments Threw {A} e.

Definition is_Returned {A} (o : outcome A) : bool :=
  match o with Returned _ => true | Threw _ => false end.

(** ** The data model *)

Record ResolvedId := mkResolvedId {
  rid_external : bool;
  rid_id : string;
  rid_moduleSideEffects : bool
}.

(** References to the objects of the heap. *)
Abbreviation ref := nat (only parsing).

(** Modelled from the spec: the class Module (Module.ts is not part of the
    sources at hand), by the fields that the loader reads or writes.
    [m_resolvedIds], [module.exports] and [module.exportsAll] are mappings
    without inherited keys.  [m_exports] is the key list of
    [module.exports]; [m_exportsAll] is [module.exportsAll] with its keys
    in insertion order, the order in which [for ... in] visits keys that
    are names and not array indices. *)
Record Module := mkModule {
  m_id : string;
  m_moduleSideEffects : bool;
  m_isEntryPoint : bool;
  m_isUserDefinedEntryPoint : bool;
  m_manualChunkAlias : option string;
  m_chunkFileNames : gset string;
  m_chunkName : option string;
  m_userChunkNames : gset string;
  m_sources : list string;
  m_exports : list string;
  m_exportAllSources : list string;
  m_resolvedIds : gmap string ResolvedId;
  m_exportsAll : list (string * string)
}.

(** Modelled from the spec: the class ExternalModule (ExternalModule.ts is
    not part of the sources at hand), a terminal node with an id and a
    side-effects flag. *)
Record ExternalModule := mkExternalModule {
  e_id : string;
  e_moduleSideEffects : bool
}.

Inductive entity :=
| EModule (m : Module)
| EExternal (e : ExternalModule).

Definition entity_id (e : entity) : string :=
  match e with
  | EModule m => m_id m
  | EExternal x => e_id x
  end.

(** Modelled from the spec: the constructor of Module (Module.ts is not
    part of the sources at hand).  A new module carries its id, the
    side-effects flag and the entry flag it is created with; it has no
    chunk hints, no manual-chunk alias, and empty tables. *)
Definition new_Module (id : string) (moduleSideEffects isEntry : bool) : Module :=
  {| m_id := id;
     m_moduleSideEffects := moduleSideEffects;
     m_isEntryPoint := isEntry;
     m_isUserDefinedEntryPoint := false;
     m_manualChunkAlias := None;
     m_chunkFileNames := ∅;
     m_chunkName := None;
     m_userChunkNames := ∅;
     m_sources := [];
     m_exports := [];
     m_exportAllSources := [];
     m_resolvedIds := ∅;
     m_exportsAll := [] |}.

(** Modelled from the spec: the constructor of ExternalModule
    (ExternalModule.ts is not part of the sources at hand). *)
Definition new_ExternalModule (id : string) (moduleSideEffects : bool) : ExternalModule :=
  {| e_id := id; e_moduleSideEffects := moduleSideEffects |}.

(** Field assignments on a Module. *)
Definition set_moduleSideEffects (b : bool) (m : Module) : Module :=
  mkModule (m_id m) b (m_isEntryPoint m) (m_isUserDefinedEntryPoint m)
    (m_manualChunkAlias m) (m_chunkFileNames m) (m_chunkName m) (m_userChunkNames m)
    (m_sources m) (m_exports m) (m_exportAllSources m) (m_resolvedIds m) (m_exportsAll m).

Definition set_isEntryPoint (b : bool) (m : Module) : Module :=
  mkModule (m_id m) (m_moduleSideEffects m) b (m_isUserDefinedEntryPoint m)
    (m_manualChunkAlias m) (m_chunkFileNames m) (m_chunkName m) (m_userChunkNames m)
    (m_sources m) (m_exports m) (m_exportAllSources m) (m_resolvedIds m) (m_exportsAll m).

Definition set_isUserDefinedEntryPoint (b : bool) (m : Module) : Module :=
  mkModule (m_id m) (m_moduleSideEffects m) (m_isEntryPoint m) b
    (m_manualChunkAlias m) (m_chunkFileNames m) (m_chunkName m) (m_userChunkNames m)
    (m_sources m) (m_exports m) (m_exportAllSources m) (m_resolvedIds m) (m_exportsAll m).

Definition set_manualChunkAlias (a : option string) (m : Module) : Module :=
  mkModule (m_id m) (m_moduleSideEffects m) (m_isEntryPoint m) (m_isUserDefinedEntryPoint m)
    a (m_chunkFileNames m) (m_chunkName m) (m_userChunkNames m)
    (m_sources m) (m_exports m) (m_exportAllSources m) (m_resolvedIds m) (m_exportsAll m).

Definition set_chunkFileNames (s : gset string) (m : Module) : Module :=
  mkModule (m_id m) (m_moduleSideEffects m) (m_isEntryPoint m) (m_isUserDefinedEntryPoint m)
    (m_manualChunkAlias m) s (m_chunkName m) (m_userChunkNames m)
    (m_sources m) (m_exports m) (m_exportAllSources m) (m_resolvedIds m) (m_exportsAll m).

Definition set_chunkName (n : option string) (m : Module) : Module :=
  mkModule (m_id m) (m_moduleSideEffects m) (m_isEntryPoint m) (m_isUserDefinedEntryPoint m)
    (m_manualChunkAlias m) (m_chunkFileNames m) n (m_userChunkNames m)
    (m_sources m) (m_exports m) (m_exportAllSources m) (m_resolvedIds m) (m_exportsAll m).

Definition set_userChunkNames (s : gset string) (m : Module) : Module :=
  mkModule (m_id m) (m_moduleSideEffects m) (m_isEntryPoint m) (m_isUserDefinedEntryPoint m)
    (m_manualChunkAlias m) (m_chunkFileNames m) (m_chunkName m) s
    (m_sources m) (m_exports m) (m_exportAllSources m) (m_resolvedIds m) (m_exportsAll m).

Definition set_resolvedIds (r : gmap string ResolvedId) (m : Module) : Module :=
  mkModule (m_id m) (m_moduleSideEffects m) (m_isEntryPoint m) (m_isUserDefinedEntryPoint m)
    (m_manualChunkAlias m) (m_chunkFileNames m) (m_chunkName m) (m_userChunkNames m)
    (m_sources m) (m_exports m) (m_exportAllSources m) r (m_exportsAll m).

Definition set_exportsAll (x : list (string * string)) (m : Module) : Module :=
  mkModule (m_id m) (m_moduleSideEffects m) (m_isEntryPoint m) (m_isUserDefinedEntryPoint m)
    (m_manualChunkAlias m) (m_chunkFileNames m) (m_chunkName m) (m_userChunkNames m)
    (m_sources m) (m_exports m) (m_exportAllSources m) (m_resolvedIds m) x.

(** Modelled from the spec: [module.setSource] (Module.ts is not part of the
    sources at hand) attaches the result of the analysis of the code: the
    static import sources, the exported names and the export-all sources. *)
Record ModuleSource := mkModuleSource {
  src_sources : list string;
  src_exports : list string;
  src_exportAllSources : list string
}.

Definition setSource (s : ModuleSource) (m : Module) : Module :=
  mkModule (m_id m) (m_moduleSideEffects m) (m_isEntryPoint m) (m_isUserDefinedEntryPoint m)
    (m_manualChunkAlias m) (m_chunkFileNames m) (m_chunkName m) (m_userChunkNames m)
    (src_sources s) (src_exports s) (src_exportAllSources s) (m_resolvedIds m) (m_exportsAll m).

(** Calls that leave the loader: plugin hooks and the transform stage. *)
Inductive hook_call :=
| HookResolveId (source : string) (importer : option string)
| HookLoad (id : string)
| CallTransform (id : string) (code : string)
| EmitFile (file : string).

Global Instance hook_call_eq_dec : EqDecision hook_call.
Proof. solve_decision. Defined.

(** A module of [graph.cachedModules], kept from an earlier build. *)
Record CachedModule := mkCachedModule {
  c_customTransformCache : bool;
  c_originalCode : string;
  c_transformFiles : option (list string);
  c_source : ModuleSource
}.

(** The state of a ModuleLoader, with the part of the graph it writes to. *)
Record loader := mkLoader {
  heap : list entity;
  modulesById : gmap string ref;
  indexedEntryModules : list (nat * ref);
  nextEntryModuleIndex : nat;
  manualChunkModules : gmap string (list ref);
  warnings : list warning;
  hookCalls : list hook_call
}.

Definition empty_loader : loader :=
  {| heap := []; modulesById := ∅; indexedEntryModules := [];
     nextEntryModuleIndex := 0; manualChunkModules := ∅;
     warnings := []; hookCalls := [] |}.

Definition set_heap (h : list entity) (st : loader) : loader :=
  mkLoader h (modulesById st) (indexedEntryModules st) (nextEntryModuleIndex st)
    (manualChunkModules st) (warnings st) (hookCalls st).

Definition set_modulesById (r : gmap string ref) (st : loader) : loader :=
  mkLoader (heap st) r (indexedEntryModules st) (nextEntryModuleIndex st)
    (manualChunkModules st) (warnings st) (hookCalls st).

Definition set_indexedEntryModules (l : list (nat * ref)) (st : loader) : loader :=
  mkLoader (heap st) (modulesById st) l (nextEntryModuleIndex st)
    (manualChunkModules st) (warnings st) (hookCalls st).

Definition set_nextEntryModuleIndex (n : nat) (st : loader) : loader :=
  mkLoader (heap st) (modulesById st) (indexedEntryModules st) n
    (manualChunkModules st) (warnings st) (hookCalls st).

Definition set_manualChunkModules (c : gmap string (list ref)) (st : loader) : loader :=
  mkLoader (heap st) (modulesById st) (indexedEntryModules st) (nextEntryModuleIndex st)
    c (warnings st) (hookCalls st).

(** [this.graph.warn(w)] *)
Definition warn (w : warning) (st : loader) : loader :=
  mkLoader (heap st) (modulesById st) (indexedEntryModules st) (nextEntryModuleIndex st)
    (manualChunkModules st) (warnings st ++ [w]) (hookCalls st).

(** A call of a hook or of the transform stage. *)
Definition call_out (c : hook_call) (st : loader) : loader :=
  mkLoader (heap st) (modulesById st) (indexedEntryModules st) (nextEntryModuleIndex st)
    (manualChunkModules st) (warnings st) (hookCalls st ++ [c]).

(** An assignment to fields of the Module behind a reference. *)
Definition on_module (f : Module → Module) (e : entity) : entity :=
  match e with
  | EModule m => EModule (f m)
  | EExternal x => EExternal x
  end.

Definition update_module (r : ref) (f : Module → Module) (st : loader) : loader :=
  set_heap (alter (on_module f) r (heap st)) st.

(** [new ...]: the object is put at the end of the heap. *)
Definition alloc (e : entity) (st : loader) : ref * loader :=
  (length (heap st), set_heap (heap st ++ [e]) st).

(** ** The loader monad

    A segment of loader code reads and writes the state and either returns
    or throws; what was written before a throw stays written. *)
Definition M (A : Type) : Type := loader → outcome A * loader.

Global Instance M_ret : MRet M := λ A a st, (Returned a, st).

Global Instance M_bind : MBind M := λ A B k m st,
  match m st with
  | (Returned a, st') => k a st'
  | (Threw e, st') => (Threw e, st')
  end.

Definition throw {A} (e : error) : M A := λ st, (Threw e, st).
Definition modify (f : loader → loader) : M unit := λ st, (Returned tt, f st).
Definition gets {A} (f : loader → A) : M A := λ st, (Returned (f st), st).

(** The state after a segment, and its outcome. *)
Definition exec {A} (m : M A) (st : loader) : loader := snd (m st).
Definition eval {A} (m : M A) (st : loader) : outcome A := fst (m st).

(** [for (const x of xs) body(x)] *)
Fixpoint for_each {A} (body : A → M unit) (xs : list A) : M unit :=
  match xs with
  | [] => mret tt
  | x :: xs' => body x;; for_each body xs'
  end.

(** ** JavaScript objects used as maps *)

(** The properties every plain object inherits from [Object.prototype]. *)
Definition Object_prototype_keys : list string :=
  [ "constructor"; "hasOwnProperty"; "isPrototypeOf"; "propertyIsEnumerable";
    "toLocaleString"; "toString"; "valueOf"; "__proto__";
    "__defineGetter__"; "__defineSetter__"; "__lookupGetter__"; "__lookupSetter__" ].

(** [obj[key]] on a plain object [{}]: an own property, one inherited from
    the prototype (a function or an object, never an array), or undefined. *)
Inductive property (A : Type) :=
| Own (a : A)
| Inherited
| Undefined.
Arguments Own {A} a.
Arguments Inherited {A}.
Arguments Undefined {A}.

Definition get_property {A} (obj : gmap string A) (key : string) : property A :=
  match obj !! key with
  | Some a => Own a
  | None => if bool_decide (key ∈ Object_prototype_keys) then Inherited else Undefined
  end.

(** An object whose keys are visited in insertion order, as the list of its
    entries: [name in obj], [obj[name]] and [obj[name] = v]. *)
Definition has_key (name : string) (obj : list (string * string)) : bool :=
  bool_decide (name ∈ obj.*1).

Fixpoint get_key (name : string) (obj : list (string * string)) : option string :=
  match obj with
  | [] => None
  | (k, v) :: obj' => if String.eqb k name then Some v else get_key name obj'
  end.

Fixpoint set_key (name v : string) (obj : list (string * string)) : list (string * string) :=
  match obj with
  | [] => [(name, v)]
  | (k, v') :: obj' =>
      if String.eqb k name then (k, v) :: obj' else (k, v') :: set_key name v obj'
  end.

(** ** [Array.prototype.sort] with the comparator of [addEntryModules]

    [compareIndex a b] is the sign that the comparator
    [({index: indexA}, {index: indexB}) => indexA > indexB ? 1 : -1]
    returns: positive when [a] is to come after [b].  The sort is the
    insertion sort driven by that sign. *)
Definition compareIndex (a b : nat * ref) : Z :=
  if bool_decide (b.1 < a.1) then 1%Z else (-1)%Z.

Fixpoint sort_insert (x : nat * ref) (l : list (nat * ref)) : list (nat * ref) :=
  match l with
  | [] => [x]
  | y :: l' =>
      if bool_decide (0 < compareIndex x y)%Z then y :: sort_insert x l' else x :: y :: l'
  end.

Fixpoint Array_sort (l : list (nat * ref)) : list (nat * ref) :=
  match l with
  | [] => []
  | x :: l' => sort_insert x (Array_sort l')
  end.

(** ** The loader *)

(** What a [resolveId] hook returns:
    [string | false | null | undefined | {id, external?, moduleSideEffects?}]. *)
Inductive ResolveIdResult :=
| RidString (id : string)
| RidFalse
| RidNullish
| RidObject (id : string) (external : bool) (moduleSideEffects : option bool).

(** What a [load] hook returns: a string, an object with a string [code],
    or anything else; or the hook rejects with a message. *)
Inductive LoadResult :=
| LoadString (code : string)
| LoadObject (code : string) (moduleSideEffects : option bool)
| LoadOther
| LoadRejected (message : string).

(** How a call of [fetchModule] or [fetchResolvedDependency] leaves its
    promise: settled with an entity, or waiting for the [load] hook of the
    module it has just created. *)
Inductive fetching :=
| Settled (entity : ref)
| AwaitingLoad (module : ref).

(** The step after the load: the source comes from the cache, or the
    transform stage has been called and is awaited. *)
Inductive transforming :=
| FromCache (source : ModuleSource)
| AwaitingTransform.

Section Loader.

(** [isRelative] of utils/path, not part of the sources at hand. *)
Variable isRelative : string → bool.
(** [this.hasModuleSideEffects], built by [getHasModuleSideEffects]. *)
Variable hasModuleSideEffects : string → bool → bool.
(** [this.getManualChunk]: [Some alias] when it returns a string. *)
Variable getManualChunk : string → option string.
(** [this.graph.cachedModules] *)
Variable cachedModules : gmap string CachedModule.

(** [addModuleToManualChunk(alias, module)] *)
Definition addModuleToManualChunk (alias : string) (module : ref) : M unit :=
  e ← gets (λ st, heap st !! module);
  match e with
  | Some (EModule m) =>
      (match m_manualChunkAlias m with
       | Some current =>
           if negb (String.eqb current alias)
           then throw (errCannotAssignModuleToChunk (m_id m) alias current)
           else mret tt
       | None => mret tt
       end);;
      modify (update_module module (set_manualChunkAlias (Some alias)));;
      chunks ← gets manualChunkModules;
      match get_property chunks alias with
      | Undefined => modify (set_manualChunkModules (<[alias := [module]]> chunks))
      | Own modules => modify (set_manualChunkModules (<[alias := modules ++ [module]]> chunks))
      | Inherited => throw (TypeError "this.manualChunkModules[alias].push is not a function")
      end
  | _ => throw (TypeError "not a Module")
  end.

(** [fetchModule(id, importer, moduleSideEffects, isEntry)], up to the
    promise it returns: the registry is read and written, the manual
    chunk is assigned and the [load] hook is called before anything is
    awaited. *)
Definition fetchModule (id : string) (importer : option string)
    (moduleSideEffects isEntry : bool) : M fetching :=
  existingModule ← gets (λ st, modulesById st !! id);
  match existingModule with
  | Some r =>
      e ← gets (λ st, heap st !! r);
      match e with
      | Some (EExternal _) => throw (CannotFetchExternalModule id)
      | Some (EModule m) =>
          modify (update_module r (set_isEntryPoint (m_isEntryPoint m || isEntry)));;
          mret (Settled r)
      | None => throw (TypeError "dangling reference")
      end
  | None =>
      module ← (λ st, let '(r, st') := alloc (EModule (new_Module id moduleSideEffects isEntry)) st
                      in (Returned r, st'));
      modify (λ st, set_modulesById (<[id := module]> (modulesById st)) st);;
      (match getManualChunk id with
       | Some manualChunkAlias => addModuleToManualChunk manualChunkAlias module
       | None => mret tt
       end);;
      modify (call_out (HookLoad id));;
      mret (AwaitingLoad module)
  end.

(** The message of a failed load: the id, and the importer when there is
    one ([if (importer)]: neither undefined nor the empty string). *)
Definition could_not_load (id : string) (importer : option string) (message : string) : string :=
  let msg := "Could not load " +:+ id in
  let msg := match importer with
             | Some i => if String.eqb i "" then msg else msg +:+ " (imported by " +:+ i +:+ ")"
             | None => msg
             end in
  msg +:+ ": " +:+ message.

(** [fetchModule], from the result of the [load] hook to the call of the
    transform stage. *)
Definition fetchModule_loaded (module : ref) (id : string) (importer : option string)
    (source : LoadResult) : M transforming :=
  sourceDescription ←
    match source with
    | LoadRejected message => throw (PluginError (could_not_load id importer message))
    | LoadString code => mret (code, None)
    | LoadObject code mse => mret (code, mse)
    | LoadOther => throw (errBadLoader id)
    end;
  let '(code, mse) := sourceDescription in
  match cachedModules !! id with
  | Some cachedModule =>
      if negb (c_customTransformCache cachedModule)
         && String.eqb (c_originalCode cachedModule) code
      then
        (match c_transformFiles cachedModule with
         | Some files => for_each (λ f, modify (call_out (EmitFile f))) files
         | None => mret tt
         end);;
        mret (FromCache (c_source cachedModule))
      else
        (match mse with
         | Some b => modify (update_module module (set_moduleSideEffects b))
         | None => mret tt
         end);;
        modify (call_out (CallTransform id code));;
        mret AwaitingTransform
  | None =>
      (match mse with
       | Some b => modify (update_module module (set_moduleSideEffects b))
       | None => mret tt
       end);;
      modify (call_out (CallTransform id code));;
      mret AwaitingTransform
  end.

(** [fetchModule], once the source is there: [module.setSource(source)]
    and the second [this.modulesById.set(id, module)].  The dependencies
    are fetched from here on, by the operations below. *)
Definition fetchModule_transformed (module : ref) (id : string)
    (source : outcome ModuleSource) : M unit :=
  match source with
  | Threw e => throw e
  | Returned source =>
      modify (update_module module (setSource source));;
      modify (λ st, set_modulesById (<[id := module]> (modulesById st)) st)
  end.

(** [fetchResolvedDependency(source, importer, resolvedId)] *)
Definition fetchResolvedDependency (source importer : string) (resolvedId : ResolvedId)
  : M fetching :=
  if rid_external resolvedId then
    known ← gets (λ st, modulesById st !! rid_id resolvedId);
    (match known with
     | Some _ => mret tt
     | None =>
         r ← (λ st, let '(r, st') :=
                      alloc (EExternal (new_ExternalModule (rid_id resolvedId)
                                          (rid_moduleSideEffects resolvedId))) st
                    in (Returned r, st'));
         modify (λ st, set_modulesById (<[rid_id resolvedId := r]> (modulesById st)) st)
     end);;
    externalModule ← gets (λ st, r ← modulesById st !! rid_id resolvedId;
                                 e ← heap st !! r; mret (r, e));
    match externalModule with
    | Some (r, EExternal _) => mret (Settled r)
    | _ => throw (errInternalIdCannotBeExternal source importer)
    end
  else
    fetchModule (rid_id resolvedId) (Some importer) (rid_moduleSideEffects resolvedId) false.

(** [handleMissingImports(resolvedId, source, importer)] *)
Definition handleMissingImports (resolvedId : option ResolvedId) (source importer : string)
  : M ResolvedId :=
  match resolvedId with
  | None =>
      (if isRelative source
       then throw (errUnresolvedImport source importer)
       else mret tt);;
      modify (warn (errUnresolvedImportTreatedAsExternal source importer));;
      mret {| rid_external := true;
              rid_id := source;
              rid_moduleSideEffects := hasModuleSideEffects source true |}
  | Some resolvedId => mret resolvedId
  end.

(** [loadEntryModule(unresolvedId, isEntry)]: the call of the hook ... *)
Definition loadEntryModule (unresolvedId : string) (isEntry : bool) : M unit :=
  modify (call_out (HookResolveId unresolvedId None)).

(** ... and what follows when the hook has answered. *)
Definition loadEntryModule_resolved (unresolvedId : string) (isEntry : bool)
    (resolveIdResult : ResolveIdResult) : M fetching :=
  match resolveIdResult with
  | RidFalse => throw (errEntryCannotBeExternal unresolvedId)
  | RidObject _ true _ => throw (errEntryCannotBeExternal unresolvedId)
  | RidObject id false _ => fetchModule id None true isEntry
  | RidString id => fetchModule id None true isEntry
  | RidNullish => throw (errUnresolvedEntry unresolvedId)
  end.

(** [resolveAndFetchDependency(module, source)], after [this.resolveId]
    has answered: the resolution is stored in [module.resolvedIds] and
    the dependency is fetched. *)
Definition resolveAndFetchDependency_resolved (module : ref) (source : string)
    (resolved : option ResolvedId) : M fetching :=
  e ← gets (λ st, heap st !! module);
  match e with
  | Some (EModule m) =>
      resolvedId ← handleMissingImports resolved source (m_id m);
      modify (update_module module
                (λ m, set_resolvedIds (<[source := resolvedId]> (m_resolvedIds m)) m));;
      fetchResolvedDependency source (m_id m) resolvedId
  | _ => throw (TypeError "not a Module")
  end.

(** *** The re-export closure *)

(** One round of [for (const name in exportAllModule.exportsAll)]: the
    name [name], which the export-all target maps to [origin]. *)
Definition mergeExportedName (module exportAllModule : ref) (entry : string * string)
  : M unit :=
  let '(name, origin) := entry in
  e ← gets (λ st, heap st !! module);
  x ← gets (λ st, heap st !! exportAllModule);
  match e, x with
  | Some (EModule m), Some (EModule xm) =>
      if has_key name (m_exportsAll m)
      then modify (warn (errNamespaceConflict name (m_id m) (m_id xm)))
      else modify (update_module module
                     (λ m, set_exportsAll (set_key name origin (m_exportsAll m)) m))
  | _, _ => throw (TypeError "not a Module")
  end.

(** The callback of [module.exportAllSources.forEach]. *)
Definition mergeExportAllSource (module : ref) (source : string) : M unit :=
  e ← gets (λ st, heap st !! module);
  match e with
  | Some (EModule m) =>
      match m_resolvedIds m !! source with
      | None => throw (TypeError "module.resolvedIds[source] is undefined")
      | Some resolvedId =>
          exportAllModule ← gets (λ st, modulesById st !! rid_id resolvedId);
          match exportAllModule with
          | None => throw (TypeError "exportAllModule is undefined")
          | Some x =>
              xe ← gets (λ st, heap st !! x);
              match xe with
              | Some (EExternal _) => mret tt
              | Some (EModule xm) =>
                  for_each (mergeExportedName module x) (m_exportsAll xm)
              | None => throw (TypeError "dangling reference")
              end
          end
      end
  | _ => throw (TypeError "not a Module")
  end.

(** [for (const name in module.exports)] *)
Definition exportOwnName (module : ref) (name : string) : M unit :=
  if negb (String.eqb name "default")
  then modify (update_module module
                 (λ m, set_exportsAll (set_key name (m_id m) (m_exportsAll m)) m))
  else mret tt.

(** [fetchModule], once [fetchAllDependencies] has settled with [deps]:
    a rejection is passed on, otherwise [module.exportsAll] is computed
    and the module is returned. *)
Definition fetchModule_linked {D} (module : ref) (deps : outcome D) : M ref :=
  match deps with
  | Threw e => throw e
  | Returned _ =>
      e ← gets (λ st, heap st !! module);
      match e with
      | Some (EModule m) =>
          for_each (exportOwnName module) (m_exports m);;
          for_each (mergeExportAllSource module) (m_exportAllSources m);;
          mret module
      | _ => throw (TypeError "not a Module")
      end
  end.

(** *** Entry modules *)

(** [this.indexedEntryModules.find(m => m.module.id === entryModule.id)],
    then the push of a new entry or the minimum on the one found. *)
Definition module_id (st : loader) (r : ref) : option string :=
  entity_id <$> heap st !! r.

Definition mergeEntryModule (ids : ref → option string) (entryModule : ref)
    (moduleIndex : nat) (indexed : list (nat * ref)) : list (nat * ref) :=
  match list_find (λ indexedModule, ids indexedModule.2 = ids entryModule) indexed with
  | None => indexed ++ [(moduleIndex, entryModule)]
  | Some (position, existingIndexModule) =>
      <[position := (existingIndexModule.1 `min` moduleIndex, existingIndexModule.2)]> indexed
  end.

(** The loop [for (const entryModule of entryModules)], [moduleIndex]
    counting up. *)
Fixpoint mergeEntryModules (isUserDefined : bool) (entryModules : list ref)
    (moduleIndex : nat) : M unit :=
  match entryModules with
  | [] => mret tt
  | entryModule :: rest =>
      modify (update_module entryModule
                (λ m, set_isUserDefinedEntryPoint
                        (m_isUserDefinedEntryPoint m || isUserDefined) m));;
      modify (λ st, set_indexedEntryModules
                      (mergeEntryModule (module_id st) entryModule moduleIndex
                         (indexedEntryModules st)) st);;
      mergeEntryModules isUserDefined rest (S moduleIndex)
  end.

Record UnresolvedModule := mkUnresolvedModule {
  um_fileName : option string;
  um_id : string;
  um_name : option string
}.

(** [addEntryModules(unresolvedEntryModules, isUserDefined)], up to the
    promise it returns: the indices are reserved, the [resolveId] hook is
    called for each specifier.  The result is [firstEntryModuleIndex]. *)
Definition addEntryModules (unresolvedEntryModules : list UnresolvedModule) : M nat :=
  firstEntryModuleIndex ← gets nextEntryModuleIndex;
  modify (set_nextEntryModuleIndex (firstEntryModuleIndex + length unresolvedEntryModules));;
  for_each (λ u, loadEntryModule (um_id u) true) unresolvedEntryModules;;
  mret firstEntryModuleIndex.

(** The hints of one specifier, once its module is there. *)
Definition addEntryModules_hints (u : UnresolvedModule) (isUserDefined : bool)
    (module : ref) : M ref :=
  (match um_fileName u, um_name u with
   | Some fileName, _ =>
       modify (update_module module
                 (λ m, set_chunkFileNames ({[fileName]} ∪ m_chunkFileNames m) m))
   | None, Some name =>
       modify (update_module module
                 (λ m, match m_chunkName m with
                       | None => set_chunkName (Some name) m
                       | Some _ => m
                       end));;
       if isUserDefined
       then modify (update_module module
                      (λ m, set_userChunkNames ({[name]} ∪ m_userChunkNames m) m))
       else mret tt
   | None, None => mret tt
   end);;
  mret module.

(** [loadNewEntryModulesPromise]: the modules of all specifiers are there,
    in the order of the specifiers; they are merged into the entry index,
    which is then sorted. *)
Definition addEntryModules_merge (firstEntryModuleIndex : nat) (isUserDefined : bool)
    (entryModules : list ref) : M (list ref) :=
  mergeEntryModules isUserDefined entryModules firstEntryModuleIndex;;
  modify (λ st, set_indexedEntryModules (Array_sort (indexedEntryModules st)) st);;
  mret entryModules.

(** The value [addEntryModules] resolves to. *)
Record EntryModulesResult := mkEntryModulesResult {
  entryModules : list ref;
  manualChunkModulesByAlias : gmap string (list ref);
  newEntryModules : list ref
}.

Definition addEntryModules_result (newEntryModules : list ref) : M EntryModulesResult :=
  st ← gets (λ st, st);
  mret {| entryModules := (indexedEntryModules st).*2;
          manualChunkModulesByAlias := manualChunkModules st;
          newEntryModules := newEntryModules |}.

(** *** Manual chunks *)

(** [unresolvedManualChunks], from the aliases in the order of
    [Object.keys(manualChunks)]. *)
Definition unresolvedManualChunks (manualChunks : list (string * list string))
  : list (string * string) :=
  '(alias, manualChunkIds) ← manualChunks;
  id ← manualChunkIds;
  [(alias, id)].

(** [addManualChunks(manualChunks)], up to the promise it returns. *)
Definition addManualChunks (manualChunks : list (string * list string)) : M unit :=
  for_each (λ u, loadEntryModule u.2 false) (unresolvedManualChunks manualChunks).

(** [loadNewManualChunkModulesPromise]: the modules are there, in the
    order of [unresolvedManualChunks]. *)
Definition addManualChunks_assign (manualChunks : list (string * list string))
    (manualChunkModules : list ref) : M unit :=
  for_each (λ am, addModuleToManualChunk am.1.1 am.2)
           (zip (unresolvedManualChunks manualChunks) manualChunkModules).

End Loader.

(** ** Promises, by how they settle

    A promise is represented by its settled state: [Returned v] when it is
    fulfilled with [v], [Threw e] when it is rejected with [e]. *)
Module Promise.

(** [Promise.all(ps)]: fulfilled with all values when every promise is
    fulfilled, rejected as soon as one is.  (Which rejection comes first
    in time is not part of this model: the first one in the list is
    taken.) *)
Fixpoint all {A} (ps : list (outcome A)) : outcome (list A) :=
  match ps with
  | [] => Returned []
  | Threw e :: _ => Threw e
  | Returned a :: ps' =>
      match all ps' with
      | Returned l => Returned (a :: l)
      | Threw e => Threw e
      end
  end.

(** [p.catch(handler)]: a NEW promise, fulfilled with the value of [p] or
    with what the handler returns.  [p] itself stays as it is. *)
Definition catch {A B} (p : outcome A) (handler : error → B) : outcome (A + B) :=
  match p with
  | Returned a => Returned (inl a)
  | Threw e => Returned (inr (handler e))
  end.

(** [await p] followed by [k], inside an async function. *)
Definition await {A B} (p : outcome A) (k : A → outcome B) : outcome B :=
  match p with
  | Returned a => k a
  | Threw e => Threw e
  end.

End Promise.

(** What [resolveDynamicImport] resolves to:
    [ResolvedId | string | null]. *)
Inductive DynamicResolution :=
| DynNull
| DynString (resolution : string)
| DynResolvedId (resolvedId : ResolvedId).

(** One element of the dynamic-import batch of [fetchAllDependencies]: the
    async function that awaits [resolveDynamicImport] and then, for a
    ResolvedId, [fetchResolvedDependency].  [fetched] is how that fetch
    settles when it is made. *)
Definition fetchDynamicImport (resolved : outcome DynamicResolution)
    (fetched : outcome ref) : outcome unit :=
  Promise.await resolved (λ resolvedId,
    match resolvedId with
    | DynNull => Returned tt
    | DynString _ => Returned tt
    | DynResolvedId _ => Promise.await fetched (λ _, Returned tt)
    end).

(** [fetchAllDependencies(module)], as the promise it returns, from the
    promises of the dynamic imports and of the static dependencies. *)
Definition fetchAllDependencies (dynamicImports : list (outcome unit))
    (dependencies : list (outcome ref)) : outcome (list unit) :=
  let fetchDynamicImportsPromise := Promise.all dynamicImports in
  (* fetchDynamicImportsPromise.catch(() => {}): the promise that [catch]
     returns is not kept *)
  let _ := Promise.catch fetchDynamicImportsPromise (λ _, tt) in
  Promise.await (Promise.all dependencies) (λ _, fetchDynamicImportsPromise).

(** ** Builds: sequences of atomic loader segments

    Between two awaits the loader runs one of the segments below.  A build
    is any sequence of them: which segment runs next is the scheduler's
    choice. *)
Inductive op :=
| OpAddEntryModules (unresolvedEntryModules : list UnresolvedModule)
| OpLoadEntryModuleResolved (unresolvedId : string) (isEntry : bool)
    (resolveIdResult : ResolveIdResult)
| OpAddEntryModulesHints (u : UnresolvedModule) (isUserDefined : bool) (module : ref)
| OpAddEntryModulesMerge (firstEntryModuleIndex : nat) (isUserDefined : bool)
    (entryModules : list ref)
| OpAddManualChunks (manualChunks : list (string * list string))
| OpAddManualChunksAssign (manualChunks : list (string * list string))
    (manualChunkModules : list ref)
| OpFetchModule (id : string) (importer : option string) (moduleSideEffects isEntry : bool)
| OpFetchModuleLoaded (module : ref) (importer : option string) (source : LoadResult)
| OpFetchModuleTransformed (module : ref) (source : outcome ModuleSource)
| OpFetchModuleLinked (module : ref) (deps : outcome (list unit))
| OpResolveAndFetchDependency (module : ref) (source : string) (resolved : option ResolvedId)
| OpFetchResolvedDependency (source importer : string) (resolvedId : ResolvedId).

Section Build.

Variable isRelative : string → bool.
Variable hasModuleSideEffects : string → bool → bool.
Variable getManualChunk : string → option string.
Variable cachedModules : gmap string CachedModule.

(** The continuation of [fetchModule] belongs to a module that
    [fetchModule] created: it knows the module and its id. *)
Definition with_module (module : ref) (k : Module → M unit) : M unit :=
  e ← gets (λ st, heap st !! module);
  match e with
  | Some (EModule m) => k m
  | _ => mret tt
  end.

Definition step (o : op) : M unit :=
  match o with
  | OpAddEntryModules us => addEntryModules us;; mret tt
  | OpLoadEntryModuleResolved u isEntry r =>
      loadEntryModule_resolved getManualChunk u isEntry r;; mret tt
  | OpAddEntryModulesHints u isUserDefined module =>
      addEntryModules_hints u isUserDefined module;; mret tt
  | OpAddEntryModulesMerge first isUserDefined ms =>
      addEntryModules_merge first isUserDefined ms;; mret tt
  | OpAddManualChunks cs => addManualChunks cs
  | OpAddManualChunksAssign cs ms => addManualChunks_assign cs ms
  | OpFetchModule id importer mse isEntry =>
      fetchModule getManualChunk id importer mse isEntry;; mret tt
  | OpFetchModuleLoaded module importer source =>
      with_module module (λ m,
        fetchModule_loaded cachedModules module (m_id m) importer source;; mret tt)
  | OpFetchModuleTransformed module source =>
      with_module module (λ m, fetchModule_transformed module (m_id m) source)
  | OpFetchModuleLinked module deps =>
      fetchModule_linked module deps;; mret tt
  | OpResolveAndFetchDependency module source resolved =>
      resolveAndFetchDependency_resolved isRelative hasModuleSideEffects getManualChunk
        module source resolved;; mret tt
  | OpFetchResolvedDependency source importer resolvedId =>
      fetchResolvedDependency getManualChunk source importer resolvedId;; mret tt
  end.

(** The state after a build.  A segment that throws rejects a promise;
    the state it leaves is the state the next segment starts from. *)
Definition run (ops : list op) (st : loader) : loader :=
  foldl (λ st o, exec (step o) st) st ops.

End Build.

(** The option of [getIdMatcher] is a single value: not a boolean, not a
    function, not an array.  [v] is that value as an element of the set. *)
Inductive single_value {T} : id_option T → set_elem → Prop :=
| single_string s : single_value (OptString s) (EStr s)
| single_other b : single_value (OptOther b) ENotString.

(** ** Unfolding loader segments *)

Ltac unfold_M :=
  unfold mbind, M_bind, mret, M_ret, gets, modify, throw, exec, eval in *.

Ltac run_M := unfold_M; simpl in *.

(** ** The re-export closure, as the specification words it

    The definitions of this part follow the description of the closure and
    are compared with [fetchModule_linked] below. *)

(** What an export-all source points to when the module is linked: an
    external module, or a module with its id and its [exportsAll] at that
    time, or the linked module itself. *)
Inductive export_all_target :=
| TargetExternal
| TargetSelf
| TargetModule (id : string) (exportsAll : list (string * string)).

(** The names of one source are merged in: a name already present keeps its
    mapping and gives one warning; the other names are added, in order. *)
Definition merge_names_spec (moduleId targetId : string)
    (target exportsAll : list (string * string))
  : list (string * string) * list warning :=
  (exportsAll ++ filter (λ e, has_key e.1 exportsAll = false) target,
   (λ e, errNamespaceConflict e.1 moduleId targetId)
     <$> filter (λ e, has_key e.1 exportsAll = true) target).

Definition merge_target_spec (moduleId : string)
    (acc : list (string * string) * list warning) (t : export_all_target)
  : list (string * string) * list warning :=
  match t with
  | TargetExternal => acc
  | TargetSelf =>
      let '(exportsAll', ws) := merge_names_spec moduleId moduleId acc.1 acc.1 in
      (exportsAll', acc.2 ++ ws)
  | TargetModule targetId target =>
      let '(exportsAll', ws) := merge_names_spec moduleId targetId target acc.1 in
      (exportsAll', acc.2 ++ ws)
  end.

(** Every exported name but 'default' maps to the module's own id; then
    the export-all sources are merged in, in order. *)
Definition exportsAll_spec (moduleId : string) (exports : list string)
    (targets : list export_all_target)
  : list (string * string) * list warning :=
  foldl (merge_target_spec moduleId)
        ((λ name, (name, moduleId)) <$> filter (λ name, name ≠ "default") exports, [])
        targets.

(** The target of an export-all source, as [mergeExportAllSource] finds it:
    [this.modulesById.get(module.resolvedIds[source].id)]. *)
Definition export_all_target_of (st : loader) (module : ref) (m : Module) (source : string)
  : option export_all_target :=
  resolvedId ← m_resolvedIds m !! source;
  x ← modulesById st !! rid_id resolvedId;
  e ← heap st !! x;
  match e with
  | EExternal _ => Some TargetExternal
  | EModule xm =>
      if decide (x = module) then Some TargetSelf
      else Some (TargetModule (m_id xm) (m_exportsAll xm))
  end.

(** The names of a target are distinct, as the keys of an object are. *)
Definition target_keys_distinct (t : export_all_target) : Prop :=
  match t with
  | TargetModule _ exportsAll => NoDup exportsAll.*1
  | _ => True
  end.

(** The state in which the module behind [r] has the table [exportsAll]
    and the warnings [ws] have been added. *)
Definition with_exportsAll (st : loader) (r : ref) (m : Module)
    (exportsAll : list (string * string)) (ws : list warning) : loader :=
  mkLoader (<[r := EModule (set_exportsAll exportsAll m)]> (heap st))
    (modulesById st) (indexedEntryModules st) (nextEntryModuleIndex st)
    (manualChunkModules st) (warnings st ++ ws) (hookCalls st).

(** ** The registry invariant *)

(** Every entity of the heap is the one registered under its id, and every
    entry of the registry is an entity with that id. *)
Definition registry_consistent (st : loader) : Prop :=
  (∀ r e, heap st !! r = Some e → modulesById st !! entity_id e = Some r)
  ∧ (∀ id r, modulesById st !! id = Some r →
             ∃ e, heap st !! r = Some e ∧ entity_id e = id).

Definition is_external (e : entity) : bool :=
  match e with EExternal _ => true | EModule _ => false end.

(** From [st] to [st']: the registry is consistent again, its entries are
    kept, and the entities keep their id and their kind. *)
Definition grows (st st' : loader) : Prop :=
  registry_consistent st'
  ∧ (∀ id r, modulesById st !! id = Some r → modulesById st' !! id = Some r)
  ∧ (∀ r e, heap st !! r = Some e →
            ∃ e', heap st' !! r = Some e'
                  ∧ entity_id e' = entity_id e ∧ is_external e' = is_external e).

(** A segment that keeps the registry invariant, however it ends. *)
Definition preserves {A} (m : M A) : Prop :=
  ∀ st, registry_consistent st → grows st (m st).2.

(** ** Example states *)

Definition example_module (id : string) (exports exportAllSources : list string)
    (resolvedIds : list (string * ResolvedId)) (exportsAll : list (string * string))
  : Module :=
  mkModule id true false false None ∅ None ∅ exportAllSources exports exportAllSources
    (list_to_map resolvedIds) exportsAll.

(** A module "c.js" that exports [c] and a default and re-exports all of
    "a.js", of "b.js" and of the external "ext"; "a.js" and "b.js" both
    provide [x]. *)
Definition example_c : Module :=
  example_module "c.js" ["c"; "default"] ["./a"; "./b"; "ext"]
    [("./a", mkResolvedId false "a.js" true);
     ("./b", mkResolvedId false "b.js" true);
     ("ext", mkResolvedId true "ext" true)] [].

Definition example_diamond : loader :=
  {| heap := [ EModule example_c;
               EModule (example_module "a.js" ["x"] [] [] [("x", "a.js")]);
               EModule (example_module "b.js" ["x"; "y"] [] [] [("x", "b.js"); ("y", "b.js")]);
               EExternal (new_ExternalModule "ext" true) ];
     modulesById := list_to_map [("c.js", 0); ("a.js", 1); ("b.js", 2); ("ext", 3)];
     indexedEntryModules := [];
     nextEntryModuleIndex := 0;
     manualChunkModules := ∅;
     warnings := [];
     hookCalls := [] |}.

(** Steps of a proof that a segment keeps the registry invariant. *)
Ltac preserves_field :=
  let m := fresh "m" in
  intros m; destruct m; simpl; repeat case_match; reflexivity.

(** ** The entry index, as a list of requests

    A request is a module together with the index at which a call of
    [addEntryModules] asked for it. *)

(** The requests of one call: its modules, in the order of its specifiers,
    with the indices [first], [first + 1], ... *)
Definition batch_requests (first : nat) (entryModules : list ref) : list (nat * ref) :=
  zip (seq first (length entryModules)) entryModules.

(** The list that the loop [mergeEntryModules] builds. *)
Definition merge_requests (ids : ref → option string) (indexed requests : list (nat * ref))
  : list (nat * ref) :=
  foldl (λ l req, mergeEntryModule ids req.2 req.1 l) indexed requests.

(** The merges of several calls, one after the other; a call is its first
    index, its flag [isUserDefined] and its modules. *)
Definition merge_calls (calls : list (nat * bool * list ref)) : M unit :=
  for_each (λ c, addEntryModules_merge c.1.1 c.1.2 c.2;; mret tt) calls.

Definition calls_requests (calls : list (nat * bool * list ref)) : list (nat * ref) :=
  c ← calls; batch_requests c.1.1 c.2.

(** [indexed] is the entry index of the requests made so far: one entry per
    module id; the entry of a module carries the least index at which the
    module was requested; every requested module has an entry. *)
Definition entry_index (ids : ref → option string) (requests indexed : list (nat * ref))
  : Prop :=
  NoDup (ids <$> indexed.*2)
  ∧ (∀ (i : nat) (r : ref), (i, r) ∈ indexed →
            (i, r) ∈ requests
            ∧ ∀ (j : nat) (r' : ref), (j, r') ∈ requests → ids r' = ids r → (i ≤ j)%nat)
  ∧ (∀ (j : nat) (r' : ref), (j, r') ∈ requests →
            ∃ (i : nat) (r : ref), (i, r) ∈ indexed ∧ ids r = ids r').

(** No two requested modules share an id. *)
Definition one_module_per_id (ids : ref → option string) (requests : list (nat * ref))
  : Prop :=
  ∀ (i : nat) (r : ref) (j : nat) (r' : ref),
    (i, r) ∈ requests → (j, r') ∈ requests → ids r = ids r' → r = r'.

(** The entry index after the merge of one call. *)
Definition merge_call (ids : ref → option string) (indexed : list (nat * ref))
    (c : nat * bool * list ref) : list (nat * ref) :=
  Array_sort (merge_requests ids indexed (batch_requests c.1.1 c.2)).

(** The calls of [addEntryModules] in the order in which they are made,
    each with the first index that the counter gives it: a call takes as
    many indices as it has modules, and the next call starts behind it. *)
Fixpoint number_calls (next : nat) (batches : list (bool * list ref))
  : list (nat * bool * list ref) :=
  match batches with
  | [] => []
  | (isUserDefined, entryModules) :: rest =>
      (next, isUserDefined, entryModules) :: number_calls (next + length entryModules) rest
  end.

(** ** Resolution of import sources *)

(** The answer of [this.resolveId] as its caller sees it at once: the
    resolution when the source is external by configuration, or a pending
    call of the [resolveId] hook. *)
Inductive resolving :=
| ResolvedNow (resolvedId : option ResolvedId)
| AwaitingResolveId.

Section Resolution.

(** [isRelative] and [resolve] of utils/path, not part of the sources at
    hand; [resolve importer ".." source] is [resolve(importer, '..', source)]. *)
Variable isRelative : string → bool.
Variable resolve : string → string → string → string.
(** [this.isExternal(id, importer, isResolved)] and
    [this.hasModuleSideEffects(id, external)]. *)
Variable isExternal : string → string → bool → bool.
Variable hasModuleSideEffects : string → bool → bool.

Definition normalizeRelativeExternalId (importer source : string) : string :=
  if isRelative source then resolve importer ".." source else source.

(** [normalizeResolveIdResult(resolveIdResult, importer, source)]; [None] is
    the result [null].  The empty string is falsy: it goes the way of
    [null]. *)
Definition normalizeResolveIdResult (resolveIdResult : ResolveIdResult)
    (importer source : string) : option ResolvedId :=
  let finish (external : bool) (id : string) (moduleSideEffects : option bool) :=
    Some {| rid_external := external;
            rid_id := id;
            rid_moduleSideEffects :=
              match moduleSideEffects with
              | Some b => b
              | None => hasModuleSideEffects id external
              end |} in
  let unresolved (isFalse : bool) :=
    let id := normalizeRelativeExternalId importer source in
    if negb isFalse && negb (isExternal id importer true)
    then None
    else finish true id None in
  match resolveIdResult with
  | RidObject id external moduleSideEffects => finish external id moduleSideEffects
  | RidString resolved =>
      if String.eqb resolved "" then unresolved false
      else
        let external := isExternal resolved importer true in
        let id := if external then normalizeRelativeExternalId importer resolved
                  else resolved in
        finish external id None
  | RidFalse => unresolved true
  | RidNullish => unresolved false
  end.

(** [resolveId(source, importer, skip)], up to its first await: when the
    source is external by configuration the hook is not called. *)
Definition resolveId (source importer : string) : M resolving :=
  if isExternal source importer false
  then mret (ResolvedNow (normalizeResolveIdResult RidFalse importer source))
  else modify (call_out (HookResolveId source (Some importer)));;
       mret AwaitingResolveId.

(** [resolveId], once the hook has answered. *)
Definition resolveId_resolved (source importer : string) (answer : ResolveIdResult)
  : option ResolvedId :=
  normalizeResolveIdResult answer importer source.

(** What [resolveAndFetchDependency] makes of a source that is not in
    [module.resolvedIds] yet, from the answer of the hook on. *)
Definition resolveImport (source importer : string) (answer : ResolveIdResult)
  : M ResolvedId :=
  handleMissingImports isRelative hasModuleSideEffects
    (resolveId_resolved source importer answer) source importer.

End Resolution.

(** ** The render pipeline (utils/renderChunk) *)

(** What a [renderChunk], [transformChunk] or [transformBundle] hook
    returns: nothing, a string, or [{code, map?}] where [map] is absent,
    [null] or a source map. *)
Inductive map_field (SourceMap : Type) :=
| MapAbsent
| MapNull
| MapValue (map : SourceMap).
Arguments MapAbsent {SourceMap}.
Arguments MapNull {SourceMap}.
Arguments MapValue {SourceMap} map.

Inductive RenderResult (SourceMap : Type) :=
| RenderNullish
| RenderString (code : string)
| RenderObject (code : string) (map : map_field SourceMap).
Arguments RenderNullish {SourceMap}.
Arguments RenderString {SourceMap} code.
Arguments RenderObject {SourceMap} code map.

(** An element of [sourcemapChain]: a decoded map, or
    [{missing: true, plugin: plugin.name}]. *)
Inductive chain_entry (Decoded : Type) :=
| DecodedMap (map : Decoded)
| MissingMap (plugin : string).
Arguments DecodedMap {Decoded} map.
Arguments MissingMap {Decoded} plugin.

(** An error object of the render pipeline, by the properties that
    [renderChunk] reads and writes. *)
Record RenderError := mkRenderError {
  err_code : option string;
  err_message : string;
  err_plugin : option string
}.

(** How a promise of the render pipeline settles. *)
Inductive settled (A : Type) :=
| Fulfilled (a : A)
| Rejected (err : RenderError).
Arguments Fulfilled {A} a.
Arguments Rejected {A} err.

(** What a call of [hookReduceArg0] (utils/pluginDriver, not part of the
    sources at hand) can do: throw at once or return a promise. *)
Inductive call_result (A : Type) :=
| ThrewAtOnce (err : RenderError)
| Promised (p : settled A).
Arguments ThrewAtOnce {A} err.
Arguments Promised {A} p.

Section RenderChunk.

Context {SourceMap Decoded : Type}.

(** [decodedSourcemap] of utils/decodedSourcemap, not part of the sources at
    hand: from [undefined] ([None]) or a source map to a decoded map or
    [null]. *)
Variable decodedSourcemap : option SourceMap → option Decoded.

(** [renderChunkReducer(code, result, plugin)], with the chain it pushes
    to. *)
Definition renderChunkReducer (code : string) (result : RenderResult SourceMap)
    (plugin_name : string) (sourcemapChain : list (chain_entry Decoded))
  : string * list (chain_entry Decoded) :=
  let push (map : option SourceMap) :=
    sourcemapChain ++ [match decodedSourcemap map with
                       | Some decoded => DecodedMap decoded
                       | None => MissingMap plugin_name
                       end] in
  match result with
  | RenderNullish => (code, sourcemapChain)
  | RenderString code' => (code', push None)
  | RenderObject code' MapAbsent => (code', push None)
  | RenderObject code' MapNull => (code', sourcemapChain)
  | RenderObject code' (MapValue map) => (code', push (Some map))
  end.

(** The reducer applied to the results of several plugins, one after the
    other. *)
Definition reduceResults (code : string) (sourcemapChain : list (chain_entry Decoded))
    (results : list (string * RenderResult SourceMap))
  : string * list (chain_entry Decoded) :=
  foldl (λ acc pr, renderChunkReducer acc.1 pr.2 pr.1 acc.2) (code, sourcemapChain) results.

(** Modelled from the spec: [error(err, props)] of utils/error (not part of
    the sources at hand) puts the properties on the error and throws it. *)
Definition transformer_error (inTransformBundle : bool) (err : RenderError) : RenderError :=
  {| err_code := Some (if inTransformBundle then "BAD_BUNDLE_TRANSFORMER"
                       else "BAD_CHUNK_TRANSFORMER");
     err_message :=
       "Error transforming "
       +:+ (if inTransformBundle then "bundle" else "chunk")
       +:+ match err_plugin err with
           | Some plugin =>
               if String.eqb plugin "" then ""
               else " with '" +:+ plugin +:+ "' plugin"
           | None => ""
           end
       +:+ ": " +:+ err_message err;
     err_plugin := err_plugin err |}.

(** [renderChunk(...)]: the three stages are the calls of [hookReduceArg0]
    for 'renderChunk', 'transformChunk' and 'transformBundle'.  The first
    call is made before the async function starts; the second is awaited
    inside [try]; the third is returned from inside [try] without being
    awaited, so that [catch] sees what it throws at once but not how its
    promise settles. *)
Definition renderChunk (renderChunkStage : call_result string)
    (transformChunkStage transformBundleStage : string → call_result string)
  : call_result string :=
  match renderChunkStage with
  | ThrewAtOnce err => ThrewAtOnce err
  | Promised (Rejected err) => Promised (Rejected err)
  | Promised (Fulfilled code) =>
      match transformChunkStage code with
      | ThrewAtOnce err | Promised (Rejected err) =>
          Promised (Rejected (transformer_error false err))
      | Promised (Fulfilled code') =>
          match transformBundleStage code' with
          | ThrewAtOnce err => Promised (Rejected (transformer_error true err))
          | Promised p => Promised p
          end
      end
  end.

End RenderChunk.

(** What the reducer pushes for a result, if anything: the argument of
    [decodedSourcemap]. *)
Definition pushed_map {SourceMap} (result : RenderResult SourceMap)
  : option (option SourceMap) :=
  match result with
  | RenderNullish => None
  | RenderString _ => Some None
  | RenderObject _ MapAbsent => Some None
  | RenderObject _ MapNull => None
  | RenderObject _ (MapValue map) => Some (Some map)
  end.

Definition result_code {SourceMap} (result : RenderResult SourceMap) : option string :=
  match result with
  | RenderNullish => None
  | RenderString code => Some code
  | RenderObject code _ => Some code
  end.

(** ** Relations between the states of a build *)

(** A segment that takes every state to a state related by [R]. *)
Definition steps (R : relation loader) {A} (m : M A) : Prop :=
  ∀ st, R st (m st).2.

(** From [m] to [m']: the entry flags do not go back to false, the sets of
    names do not shrink, and a chunk name or a manual-chunk alias that is
    set stays what it is. *)
Definition module_advances (m m' : Module) : Prop :=
  (m_isEntryPoint m = true → m_isEntryPoint m' = true)
  ∧ (m_isUserDefinedEntryPoint m = true → m_isUserDefinedEntryPoint m' = true)
  ∧ m_chunkFileNames m ⊆ m_chunkFileNames m'
  ∧ m_userChunkNames m ⊆ m_userChunkNames m'
  ∧ (∀ name, m_chunkName m = Some name → m_chunkName m' = Some name)
  ∧ (∀ alias, m_manualChunkAlias m = Some alias → m_manualChunkAlias m' = Some alias).

(** From [st] to [st']: every module is still there and has advanced, the
    entry counter has not gone back, and the warnings and the calls of
    hooks have only been added to. *)
Definition advances (st st' : loader) : Prop :=
  (∀ r m, heap st !! r = Some (EModule m) →
          ∃ m', heap st' !! r = Some (EModule m') ∧ module_advances m m')
  ∧ (nextEntryModuleIndex st ≤ nextEntryModuleIndex st')%nat
  ∧ warnings st `prefix_of` warnings st'
  ∧ hookCalls st `prefix_of` hookCalls st'.

(** An assignment to fields of a module that leaves the id and the
    manual-chunk alias alone and lets the module advance: what the loader
    does to a module away from [fetchModule] and
    [addModuleToManualChunk]. *)
Definition field_update (f : Module → Module) : Prop :=
  ∀ m, m_id (f m) = m_id m
       ∧ m_manualChunkAlias (f m) = m_manualChunkAlias m
       ∧ module_advances m (f m).

(** The ids for which the [load] hook has been called, in order. *)
Definition loaded_ids (st : loader) : list string :=
  omap (λ c, match c with HookLoad id => Some id | _ => None end) (hookCalls st).

(** The [load] hook has been called at most once per id, and only for ids
    that are registered. *)
Definition loads_once (st : loader) : Prop :=
  NoDup (loaded_ids st)
  ∧ ∀ id, id ∈ loaded_ids st → is_Some (modulesById st !! id).

(** Every module in the list of an alias carries that alias. *)
Definition chunks_consistent (st : loader) : Prop :=
  ∀ alias modules r,
    manualChunkModules st !! alias = Some modules → r ∈ modules →
    ∃ m, heap st !! r = Some (EModule m) ∧ m_manualChunkAlias m = Some alias.

(** An invariant, as a relation between the states before and after. *)
Definition keeps (I : loader → Prop) : relation loader :=
  λ st st', I st → I st'.

Ltac field_update_tac :=
  let m := fresh "m" in
  intros m; destruct m; unfold module_advances; simpl;
  repeat case_match; simpl; repeat split; intros; simplify_eq; try done; try set_solver.

(* ================================================================== *)
(** * Properties *)
(* ================================================================== *)

(** ** The predicate builders *)

Lemma startsWith_NUL_example : startsWith NUL (NUL +:+ "virtual") = true.
Proof. reflexivity. Qed.

(** C8. With a callback option, an id that starts with the sentinel '\0'
    is never external and always has side effects, and the callback is not
    called (the log of calls is empty).  For any other id the external
    predicate is true exactly when the callback returns a truthy value, and
    the side-effects predicate is false exactly when the callback returns
    false. *)
Theorem sentinel_ids_bypass_callbacks {T}
    (ext : string → T → cb_result) (mse : string → bool → cb_result)
    (pureExternalModules : id_option unit)
    (id : string) (args : T) (external : bool) :
  let isExternal := getIdMatcher (OptFun ext) in
  let hasModuleSideEffects := (getHasModuleSideEffects (MseFun mse) pureExternalModules).2 in
  (startsWith NUL id = true →
     isExternal id args = (false, []) ∧
     hasModuleSideEffects id external = (true, []))
  ∧
  (startsWith NUL id = false →
     (Traced.value (isExternal id args) = true ↔ truthy (ext id args) = true) ∧
     (Traced.value (hasModuleSideEffects id external) = false ↔ mse id external = CbFalse)).
Proof.
  simpl. split; intros Hid; rewrite Hid; simpl.
  - done.
  - split.
    + by rewrite orb_false_r.
    + by destruct (mse id external).
Qed.

Lemma sentinel_ids_bypass_callbacks_witness :
  (getIdMatcher (OptFun (λ _ (_ : unit), CbTrue)) (NUL +:+ "virtual") tt = (false, [])
   ∧ (getHasModuleSideEffects (MseFun (λ _ _, CbFalse)) (OptBool false)).2
       (NUL +:+ "virtual") true = (true, []))
  ∧ (Traced.value (getIdMatcher (OptFun (λ _ (_ : unit), CbNull)) "lodash" tt) = true
       ↔ truthy CbNull = true).
Proof.
  split.
  - apply (sentinel_ids_bypass_callbacks (λ _ (_ : unit), CbTrue) (λ _ _, CbFalse)
             (OptBool false) (NUL +:+ "virtual") tt true).
    reflexivity.
  - apply (sentinel_ids_bypass_callbacks (λ _ (_ : unit), CbNull) (λ _ _, CbFalse)
             (OptBool false) "lodash" tt true).
    reflexivity.
Defined.

(** C10. A truthy option that is a single value (not true, not a function,
    not an array) is a one-element list of ids: the predicate is true
    exactly when the queried id is that value, and no callback is called. *)
Theorem single_value_is_one_element_list {T} (option : id_option T) (v : set_elem)
    (id : string) (args : T) :
  single_value option v →
  option_truthy option = true →
  (Traced.value (getIdMatcher option id args) = true ↔ EStr id = v)
  ∧ Traced.calls (getIdMatcher option id args) = [].
Proof.
  intros Hsingle Htruthy.
  destruct Hsingle as [s|b]; unfold getIdMatcher, option_ids; rewrite Htruthy;
    unfold Set_has, Traced.value, Traced.calls, Traced.ret; simpl.
  - split; [|reflexivity]. split.
    + intros Hin%bool_decide_eq_true_1. by apply list_elem_of_singleton in Hin.
    + intros [= ->]. apply bool_decide_eq_true_2. by apply list_elem_of_singleton.
  - split; [|reflexivity]. split; discriminate.
Qed.

Lemma single_value_is_one_element_list_witness :
  (Traced.value (getIdMatcher (T:=unit) (OptString "lodash") "lodash" tt) = true
     ↔ EStr "lodash" = EStr "lodash")
  ∧ Traced.calls (getIdMatcher (T:=unit) (OptString "lodash") "lodash" tt) = [].
Proof.
  apply (single_value_is_one_element_list (OptString "lodash") (EStr "lodash") "lodash" tt).
  - constructor.
  - reflexivity.
Defined.

(** ** Resolution failures *)

(** C3. An import whose resolution yields nothing: fatal when the source is
    relative; otherwise a warning is recorded and the source itself comes
    back as an external ResolvedId. *)
Theorem unresolved_import_is_fatal_or_external
    (isRelative : string → bool) (hasModuleSideEffects : string → bool → bool)
    (source importer : string) (st : loader) :
  (isRelative source = true →
     handleMissingImports isRelative hasModuleSideEffects None source importer st
     = (Threw (errUnresolvedImport source importer), st))
  ∧
  (isRelative source = false →
     handleMissingImports isRelative hasModuleSideEffects None source importer st
     = (Returned {| rid_external := true;
                    rid_id := source;
                    rid_moduleSideEffects := hasModuleSideEffects source true |},
        warn (errUnresolvedImportTreatedAsExternal source importer) st)
     ∧ warnings (warn (errUnresolvedImportTreatedAsExternal source importer) st)
       = warnings st ++ [errUnresolvedImportTreatedAsExternal source importer]).
Proof.
  split; intros Hrel; unfold handleMissingImports; rewrite Hrel; run_M; done.
Qed.

Lemma unresolved_import_is_fatal_or_external_witness :
  let isRelative := λ s, startsWith "./" s || startsWith "../" s in
  handleMissingImports isRelative (λ _ _, true) None "./missing.js" "main.js" empty_loader
  = (Threw (errUnresolvedImport "./missing.js" "main.js"), empty_loader)
  ∧ eval (handleMissingImports isRelative (λ _ _, true) None "left-pad" "x.js") empty_loader
    = Returned (mkResolvedId true "left-pad" true).
Proof.
  split.
  - apply (unresolved_import_is_fatal_or_external
             (λ s, startsWith "./" s || startsWith "../" s) (λ _ _, true)
             "./missing.js" "main.js" empty_loader).
    reflexivity.
  - unfold eval.
    rewrite (proj1 (proj2 (unresolved_import_is_fatal_or_external
               (λ s, startsWith "./" s || startsWith "../" s) (λ _ _, true)
               "left-pad" "x.js" empty_loader) eq_refl)).
    reflexivity.
Defined.

(** C7. An entry specifier is resolved by the [resolveId] hook, called
    without an importer.  The answer [false] and an object flagged external
    are the fatal error "entry cannot be external"; no answer is the fatal
    error "unresolved entry"; a string id, bare or in an object, is fetched
    as a module with [moduleSideEffects] true. *)
Theorem entry_resolution
    (getManualChunk : string → option string)
    (unresolvedId : string) (isEntry : bool) (resolveIdResult : ResolveIdResult)
    (st : loader) :
  loadEntryModule unresolvedId isEntry st
    = (Returned tt, call_out (HookResolveId unresolvedId None) st)
  ∧ hookCalls (exec (loadEntryModule unresolvedId isEntry) st)
    = hookCalls st ++ [HookResolveId unresolvedId None]
  ∧ match resolveIdResult with
    | RidFalse | RidObject _ true _ =>
        loadEntryModule_resolved getManualChunk unresolvedId isEntry resolveIdResult st
        = (Threw (errEntryCannotBeExternal unresolvedId), st)
    | RidNullish =>
        loadEntryModule_resolved getManualChunk unresolvedId isEntry resolveIdResult st
        = (Threw (errUnresolvedEntry unresolvedId), st)
    | RidString id | RidObject id false _ =>
        loadEntryModule_resolved getManualChunk unresolvedId isEntry resolveIdResult st
        = fetchModule getManualChunk id None true isEntry st
    end.
Proof.
  split; [done|]. split; [done|].
  destruct resolveIdResult as [id| | |id [] mse]; reflexivity.
Qed.

(** ** Fetching a registered id *)

(** [fetchModule] on an id that is registered to a module: the promise is
    settled with that module and the heap keeps its size. *)
Lemma fetchModule_registered (getManualChunk : string → option string)
    (id : string) (importer : option string) (moduleSideEffects isEntry : bool)
    (st : loader) (r : ref) (m : Module) :
  modulesById st !! id = Some r →
  heap st !! r = Some (EModule m) →
  fetchModule getManualChunk id importer moduleSideEffects isEntry st
  = (Returned (Settled r),
     update_module r (set_isEntryPoint (m_isEntryPoint m || isEntry)) st).
Proof.
  intros Hreg Hheap. unfold fetchModule. unfold_M. by rewrite Hreg, Hheap.
Qed.

(** C2. When [id] is registered, [fetchModule] calls neither the [load]
    hook nor the transform stage: it throws when the entry is an
    ExternalModule; otherwise its promise is settled with the existing
    module, whose [isEntryPoint] is ORed with [isEntry], and nothing else
    changes. *)
Theorem fetch_registered_module
    (getManualChunk : string → option string)
    (id : string) (importer : option string) (moduleSideEffects isEntry : bool)
    (st : loader) (r : ref) (e : entity) :
  modulesById st !! id = Some r →
  heap st !! r = Some e →
  let result := eval (fetchModule getManualChunk id importer moduleSideEffects isEntry) st in
  let st' := exec (fetchModule getManualChunk id importer moduleSideEffects isEntry) st in
  hookCalls st' = hookCalls st
  ∧ modulesById st' = modulesById st
  ∧ manualChunkModules st' = manualChunkModules st
  ∧ indexedEntryModules st' = indexedEntryModules st
  ∧ warnings st' = warnings st
  ∧ match e with
    | EExternal _ =>
        result = Threw (CannotFetchExternalModule id) ∧ heap st' = heap st
    | EModule m =>
        result = Returned (Settled r)
        ∧ heap st' = <[r := EModule (set_isEntryPoint (m_isEntryPoint m || isEntry) m)]> (heap st)
    end.
Proof.
  intros Hreg Hheap. unfold fetchModule. run_M. rewrite Hreg, Hheap.
  destruct e as [m|x]; simpl.
  - repeat split; try done.
    apply list_eq. intros i. destruct (decide (i = r)) as [->|Hne].
    + rewrite list_lookup_alter_eq, Hheap. simpl.
      rewrite list_lookup_insert_eq; [done|]. by eapply lookup_lt_Some.
    + rewrite list_lookup_alter_ne by done. by rewrite list_lookup_insert_ne.
  - repeat split; done.
Qed.

Lemma fetch_registered_module_witness :
  let st := exec (fetchModule (λ _, None) "a.js" None true false) empty_loader in
  hookCalls (exec (fetchModule (λ _, None) "a.js" None true true) st) = [HookLoad "a.js"]
  ∧ eval (fetchModule (λ _, None) "a.js" None true true) st = Returned (Settled 0).
Proof.
  intros st.
  pose proof (fetch_registered_module (λ _, None) "a.js" None true true st 0
                (EModule (new_Module "a.js" true false))
                ltac:(vm_compute; reflexivity) ltac:(vm_compute; reflexivity)) as H.
  simpl in H. destruct H as (Hcalls & _ & _ & _ & _ & Hres & _).
  split; [exact Hcalls | exact Hres].
Defined.

(** ** Manual chunks *)

Lemma get_property_not_inherited {A} (obj : gmap string A) (key : string) :
  key ∉ Object_prototype_keys →
  get_property obj key = match obj !! key with Some a => Own a | None => Undefined end.
Proof.
  intros Hkey. unfold get_property. destruct (obj !! key); [done|].
  by rewrite bool_decide_eq_false_2.
Qed.

(** One assignment that does not conflict: no error, the module carries
    the alias, and it is appended to the list of the alias. *)
Lemma addModuleToManualChunk_ok (alias : string) (module : ref) (m : Module) (st : loader) :
  heap st !! module = Some (EModule m) →
  (m_manualChunkAlias m = None ∨ m_manualChunkAlias m = Some alias) →
  alias ∉ Object_prototype_keys →
  let st' := update_module module (set_manualChunkAlias (Some alias)) st in
  addModuleToManualChunk alias module st
  = (Returned tt,
     set_manualChunkModules
       (<[alias := default [] (manualChunkModules st !! alias) ++ [module]]>
          (manualChunkModules st)) st').
Proof.
  intros Hheap Halias Hkey. unfold addModuleToManualChunk. run_M. rewrite Hheap.
  destruct Halias as [-> | ->]; simpl; rewrite ?String.eqb_refl; simpl;
    rewrite get_property_not_inherited by done;
    by destruct (manualChunkModules st !! alias).
Qed.

(** An alias that names a property of [Object.prototype] is read as that
    property: nothing can be pushed. *)
Lemma addModuleToManualChunk_inherited_alias :
  let st := (alloc (EModule (new_Module "a.js" true false)) empty_loader).2 in
  eval (addModuleToManualChunk "toString" 0) st
  = Threw (TypeError "this.manualChunkModules[alias].push is not a function").
Proof. reflexivity. Qed.

(** The claim of C6 that a second assignment to the same alias leaves the
    module once in the list of the alias fails: both assignments return,
    and the module is then twice in the list. *)
Lemma manual_chunk_same_alias_twice_duplicates :
  let st := (alloc (EModule (new_Module "a.js" true false)) empty_loader).2 in
  let twice := addModuleToManualChunk "grp" 0;; addModuleToManualChunk "grp" 0 in
  eval twice st = Returned tt
  ∧ manualChunkModules (exec twice st) !! "grp" = Some [0; 0]
  ∧ (λ modules, length (filter (λ r, r = 0) modules))
      <$> manualChunkModules (exec twice st) !! "grp" = Some 2
  ∧ exec (addManualChunks_assign [("grp", ["a.js"; "./a.js"])] [0; 0]) st = exec twice st.
Proof. vm_compute. repeat split; reflexivity. Qed.

(** C6, amended.  Two assignments of one module, to [alias1] and then to
    [alias2]: a different second alias is the fatal conflict error; the
    same alias again raises no error and pushes the module again, so that
    the list of the alias holds it twice. *)
Theorem manual_chunk_assignments
    (alias1 alias2 : string) (module : ref) (m : Module) (st : loader) :
  heap st !! module = Some (EModule m) →
  (m_manualChunkAlias m = None ∨ m_manualChunkAlias m = Some alias1) →
  alias1 ∉ Object_prototype_keys →
  let st1 := exec (addModuleToManualChunk alias1 module) st in
  eval (addModuleToManualChunk alias1 module) st = Returned tt
  ∧ (alias2 ≠ alias1 →
       addModuleToManualChunk alias2 module st1
       = (Threw (errCannotAssignModuleToChunk (m_id m) alias2 alias1), st1))
  ∧ (alias2 = alias1 →
       eval (addModuleToManualChunk alias2 module) st1 = Returned tt
       ∧ manualChunkModules (exec (addModuleToManualChunk alias2 module) st1) !! alias1
         = Some (default [] (manualChunkModules st !! alias1) ++ [module; module])).
Proof.
  intros Hheap Halias Hkey st1.
  pose proof (addModuleToManualChunk_ok alias1 module m st Hheap Halias Hkey) as H1.
  simpl in H1.
  assert (heap st1 !! module = Some (EModule (set_manualChunkAlias (Some alias1) m))) as Hheap1.
  { subst st1. unfold exec. rewrite H1. simpl. by rewrite list_lookup_alter_eq, Hheap. }
  assert (manualChunkModules st1 !! alias1
          = Some (default [] (manualChunkModules st !! alias1) ++ [module])) as Hchunks1.
  { subst st1. unfold exec. rewrite H1. simpl. by rewrite lookup_insert_eq. }
  split; [by unfold eval; rewrite H1|]. split.
  - intros Hne. unfold addModuleToManualChunk. run_M. rewrite Hheap1. simpl.
    destruct (String.eqb_spec alias1 alias2) as [->|_]; done.
  - intros ->.
    pose proof (addModuleToManualChunk_ok alias1 module _ st1 Hheap1 (or_intror eq_refl) Hkey)
      as H2.
    simpl in H2. unfold eval, exec. rewrite H2. simpl. split; [done|].
    rewrite lookup_insert_eq, Hchunks1. simpl. by rewrite <- app_assoc.
Qed.

Lemma manual_chunk_assignments_witness :
  let st := (alloc (EModule (new_Module "a.js" true false)) empty_loader).2 in
  let st1 := exec (addModuleToManualChunk "grp" 0) st in
  addModuleToManualChunk "other" 0 st1
  = (Threw (errCannotAssignModuleToChunk "a.js" "other" "grp"), st1)
  ∧ manualChunkModules (exec (addModuleToManualChunk "grp" 0) st1) !! "grp" = Some [0; 0].
Proof.
  intros st st1.
  split.
  - apply (manual_chunk_assignments "grp" "other" 0 (new_Module "a.js" true false) st
             eq_refl (or_introl eq_refl) ltac:(apply (bool_decide_unpack _); vm_compute; exact I)).
    discriminate.
  - apply (manual_chunk_assignments "grp" "grp" 0 (new_Module "a.js" true false) st
             eq_refl (or_introl eq_refl) ltac:(apply (bool_decide_unpack _); vm_compute; exact I)).
    reflexivity.
Defined.

(** ** Failures of dependencies *)

Lemma Promise_all_Returned {A} (ps : list (outcome A)) :
  is_Returned (Promise.all ps) = true ↔ Forall (λ p, is_Returned p = true) ps.
Proof.
  induction ps as [|[a|e] ps IH]; simpl.
  - split; [constructor|done].
  - destruct (Promise.all ps); simpl in *.
    + split; [intros _; constructor; [done|by apply IH]|done].
    + split; [done|]. intros [_ H]%Forall_cons. by apply IH.
  - split; [done|]. by intros [H _]%Forall_cons.
Qed.

(** The claim of C4 that a failure in the dynamic-import batch is swallowed
    fails.  A module "main.js" with no static dependency and one dynamic
    import whose resolution is rejected: [fetchAllDependencies] is rejected
    with that error, and so is [fetchModule]. *)
Lemma dynamic_import_failure_fails_fetchModule :
  let e := errUnresolvedImport "./missing.js" "main.js" in
  let st := (alloc (EModule (new_Module "main.js" true true)) empty_loader).2 in
  let dynamicImports := [fetchDynamicImport (Threw e) (Returned 0)] in
  Forall (λ p : outcome ref, is_Returned p = true) []
  ∧ fetchAllDependencies dynamicImports [] = Threw e
  ∧ fetchModule_linked 0 (fetchAllDependencies dynamicImports []) st = (Threw e, st)
  ∧ is_Returned (eval (fetchModule_linked 0 (fetchAllDependencies dynamicImports [])) st)
    = false.
Proof. split; [constructor|]. vm_compute. repeat split; reflexivity. Qed.

(** C4, amended.  [fetchAllDependencies] is fulfilled exactly when every
    static dependency and every dynamic import is fulfilled: the handler
    attached with [catch] sits on a promise that is dropped, and the batch
    promise itself is what is returned.  A rejection, of a static
    dependency or of a dynamic import alike, fails [fetchModule] and leaves
    the state as it is. *)
Theorem dependency_failures_fail_fetchModule
    (dynamicImports : list (outcome unit)) (dependencies : list (outcome ref))
    (module : ref) (st : loader) :
  (is_Returned (fetchAllDependencies dynamicImports dependencies) = true
   ↔ Forall (λ p, is_Returned p = true) dependencies
     ∧ Forall (λ p, is_Returned p = true) dynamicImports)
  ∧ (∀ e, fetchAllDependencies dynamicImports dependencies = Threw e →
          fetchModule_linked module (fetchAllDependencies dynamicImports dependencies) st
          = (Threw e, st))
  ∧ (∀ e, Threw e ∈ dependencies →
          is_Returned (eval (fetchModule_linked module
                               (fetchAllDependencies dynamicImports dependencies)) st) = false)
  ∧ (∀ e, Threw e ∈ dynamicImports →
          is_Returned (eval (fetchModule_linked module
                               (fetchAllDependencies dynamicImports dependencies)) st) = false).
Proof.
  assert (is_Returned (fetchAllDependencies dynamicImports dependencies) = true
          ↔ Forall (λ p, is_Returned p = true) dependencies
            ∧ Forall (λ p, is_Returned p = true) dynamicImports) as Hiff.
  { unfold fetchAllDependencies, Promise.await.
    rewrite <- !Promise_all_Returned.
    destruct (Promise.all dependencies); simpl; [tauto|].
    split; [done|]. by intros [? _]. }
  assert (∀ e, fetchAllDependencies dynamicImports dependencies = Threw e →
          fetchModule_linked module (fetchAllDependencies dynamicImports dependencies) st
          = (Threw e, st)) as Hfail.
  { intros e ->. reflexivity. }
  assert (∀ e, Threw e ∈ dependencies ∨ Threw e ∈ dynamicImports →
          is_Returned (eval (fetchModule_linked module
                               (fetchAllDependencies dynamicImports dependencies)) st) = false)
    as Hany.
  { intros e He.
    destruct (fetchAllDependencies dynamicImports dependencies) as [l|e'] eqn:Hall.
    - exfalso. destruct (proj1 Hiff eq_refl) as [Hdeps Hdyn].
      destruct He as [He|He].
      + by apply (proj1 (Forall_forall _ _) Hdeps) in He.
      + by apply (proj1 (Forall_forall _ _) Hdyn) in He.
    - reflexivity. }
  repeat split; try apply Hiff; eauto.
Qed.

Lemma dependency_failures_fail_fetchModule_witness :
  let e := errUnresolvedImport "./missing.js" "main.js" in
  let st := (alloc (EModule (new_Module "main.js" true true)) empty_loader).2 in
  fetchModule_linked 0 (fetchAllDependencies [Threw e] [Returned 0]) st = (Threw e, st)
  ∧ is_Returned (eval (fetchModule_linked 0 (fetchAllDependencies [Threw e] [Returned 0])) st)
    = false.
Proof.
  intros e st. split.
  - apply (dependency_failures_fail_fetchModule [Threw e] [Returned 0] 0 st).
    reflexivity.
  - apply (dependency_failures_fail_fetchModule [Threw e] [Returned 0] 0 st) with e.
    apply list_elem_of_singleton. reflexivity.
Defined.

(** ** The re-export closure *)

Lemma has_key_true (name : string) (obj : list (string * string)) :
  has_key name obj = true ↔ name ∈ obj.*1.
Proof. unfold has_key. apply bool_decide_eq_true. Qed.

Lemma has_key_false (name : string) (obj : list (string * string)) :
  has_key name obj = false ↔ name ∉ obj.*1.
Proof. unfold has_key. apply bool_decide_eq_false. Qed.

(** An assignment to a key that the object does not have adds the key at
    the end. *)
Lemma set_key_fresh (name v : string) (obj : list (string * string)) :
  name ∉ obj.*1 → set_key name v obj = obj ++ [(name, v)].
Proof.
  induction obj as [|[k v'] obj IH]; simpl; [done|].
  intros Hnot. apply not_elem_of_cons in Hnot as [Hne Hnot].
  destruct (String.eqb_spec k name) as [->|_]; [done|].
  by rewrite IH.
Qed.

Lemma get_key_app_present (name : string) (obj1 obj2 : list (string * string)) :
  name ∈ obj1.*1 → get_key name (obj1 ++ obj2) = get_key name obj1.
Proof.
  induction obj1 as [|[k v] obj1 IH]; simpl.
  - by intros ?%elem_of_nil.
  - intros Hin. destruct (String.eqb_spec k name) as [->|Hne]; [done|].
    apply elem_of_cons in Hin as [->|Hin]; [done|]. by apply IH.
Qed.

Lemma with_exportsAll_heap_lookup (st : loader) (r : ref) (m : Module) ea ws e0 :
  heap st !! r = Some e0 →
  heap (with_exportsAll st r m ea ws) !! r = Some (EModule (set_exportsAll ea m)).
Proof. intros H. simpl. apply list_lookup_insert_eq. by eapply lookup_lt_Some. Qed.

Lemma with_exportsAll_heap_lookup_ne (st : loader) (r x : ref) (m : Module) ea ws :
  x ≠ r → heap (with_exportsAll st r m ea ws) !! x = heap st !! x.
Proof. intros H. simpl. by apply list_lookup_insert_ne. Qed.

Lemma with_exportsAll_id (st : loader) (r : ref) (m : Module) :
  heap st !! r = Some (EModule m) →
  with_exportsAll st r m (m_exportsAll m) [] = st.
Proof.
  intros H. unfold with_exportsAll. destruct st as [h ? ? ? ? ws ?]. simpl in *.
  rewrite app_nil_r. f_equal. apply list_insert_id. by destruct m.
Qed.

(** An assignment to [exportsAll] of the linked module. *)
Lemma with_exportsAll_update (st : loader) (r : ref) (m : Module) ea ws e0
    (g : Module → list (string * string)) :
  heap st !! r = Some e0 →
  update_module r (λ m', set_exportsAll (g m') m') (with_exportsAll st r m ea ws)
  = with_exportsAll st r m (g (set_exportsAll ea m)) ws.
Proof.
  intros H. unfold update_module, with_exportsAll, set_heap. simpl. f_equal.
  apply list_eq. intros i. destruct (decide (i = r)) as [->|Hne].
  - rewrite list_lookup_alter_eq.
    rewrite !list_lookup_insert_eq by (by eapply lookup_lt_Some). done.
  - rewrite list_lookup_alter_ne by done. by rewrite !list_lookup_insert_ne.
Qed.

Lemma with_exportsAll_warn (st : loader) (r : ref) (m : Module) ea ws w :
  warn w (with_exportsAll st r m ea ws) = with_exportsAll st r m ea (ws ++ [w]).
Proof. unfold warn, with_exportsAll. simpl. by rewrite app_assoc. Qed.

(** The loop over the module's own exports. *)
Lemma exportOwnName_loop (st : loader) (r : ref) (m : Module) e0 (names : list string) ea ws :
  heap st !! r = Some e0 →
  for_each (exportOwnName r) names (with_exportsAll st r m ea ws)
  = (Returned tt,
     with_exportsAll st r m
       (foldl (λ ea name, if String.eqb name "default" then ea
                          else set_key name (m_id m) ea) ea names) ws).
Proof.
  intros Hr. revert ea. induction names as [|name names IH]; intros ea; [done|].
  simpl. unfold mbind, M_bind. unfold exportOwnName at 1.
  destruct (String.eqb name "default") eqn:Hname; simpl.
  - unfold mret, M_ret. apply IH.
  - unfold modify.
    rewrite (with_exportsAll_update st r m ea ws e0
               (λ m', set_key name (m_id m') (m_exportsAll m')) Hr).
    apply IH.
Qed.

Lemma own_names_fold (moduleId : string) (names : list string) (ea : list (string * string)) :
  NoDup names →
  (∀ name, name ∈ names → name ∉ ea.*1) →
  foldl (λ ea name, if String.eqb name "default" then ea
                    else set_key name moduleId ea) ea names
  = ea ++ ((λ name, (name, moduleId)) <$> filter (λ name, name ≠ "default") names).
Proof.
  intros Hnodup. revert ea.
  induction Hnodup as [|name names Hnotin Hnodup IH]; intros ea Hfresh; simpl.
  - by rewrite app_nil_r.
  - destruct (String.eqb_spec name "default") as [->|Hne].
    + rewrite filter_cons_False by (by intros ?).
      apply IH. intros n Hn. apply Hfresh. by right.
    + rewrite filter_cons_True by done. simpl.
      rewrite set_key_fresh by (apply Hfresh; by left).
      rewrite IH.
      * by rewrite <- app_assoc.
      * intros n Hn. rewrite fmap_app. simpl. intros [Hin|Hin]%elem_of_app.
        -- by apply (Hfresh n); [right|].
        -- apply list_elem_of_singleton in Hin. by subst.
Qed.

Lemma for_each_cons_Returned {A} (body : A → M unit) (x : A) (xs : list A) (st st' : loader) :
  body x st = (Returned tt, st') →
  for_each body (x :: xs) st = for_each body xs st'.
Proof. intros H. simpl. unfold mbind, M_bind. by rewrite H. Qed.

(** One name of an export-all target [x]: it is there already ... *)
Lemma mergeExportedName_present (st : loader) (r x : ref) (m xm : Module) e0
    (name origin : string) ea ws :
  heap st !! r = Some e0 →
  heap (with_exportsAll st r m ea ws) !! x = Some (EModule xm) →
  has_key name ea = true →
  mergeExportedName r x (name, origin) (with_exportsAll st r m ea ws)
  = (Returned tt,
     with_exportsAll st r m ea (ws ++ [errNamespaceConflict name (m_id m) (m_id xm)])).
Proof.
  intros Hr Hx Hkey. unfold mergeExportedName. unfold mbind, M_bind, gets.
  rewrite (with_exportsAll_heap_lookup st r m ea ws e0 Hr), Hx. simpl.
  rewrite Hkey. unfold modify. by rewrite with_exportsAll_warn.
Qed.

(** ... or it is new. *)
Lemma mergeExportedName_absent (st : loader) (r x : ref) (m xm : Module) e0
    (name origin : string) ea ws :
  heap st !! r = Some e0 →
  heap (with_exportsAll st r m ea ws) !! x = Some (EModule xm) →
  has_key name ea = false →
  mergeExportedName r x (name, origin) (with_exportsAll st r m ea ws)
  = (Returned tt, with_exportsAll st r m (ea ++ [(name, origin)]) ws).
Proof.
  intros Hr Hx Hkey. unfold mergeExportedName. unfold mbind, M_bind, gets.
  rewrite (with_exportsAll_heap_lookup st r m ea ws e0 Hr), Hx. simpl.
  rewrite Hkey. unfold modify.
  rewrite (with_exportsAll_update st r m ea ws e0
             (λ m', set_key name origin (m_exportsAll m')) Hr).
  simpl. rewrite set_key_fresh by (by apply has_key_false). done.
Qed.

(** The loop over the names of an export-all target that is another
    module [x]. *)
Lemma mergeExportedName_loop (st : loader) (r x : ref) (m xm : Module) e0
    (target : list (string * string)) ea ws :
  heap st !! r = Some e0 →
  x ≠ r →
  heap st !! x = Some (EModule xm) →
  NoDup target.*1 →
  for_each (mergeExportedName r x) target (with_exportsAll st r m ea ws)
  = (Returned tt,
     with_exportsAll st r m
       (merge_names_spec (m_id m) (m_id xm) target ea).1
       (ws ++ (merge_names_spec (m_id m) (m_id xm) target ea).2)).
Proof.
  intros Hr Hne Hx. revert ea ws.
  induction target as [|[name origin] target IH]; intros ea ws Hnodup.
  { simpl. by rewrite !app_nil_r. }
  simpl in Hnodup. apply NoDup_cons in Hnodup as [Hnotin Hnodup].
  assert (∀ ea' ws', heap (with_exportsAll st r m ea' ws') !! x = Some (EModule xm)) as Hx'.
  { intros. by rewrite with_exportsAll_heap_lookup_ne. }
  destruct (has_key name ea) eqn:Hkey.
  - erewrite for_each_cons_Returned
      by (by eapply mergeExportedName_present).
    rewrite IH by done. unfold merge_names_spec. simpl.
    rewrite filter_cons_False by (simpl; congruence).
    rewrite (filter_cons_True (λ e, has_key e.1 ea = true)) by done.
    simpl. by rewrite <- app_assoc.
  - erewrite for_each_cons_Returned
      by (by eapply mergeExportedName_absent).
    apply has_key_false in Hkey.
    rewrite IH by done. unfold merge_names_spec. simpl.
    rewrite filter_cons_True by (simpl; by apply has_key_false).
    rewrite (filter_cons_False (λ e, has_key e.1 ea = true))
      by (simpl; intros ?%has_key_true; done).
    assert (∀ e, e ∈ target →
              has_key e.1 (ea ++ [(name, origin)]) = has_key e.1 ea) as Hsame.
    { intros e He. unfold has_key. apply bool_decide_ext.
      rewrite fmap_app, elem_of_app. simpl. rewrite list_elem_of_singleton.
      split; [|by left]. intros [?|Heq]; [done|].
      exfalso. apply Hnotin. rewrite <- Heq. by apply list_elem_of_fmap_2. }
    assert (∀ (b : bool),
              filter (λ e, has_key e.1 (ea ++ [(name, origin)]) = b) target
              = filter (λ e, has_key e.1 ea = b) target) as Hfilter.
    { intros b. clear IH Hnodup Hnotin. induction target as [|e target IHt]; [done|].
      rewrite !filter_cons. rewrite Hsame by (by left).
      rewrite IHt by (intros e' He'; apply Hsame; by right). done. }
    rewrite !Hfilter. by rewrite <- app_assoc.
Qed.

(** The loop over the names of the module itself, when it is its own
    export-all target: every name is there already. *)
Lemma mergeExportedName_loop_self (st : loader) (r : ref) (m : Module) e0
    (names ea : list (string * string)) ws :
  heap st !! r = Some e0 →
  (∀ e, e ∈ names → e.1 ∈ ea.*1) →
  for_each (mergeExportedName r r) names (with_exportsAll st r m ea ws)
  = (Returned tt,
     with_exportsAll st r m ea
       (ws ++ ((λ e, errNamespaceConflict e.1 (m_id m) (m_id m)) <$> names))).
Proof.
  intros Hr. revert ws.
  induction names as [|[name origin] names IH]; intros ws Hin.
  { simpl. by rewrite app_nil_r. }
  erewrite for_each_cons_Returned; cycle 1.
  { eapply mergeExportedName_present; [done| |].
    - by eapply with_exportsAll_heap_lookup.
    - apply has_key_true. apply (Hin (name, origin)). by left. }
  simpl m_id.
  rewrite IH by (intros e He; apply Hin; by right).
  simpl. by rewrite <- app_assoc.
Qed.

Lemma merge_names_spec_self (moduleId : string) (ea : list (string * string)) :
  merge_names_spec moduleId moduleId ea ea
  = (ea, (λ e, errNamespaceConflict e.1 moduleId moduleId) <$> ea).
Proof.
  unfold merge_names_spec.
  assert (∀ l : list (string * string), (∀ e, e ∈ l → e.1 ∈ ea.*1) →
            filter (λ e, has_key e.1 ea = false) l = []
            ∧ filter (λ e, has_key e.1 ea = true) l = l) as H.
  { induction l as [|e l IH]; intros Hin; [done|].
    assert (has_key e.1 ea = true) as He by (apply has_key_true, Hin; by left).
    destruct IH as [IH1 IH2]; [intros e' He'; apply Hin; by right|].
    rewrite filter_cons_False by (simpl; congruence).
    rewrite filter_cons_True by done. by rewrite IH1, IH2. }
  destruct (H ea) as [-> ->]; [intros e He; by apply list_elem_of_fmap_2|].
  by rewrite app_nil_r.
Qed.

(** One export-all source. *)
Lemma mergeExportAllSource_step (st : loader) (r : ref) (m : Module)
    (source : string) (t : export_all_target) ea ws :
  heap st !! r = Some (EModule m) →
  export_all_target_of st r m source = Some t →
  target_keys_distinct t →
  mergeExportAllSource r source (with_exportsAll st r m ea ws)
  = (Returned tt,
     with_exportsAll st r m
       (merge_target_spec (m_id m) (ea, ws) t).1
       (merge_target_spec (m_id m) (ea, ws) t).2).
Proof.
  intros Hr Ht Hkeys. unfold mergeExportAllSource. unfold mbind, M_bind, gets.
  rewrite (with_exportsAll_heap_lookup st r m ea ws _ Hr).
  change (m_resolvedIds (set_exportsAll ea m)) with (m_resolvedIds m).
  unfold export_all_target_of in Ht.
  destruct (m_resolvedIds m !! source) as [resolvedId|]; [|done]. simpl in Ht.
  change (modulesById (with_exportsAll st r m ea ws)) with (modulesById st).
  destruct (modulesById st !! rid_id resolvedId) as [x|]; [|done]. simpl in Ht.
  destruct (heap st !! x) as [e|] eqn:Hx; [|done]. simpl in Ht.
  destruct (decide (x = r)) as [->|Hne].
  - rewrite Hr in Hx. injection Hx as <-.
    rewrite (with_exportsAll_heap_lookup st r m ea ws _ Hr).
    injection Ht as <-.
    change (m_exportsAll (set_exportsAll ea m)) with ea.
    rewrite (mergeExportedName_loop_self st r m _ ea ea ws Hr)
      by (intros e He; by apply list_elem_of_fmap_2).
    unfold merge_target_spec. cbn [fst snd]. by rewrite merge_names_spec_self.
  - rewrite (with_exportsAll_heap_lookup_ne st r x m ea ws Hne), Hx.
    destruct e as [xm|xe].
    + injection Ht as <-.
      simpl in Hkeys.
      rewrite (mergeExportedName_loop st r x m xm _ (m_exportsAll xm) ea ws Hr Hne Hx Hkeys).
      done.
    + injection Ht as <-. done.
Qed.

(** The loop over the export-all sources. *)
Lemma mergeExportAllSource_loop (st : loader) (r : ref) (m : Module)
    (sources : list string) (targets : list export_all_target) ea ws :
  heap st !! r = Some (EModule m) →
  Forall2 (λ source t, export_all_target_of st r m source = Some t) sources targets →
  Forall target_keys_distinct targets →
  for_each (mergeExportAllSource r) sources (with_exportsAll st r m ea ws)
  = (Returned tt,
     with_exportsAll st r m
       (foldl (merge_target_spec (m_id m)) (ea, ws) targets).1
       (foldl (merge_target_spec (m_id m)) (ea, ws) targets).2).
Proof.
  intros Hr Hall. revert ea ws.
  induction Hall as [|source t sources targets Ht Hall IH]; intros ea ws Hkeys; [done|].
  apply Forall_cons in Hkeys as [Hkey Hkeys].
  erewrite for_each_cons_Returned by (by apply mergeExportAllSource_step).
  rewrite IH by done. simpl.
  by destruct (merge_target_spec (m_id m) (ea, ws) t).
Qed.

(** A mapping that is there stays through the merge of a target. *)
Lemma merge_target_spec_keeps (moduleId name v : string)
    (acc : list (string * string) * list warning) (t : export_all_target) :
  get_key name acc.1 = Some v →
  get_key name (merge_target_spec moduleId acc t).1 = Some v.
Proof.
  intros Hget.
  assert (name ∈ acc.1.*1) as Hin.
  { destruct acc as [ea ws]. simpl in *. clear ws t.
    induction ea as [|[k v'] ea IH]; simpl in *; [done|].
    destruct (String.eqb_spec k name) as [->|_]; [by left|]. right. by apply IH. }
  destruct t as [| |targetId target]; simpl; [done| |].
  - rewrite get_key_app_present; done.
  - rewrite get_key_app_present; done.
Qed.

Lemma get_key_own (moduleId name : string) (names : list string) :
  name ∈ names →
  get_key name ((λ n, (n, moduleId)) <$> names) = Some moduleId.
Proof.
  induction names as [|n names IH]; simpl.
  - by intros ?%elem_of_nil.
  - intros Hin. destruct (String.eqb_spec n name) as [->|Hne]; [done|].
    apply elem_of_cons in Hin as [->|Hin]; [done|]. by apply IH.
Qed.

(** C9. After the dependencies are fetched, [fetchModule] computes the
    re-export closure that the specification describes: every exported
    name but 'default' maps to the module's own id; then, source by source
    and in order, the names of an export-all target are merged in, a name
    already there keeping its mapping and giving exactly one
    namespace-conflict warning, a new name taking the target's mapping, and
    an ExternalModule contributing nothing. *)
Theorem reexport_closure {D} (st : loader) (r : ref) (m : Module) (d : D)
    (targets : list export_all_target) :
  heap st !! r = Some (EModule m) →
  m_exportsAll m = [] →
  NoDup (m_exports m) →
  Forall2 (λ source t, export_all_target_of st r m source = Some t)
          (m_exportAllSources m) targets →
  Forall target_keys_distinct targets →
  let closure := exportsAll_spec (m_id m) (m_exports m) targets in
  fetchModule_linked r (Returned d) st
  = (Returned r, with_exportsAll st r m closure.1 closure.2)
  ∧ (∀ name, name ∈ m_exports m → name ≠ "default" →
             get_key name closure.1 = Some (m_id m)).
Proof.
  intros Hr Hempty Hnodup Htargets Hkeys closure. split.
  - unfold fetchModule_linked. unfold mbind at 1, M_bind, gets. rewrite Hr.
    unfold mbind at 1, M_bind.
    rewrite <- (with_exportsAll_id st r m Hr) at 1.
    rewrite (exportOwnName_loop st r m _ _ _ _ Hr).
    rewrite own_names_fold; [|done|rewrite Hempty; intros ? _ ?%elem_of_nil; done].
    unfold mbind at 1, M_bind.
    rewrite (mergeExportAllSource_loop st r m _ targets _ _ Hr Htargets Hkeys).
    rewrite Hempty. done.
  - intros name Hin Hne. subst closure. unfold exportsAll_spec.
    assert (get_key name
              ((λ n, (n, m_id m)) <$> filter (λ n, n ≠ "default") (m_exports m))
            = Some (m_id m)) as Hown.
    { apply get_key_own. by apply list_elem_of_filter. }
    revert Hown.
    generalize ((λ n, (n, m_id m)) <$> filter (λ n, n ≠ "default") (m_exports m)).
    generalize (@nil warning).
    clear. induction targets as [|t targets IH]; intros ws ea Hget; [done|].
    simpl. pose proof (merge_target_spec_keeps (m_id m) name _ (ea, ws) t Hget) as Hkeep.
    destruct (merge_target_spec (m_id m) (ea, ws) t) as [ea' ws']. by apply IH.
Qed.

Lemma reexport_closure_witness :
  fetchModule_linked 0 (Returned tt) example_diamond
  = (Returned 0,
     with_exportsAll example_diamond 0 example_c
       [("c", "c.js"); ("x", "a.js"); ("y", "b.js")]
       [errNamespaceConflict "x" "c.js" "b.js"]).
Proof.
  pose proof (reexport_closure example_diamond 0 example_c tt
                [ TargetModule "a.js" [("x", "a.js")];
                  TargetModule "b.js" [("x", "b.js"); ("y", "b.js")];
                  TargetExternal ]) as H.
  destruct H as [H _].
  - reflexivity.
  - reflexivity.
  - apply (bool_decide_unpack _). vm_compute. exact I.
  - repeat constructor.
  - repeat constructor; apply (bool_decide_unpack _); vm_compute; exact I.
  - exact H.
Defined.

(** ** The registry *)

Lemma grows_refl (st : loader) : registry_consistent st → grows st st.
Proof. intros H. split; [done|]. split; [done|]. intros r e He. by exists e. Qed.

Lemma grows_trans (st1 st2 st3 : loader) : grows st1 st2 → grows st2 st3 → grows st1 st3.
Proof.
  intros (_ & Hreg12 & Hheap12) (Hc3 & Hreg23 & Hheap23).
  split; [done|]. split; [by auto|].
  intros r e He. destruct (Hheap12 r e He) as (e2 & He2 & Hid2 & Hk2).
  destruct (Hheap23 r e2 He2) as (e3 & He3 & Hid3 & Hk3).
  exists e3. split; [done|]. split; congruence.
Qed.

(** Fields other than the heap and the registry do not matter. *)
Lemma grows_same (st st' : loader) :
  heap st' = heap st → modulesById st' = modulesById st →
  registry_consistent st → grows st st'.
Proof.
  intros Hh Hm [Hc1 Hc2].
  split; [|split].
  - split; rewrite Hh, Hm; done.
  - by rewrite Hm.
  - rewrite Hh. intros r e He. by exists e.
Qed.

(** An assignment to a field of a module that is not its id. *)
Lemma grows_update_module (r : ref) (f : Module → Module) (st : loader) :
  (∀ m, m_id (f m) = m_id m) →
  registry_consistent st → grows st (update_module r f st).
Proof.
  intros Hf [Hc1 Hc2].
  assert (∀ e, entity_id (on_module f e) = entity_id e) as Hid.
  { intros [m|x]; simpl; [apply Hf|done]. }
  assert (∀ e, is_external (on_module f e) = is_external e) as Hkind.
  { by intros [m|x]. }
  assert (∀ r' e, heap st !! r' = Some e →
            ∃ e', heap (update_module r f st) !! r' = Some e'
                  ∧ entity_id e' = entity_id e ∧ is_external e' = is_external e) as Hheap.
  { intros r' e He. simpl. destruct (decide (r = r')) as [->|Hne].
    - exists (on_module f e). rewrite list_lookup_alter_eq, He. done.
    - exists e. by rewrite list_lookup_alter_ne. }
  assert (∀ r' e', heap (update_module r f st) !! r' = Some e' →
            ∃ e, heap st !! r' = Some e ∧ entity_id e' = entity_id e) as Hback.
  { intros r' e'. simpl. destruct (decide (r = r')) as [->|Hne].
    - rewrite list_lookup_alter_eq. destruct (heap st !! r') as [e|]; [|done].
      intros [= <-]. by exists e.
    - rewrite list_lookup_alter_ne by done. intros He. by exists e'. }
  split; [|split; [done|done]].
  split.
  - intros r' e' He'. destruct (Hback r' e' He') as (e & He & ->). simpl. by apply Hc1.
  - intros id r' Hreg. simpl in Hreg. destruct (Hc2 id r' Hreg) as (e & He & <-).
    destruct (Hheap r' e He) as (e' & He' & Hid' & _). by exists e'.
Qed.

(** A new entity, registered under an id that is free. *)
Lemma grows_register (e : entity) (st : loader) :
  modulesById st !! entity_id e = None →
  registry_consistent st →
  grows st (set_modulesById (<[entity_id e := length (heap st)]> (modulesById st))
              (set_heap (heap st ++ [e]) st)).
Proof.
  intros Hfree [Hc1 Hc2]. split; [|split]; simpl.
  - split; simpl.
    + intros r e' He'. apply lookup_app_Some in He' as [He'|[Hlen He']].
      * pose proof (Hc1 r e' He') as Hreg.
        rewrite lookup_insert_ne; [done|]. intros Heq. rewrite Heq in Hfree. congruence.
      * apply list_lookup_singleton_Some in He' as [Hr <-].
        assert (r = length (heap st)) as -> by lia. by rewrite lookup_insert_eq.
    + intros id r Hreg. destruct (decide (entity_id e = id)) as [<-|Hne].
      * rewrite lookup_insert_eq in Hreg. injection Hreg as <-.
        exists e. split; [|done]. rewrite lookup_app_r by done.
        by rewrite Nat.sub_diag.
      * rewrite lookup_insert_ne in Hreg by done.
        destruct (Hc2 id r Hreg) as (e' & He' & Hid). exists e'. split; [|done].
        by apply lookup_app_l_Some.
  - intros id r Hreg. rewrite lookup_insert_ne; [done|].
    intros Heq. rewrite Heq in Hfree. congruence.
  - intros r e' He'. exists e'. split; [|done]. by apply lookup_app_l_Some.
Qed.

(** A module is registered again under its own id. *)
Lemma grows_register_again (module : ref) (e : entity) (st : loader) :
  heap st !! module = Some e →
  registry_consistent st →
  grows st (set_modulesById (<[entity_id e := module]> (modulesById st)) st).
Proof.
  intros He Hc. pose proof Hc as [Hc1 Hc2].
  rewrite insert_id by (by apply Hc1).
  apply grows_same; done.
Qed.

Lemma preserves_ret {A} (a : A) : preserves (mret a).
Proof. intros st Hc. by apply grows_refl. Qed.

Lemma preserves_throw {A} (e : error) : preserves (throw (A:=A) e).
Proof. intros st Hc. by apply grows_refl. Qed.

Lemma preserves_gets {A} (f : loader → A) : preserves (gets f).
Proof. intros st Hc. by apply grows_refl. Qed.

Lemma preserves_modify (f : loader → loader) :
  (∀ st, registry_consistent st → grows st (f st)) → preserves (modify f).
Proof. intros Hf st Hc. by apply Hf. Qed.

Lemma preserves_bind {A B} (m : M A) (k : A → M B) :
  preserves m → (∀ a, preserves (k a)) → preserves (m ≫= k).
Proof.
  intros Hm Hk st Hc. unfold mbind, M_bind.
  specialize (Hm st Hc). destruct (m st) as [[a|e] st1]; simpl in *; [|done].
  eapply grows_trans; [done|]. apply Hk. by destruct Hm.
Qed.

Lemma preserves_for_each {A} (body : A → M unit) (xs : list A) :
  (∀ x, preserves (body x)) → preserves (for_each body xs).
Proof.
  intros Hbody. induction xs as [|x xs IH]; simpl.
  - apply preserves_ret.
  - apply preserves_bind; [done|]. by intros _.
Qed.

Lemma preserves_update_module (r : ref) (f : Module → Module) :
  (∀ m, m_id (f m) = m_id m) → preserves (modify (update_module r f)).
Proof. intros Hf. apply preserves_modify. intros st Hc. by apply grows_update_module. Qed.

Lemma preserves_warn (w : warning) : preserves (modify (warn w)).
Proof. apply preserves_modify. intros st Hc. by apply grows_same. Qed.

Lemma preserves_call_out (c : hook_call) : preserves (modify (call_out c)).
Proof. apply preserves_modify. intros st Hc. by apply grows_same. Qed.

Lemma preserves_addModuleToManualChunk (alias : string) (module : ref) :
  preserves (addModuleToManualChunk alias module).
Proof.
  unfold addModuleToManualChunk.
  apply preserves_bind; [apply preserves_gets|]. intros [[m|x]|]; try apply preserves_throw.
  apply preserves_bind.
  { destruct (m_manualChunkAlias m) as [current|]; [|apply preserves_ret].
    destruct (negb _); [apply preserves_throw|apply preserves_ret]. }
  intros _. apply preserves_bind; [apply preserves_update_module; preserves_field|].
  intros _. apply preserves_bind; [apply preserves_gets|]. intros chunks.
  destruct (get_property chunks alias); try apply preserves_throw;
    apply preserves_modify; intros st Hc; by apply grows_same.
Qed.

(** [fetchModule] on an id that is not registered: the module is created and
    registered, then the manual chunk is assigned and the hook is called. *)
Lemma fetchModule_new (getManualChunk : string → option string)
    (id : string) (importer : option string) (moduleSideEffects isEntry : bool)
    (st : loader) :
  modulesById st !! id = None →
  fetchModule getManualChunk id importer moduleSideEffects isEntry st
  = ((match getManualChunk id with
      | Some manualChunkAlias => addModuleToManualChunk manualChunkAlias (length (heap st))
      | None => mret tt
      end;;
      modify (call_out (HookLoad id));;
      mret (AwaitingLoad (length (heap st))))
       (set_modulesById (<[id := length (heap st)]> (modulesById st))
          (set_heap (heap st ++ [EModule (new_Module id moduleSideEffects isEntry)]) st))).
Proof. intros Hreg. unfold fetchModule, mbind at 1, M_bind at 1, gets. by rewrite Hreg. Qed.

Lemma preserves_fetchModule (getManualChunk : string → option string)
    (id : string) (importer : option string) (moduleSideEffects isEntry : bool) :
  preserves (fetchModule getManualChunk id importer moduleSideEffects isEntry).
Proof.
  intros st Hc.
  destruct (modulesById st !! id) as [r|] eqn:Hreg.
  - unfold fetchModule. unfold mbind at 1, M_bind at 1, gets. rewrite Hreg.
    unfold mbind at 1, M_bind at 1.
    destruct (heap st !! r) as [[m|x]|] eqn:He; simpl; try (by apply grows_refl).
    apply grows_update_module; [preserves_field|done].
  - rewrite fetchModule_new by done.
    pose proof (grows_register (EModule (new_Module id moduleSideEffects isEntry)) st Hreg Hc)
      as Hgrows.
    simpl in Hgrows.
    eapply grows_trans; [exact Hgrows|].
    match goal with |- grows ?st1 (?m ?st1).2 => assert (preserves m) as Hm end.
    { apply preserves_bind.
      - destruct (getManualChunk id); [apply preserves_addModuleToManualChunk|apply preserves_ret].
      - intros _. apply preserves_bind; [apply preserves_call_out|].
        intros _. apply preserves_ret. }
    apply Hm. by destruct Hgrows.
Qed.

Lemma preserves_fetchModule_loaded (cachedModules : gmap string CachedModule)
    (module : ref) (id : string) (importer : option string) (source : LoadResult) :
  preserves (fetchModule_loaded cachedModules module id importer source).
Proof.
  unfold fetchModule_loaded.
  apply preserves_bind.
  { destruct source; first [apply preserves_ret | apply preserves_throw]. }
  intros [code mse].
  assert (preserves
            (match mse with
             | Some b => modify (update_module module (set_moduleSideEffects b))
             | None => mret tt
             end;; modify (call_out (CallTransform id code));; mret AwaitingTransform))
    as Htransform.
  { apply preserves_bind.
    - destruct mse; [apply preserves_update_module; preserves_field|apply preserves_ret].
    - intros _. apply preserves_bind; [apply preserves_call_out|].
      intros _. apply preserves_ret. }
  destruct (cachedModules !! id) as [cachedModule|]; [|done].
  destruct (_ && _); [|done].
  apply preserves_bind.
  - destruct (c_transformFiles cachedModule); [|apply preserves_ret].
    apply preserves_for_each. intros f. apply preserves_call_out.
  - intros _. apply preserves_ret.
Qed.

(** The end of the external branch of [fetchResolvedDependency]. *)
Lemma preserves_external_lookup (source importer : string) (resolvedId : ResolvedId) :
  preserves
    (externalModule ← gets (λ st, r ← modulesById st !! rid_id resolvedId;
                                  e ← heap st !! r; mret (r, e));
     match externalModule with
     | Some (r, EExternal _) => mret (Settled r)
     | _ => throw (errInternalIdCannotBeExternal source importer)
     end).
Proof.
  apply preserves_bind; [apply preserves_gets|].
  intros [[r [m|x]]|]; first [apply preserves_ret | apply preserves_throw].
Qed.

Lemma fetchResolvedDependency_new (getManualChunk : string → option string)
    (source importer : string) (resolvedId : ResolvedId) (st : loader) :
  rid_external resolvedId = true →
  modulesById st !! rid_id resolvedId = None →
  fetchResolvedDependency getManualChunk source importer resolvedId st
  = ((externalModule ← gets (λ st, r ← modulesById st !! rid_id resolvedId;
                                   e ← heap st !! r; mret (r, e));
      match externalModule with
      | Some (r, EExternal _) => mret (Settled r)
      | _ => throw (errInternalIdCannotBeExternal source importer)
      end)
       (set_modulesById (<[rid_id resolvedId := length (heap st)]> (modulesById st))
          (set_heap (heap st ++ [EExternal (new_ExternalModule (rid_id resolvedId)
                                              (rid_moduleSideEffects resolvedId))]) st))).
Proof.
  intros Hext Hreg. unfold fetchResolvedDependency. rewrite Hext.
  unfold mbind at 1, M_bind at 1, gets at 1. rewrite Hreg. reflexivity.
Qed.

Lemma fetchResolvedDependency_known (getManualChunk : string → option string)
    (source importer : string) (resolvedId : ResolvedId) (st : loader) (r : ref) :
  rid_external resolvedId = true →
  modulesById st !! rid_id resolvedId = Some r →
  fetchResolvedDependency getManualChunk source importer resolvedId st
  = ((externalModule ← gets (λ st, r ← modulesById st !! rid_id resolvedId;
                                   e ← heap st !! r; mret (r, e));
      match externalModule with
      | Some (r, EExternal _) => mret (Settled r)
      | _ => throw (errInternalIdCannotBeExternal source importer)
      end) st).
Proof.
  intros Hext Hreg. unfold fetchResolvedDependency. rewrite Hext.
  unfold mbind at 1, M_bind at 1, gets at 1. rewrite Hreg. reflexivity.
Qed.

Lemma preserves_fetchResolvedDependency (getManualChunk : string → option string)
    (source importer : string) (resolvedId : ResolvedId) :
  preserves (fetchResolvedDependency getManualChunk source importer resolvedId).
Proof.
  destruct (rid_external resolvedId) eqn:Hext.
  - intros st Hc. destruct (modulesById st !! rid_id resolvedId) as [r|] eqn:Hreg.
    + erewrite fetchResolvedDependency_known by done.
      by apply preserves_external_lookup.
    + rewrite fetchResolvedDependency_new by done.
      pose proof (grows_register (EExternal (new_ExternalModule (rid_id resolvedId)
                                               (rid_moduleSideEffects resolvedId))) st Hreg Hc)
        as Hgrows.
      simpl in Hgrows.
      eapply grows_trans; [exact Hgrows|].
      apply preserves_external_lookup. by destruct Hgrows.
  - unfold fetchResolvedDependency. rewrite Hext. apply preserves_fetchModule.
Qed.

Lemma preserves_handleMissingImports (isRelative : string → bool)
    (hasModuleSideEffects : string → bool → bool)
    (resolvedId : option ResolvedId) (source importer : string) :
  preserves (handleMissingImports isRelative hasModuleSideEffects resolvedId source importer).
Proof.
  unfold handleMissingImports. destruct resolvedId; [apply preserves_ret|].
  apply preserves_bind.
  - destruct (isRelative source); [apply preserves_throw|apply preserves_ret].
  - intros _. apply preserves_bind; [apply preserves_warn|]. intros _. apply preserves_ret.
Qed.

Lemma preserves_loadEntryModule (unresolvedId : string) (isEntry : bool) :
  preserves (loadEntryModule unresolvedId isEntry).
Proof. apply preserves_call_out. Qed.

Lemma preserves_loadEntryModule_resolved (getManualChunk : string → option string)
    (unresolvedId : string) (isEntry : bool) (r : ResolveIdResult) :
  preserves (loadEntryModule_resolved getManualChunk unresolvedId isEntry r).
Proof.
  destruct r as [id| | |id [] mse]; simpl;
    first [apply preserves_throw | apply preserves_fetchModule].
Qed.

Lemma preserves_resolveAndFetchDependency_resolved
    (isRelative : string → bool) (hasModuleSideEffects : string → bool → bool)
    (getManualChunk : string → option string)
    (module : ref) (source : string) (resolved : option ResolvedId) :
  preserves (resolveAndFetchDependency_resolved isRelative hasModuleSideEffects
               getManualChunk module source resolved).
Proof.
  unfold resolveAndFetchDependency_resolved.
  apply preserves_bind; [apply preserves_gets|]. intros [[m|x]|]; try apply preserves_throw.
  apply preserves_bind; [apply preserves_handleMissingImports|]. intros resolvedId.
  apply preserves_bind; [apply preserves_update_module; preserves_field|].
  intros _. apply preserves_fetchResolvedDependency.
Qed.

Lemma preserves_fetchModule_linked {D} (module : ref) (deps : outcome D) :
  preserves (fetchModule_linked module deps).
Proof.
  unfold fetchModule_linked. destruct deps as [d|e]; [|apply preserves_throw].
  apply preserves_bind; [apply preserves_gets|]. intros [[m|x]|]; try apply preserves_throw.
  apply preserves_bind.
  { apply preserves_for_each. intros name. unfold exportOwnName.
    destruct (negb _); [apply preserves_update_module; preserves_field|apply preserves_ret]. }
  intros _. apply preserves_bind; [|intros _; apply preserves_ret].
  apply preserves_for_each. intros source. unfold mergeExportAllSource.
  apply preserves_bind; [apply preserves_gets|]. intros [[m'|x']|]; try apply preserves_throw.
  destruct (m_resolvedIds m' !! source) as [resolvedId|]; [|apply preserves_throw].
  apply preserves_bind; [apply preserves_gets|]. intros [x|]; [|apply preserves_throw].
  apply preserves_bind; [apply preserves_gets|].
  intros [[xm|xe]|]; first [apply preserves_ret | apply preserves_throw | idtac].
  apply preserves_for_each. intros [name origin]. unfold mergeExportedName.
  apply preserves_bind; [apply preserves_gets|]. intros e.
  apply preserves_bind; [apply preserves_gets|]. intros e'.
  destruct e as [[m1|x1]|]; try apply preserves_throw.
  destruct e' as [[m2|x2]|]; try apply preserves_throw.
  destruct (has_key _ _); [apply preserves_warn|].
  apply preserves_update_module. preserves_field.
Qed.

Lemma preserves_mergeEntryModules (isUserDefined : bool) (entryModules : list ref)
    (moduleIndex : nat) :
  preserves (mergeEntryModules isUserDefined entryModules moduleIndex).
Proof.
  revert moduleIndex. induction entryModules as [|entryModule rest IH]; intros moduleIndex.
  - apply preserves_ret.
  - simpl. apply preserves_bind; [apply preserves_update_module; preserves_field|].
    intros _. apply preserves_bind; [|intros _; apply IH].
    apply preserves_modify. intros st Hc. by apply grows_same.
Qed.

Lemma preserves_addEntryModules (us : list UnresolvedModule) : preserves (addEntryModules us).
Proof.
  unfold addEntryModules.
  apply preserves_bind; [apply preserves_gets|]. intros first.
  apply preserves_bind; [apply preserves_modify; intros st Hc; by apply grows_same|].
  intros _. apply preserves_bind; [|intros _; apply preserves_ret].
  apply preserves_for_each. intros u. apply preserves_loadEntryModule.
Qed.

Lemma preserves_addEntryModules_hints (u : UnresolvedModule) (isUserDefined : bool)
    (module : ref) :
  preserves (addEntryModules_hints u isUserDefined module).
Proof.
  unfold addEntryModules_hints.
  apply preserves_bind; [|intros _; apply preserves_ret].
  destruct (um_fileName u) as [fileName|].
  - apply preserves_update_module. preserves_field.
  - destruct (um_name u) as [name|]; [|apply preserves_ret].
    apply preserves_bind; [apply preserves_update_module; preserves_field|].
    intros _. destruct isUserDefined; [|apply preserves_ret].
    apply preserves_update_module. preserves_field.
Qed.

Lemma preserves_addEntryModules_merge (first : nat) (isUserDefined : bool)
    (entryModules : list ref) :
  preserves (addEntryModules_merge first isUserDefined entryModules).
Proof.
  unfold addEntryModules_merge.
  apply preserves_bind; [apply preserves_mergeEntryModules|].
  intros _. apply preserves_bind; [|intros _; apply preserves_ret].
  apply preserves_modify. intros st Hc. by apply grows_same.
Qed.

Lemma preserves_addManualChunks (manualChunks : list (string * list string)) :
  preserves (addManualChunks manualChunks).
Proof. apply preserves_for_each. intros u. apply preserves_loadEntryModule. Qed.

Lemma preserves_addManualChunks_assign (manualChunks : list (string * list string))
    (modules : list ref) :
  preserves (addManualChunks_assign manualChunks modules).
Proof. apply preserves_for_each. intros am. apply preserves_addModuleToManualChunk. Qed.

(** The second [this.modulesById.set(id, module)] of [fetchModule]: the
    module is registered under its id already. *)
Lemma preserves_fetchModule_transformed (module : ref) (source : outcome ModuleSource) :
  preserves (with_module module (λ m, fetchModule_transformed module (m_id m) source)).
Proof.
  intros st Hc. unfold with_module. unfold mbind at 1, M_bind at 1, gets.
  destruct (heap st !! module) as [[m|x]|] eqn:He; try (by apply grows_refl).
  unfold fetchModule_transformed. destruct source as [source|e]; [|by apply grows_refl].
  unfold mbind, M_bind, modify. simpl snd.
  pose proof (grows_update_module module (setSource source) st
                ltac:(preserves_field) Hc) as Hgrows.
  eapply grows_trans; [exact Hgrows|].
  destruct Hgrows as (Hc' & _ & Hheap).
  destruct (Hheap module _ He) as (e' & He' & Hid & _).
  simpl in Hid. rewrite <- Hid.
  exact (grows_register_again module e' _ He' Hc').
Qed.

(** Every segment of a build keeps the registry invariant. *)
Lemma preserves_step (isRelative : string → bool)
    (hasModuleSideEffects : string → bool → bool)
    (getManualChunk : string → option string)
    (cachedModules : gmap string CachedModule) (o : op) :
  preserves (step isRelative hasModuleSideEffects getManualChunk cachedModules o).
Proof.
  destruct o; simpl;
    try (apply preserves_bind; [|intros _; apply preserves_ret]).
  - apply preserves_addEntryModules.
  - apply preserves_loadEntryModule_resolved.
  - apply preserves_addEntryModules_hints.
  - apply preserves_addEntryModules_merge.
  - apply preserves_addManualChunks.
  - apply preserves_addManualChunks_assign.
  - apply preserves_fetchModule.
  - unfold with_module. apply preserves_bind; [apply preserves_gets|].
    intros [[m|x]|]; try apply preserves_ret.
    apply preserves_bind; [apply preserves_fetchModule_loaded|intros _; apply preserves_ret].
  - apply preserves_fetchModule_transformed.
  - apply preserves_fetchModule_linked.
  - apply preserves_resolveAndFetchDependency_resolved.
  - apply preserves_fetchResolvedDependency.
Qed.

Lemma grows_run (isRelative : string → bool)
    (hasModuleSideEffects : string → bool → bool)
    (getManualChunk : string → option string)
    (cachedModules : gmap string CachedModule) (ops : list op) (st : loader) :
  registry_consistent st →
  grows st (run isRelative hasModuleSideEffects getManualChunk cachedModules ops st).
Proof.
  revert st. induction ops as [|o ops IH]; intros st Hc; simpl.
  - by apply grows_refl.
  - pose proof (preserves_step isRelative hasModuleSideEffects getManualChunk
                  cachedModules o st Hc) as Hstep.
    eapply grows_trans; [exact Hstep|]. apply IH. by destruct Hstep.
Qed.

Lemma empty_loader_consistent : registry_consistent empty_loader.
Proof. split; [intros r e H|intros id r H]; simpl in H; by rewrite ?lookup_empty in H. Qed.

(** C1. Along any build the registry holds at most one entity per id: two
    entities of the heap with the same id are the same object, and every
    registry entry is an entity with that id.  A module that [fetchModule]
    creates is registered in the same segment, before the [load] hook is
    awaited; whatever runs afterwards, a later fetch of the id settles with
    that module and creates nothing. *)
Theorem registry_one_entity_per_id
    (isRelative : string → bool) (hasModuleSideEffects : string → bool → bool)
    (getManualChunk : string → option string) (cachedModules : gmap string CachedModule)
    (ops : list op) (st0 : loader) :
  registry_consistent st0 →
  let build := run isRelative hasModuleSideEffects getManualChunk cachedModules in
  let st := build ops st0 in
  (∀ r1 r2 e1 e2, heap st !! r1 = Some e1 → heap st !! r2 = Some e2 →
                  entity_id e1 = entity_id e2 → r1 = r2)
  ∧ (∀ id r, modulesById st !! id = Some r → ∃ e, heap st !! r = Some e ∧ entity_id e = id)
  ∧ (∀ id importer moduleSideEffects isEntry,
       modulesById st !! id = None →
       let created := length (heap st) in
       let st1 := exec (fetchModule getManualChunk id importer moduleSideEffects isEntry) st in
       modulesById st1 !! id = Some created
       ∧ (∃ m, heap st1 !! created = Some (EModule m) ∧ m_id m = id)
       ∧ ∀ ops' importer' moduleSideEffects' isEntry',
           let st2 := build ops' st1 in
           let again := fetchModule getManualChunk id importer' moduleSideEffects' isEntry' in
           eval again st2 = Returned (Settled created)
           ∧ length (heap (exec again st2)) = length (heap st2)
           ∧ modulesById (exec again st2) = modulesById st2
           ∧ hookCalls (exec again st2) = hookCalls st2).
Proof.
  intros Hc0 build st.
  pose proof (grows_run isRelative hasModuleSideEffects getManualChunk cachedModules
                ops st0 Hc0) as (Hc & _ & _).
  fold (build ops st0) in Hc. fold st in Hc.
  split; [|split].
  - intros r1 r2 e1 e2 H1 H2 Hid. destruct Hc as [Hc1 _].
    pose proof (Hc1 r1 e1 H1) as Hreg1. pose proof (Hc1 r2 e2 H2) as Hreg2.
    rewrite Hid in Hreg1. congruence.
  - by destruct Hc.
  - intros id importer mse isEntry Hfree created st1.
    pose proof (preserves_fetchModule getManualChunk id importer mse isEntry st Hc) as Hgrow1.
    fold (exec (fetchModule getManualChunk id importer mse isEntry) st) in Hgrow1.
    fold st1 in Hgrow1.
    assert (modulesById st1 !! id = Some created
            ∧ ∃ m, heap st1 !! created = Some (EModule m) ∧ m_id m = id) as [Hreg1 Hheap1].
    { subst st1. unfold exec. rewrite fetchModule_new by done.
      pose proof (grows_register (EModule (new_Module id mse isEntry)) st Hfree Hc) as Hg.
      simpl in Hg.
      match goal with |- context [(?m ?sta).2] =>
        assert (grows sta (m sta).2) as (Hc' & Hreg' & Hheap')
      end.
      { apply (preserves_bind _ _); [| |by destruct Hg].
        - destruct (getManualChunk id);
            [apply preserves_addModuleToManualChunk|apply preserves_ret].
        - intros _. apply preserves_bind; [apply preserves_call_out|].
          intros _. apply preserves_ret. }
      split.
      - apply Hreg'. simpl. by rewrite lookup_insert_eq.
      - destruct (Hheap' created (EModule (new_Module id mse isEntry))) as (e' & He' & Hid & Hk).
        { simpl. rewrite lookup_app_r by done. by rewrite Nat.sub_diag. }
        destruct e' as [m|x]; [|done]. by exists m. }
    split; [done|]. split; [done|].
    intros ops' importer' mse' isEntry' st2 again.
    destruct Hgrow1 as (Hc1 & _ & _).
    pose proof (grows_run isRelative hasModuleSideEffects getManualChunk cachedModules
                  ops' st1 Hc1) as (Hc2 & Hreg2 & Hheap2).
    fold (build ops' st1) in Hc2, Hreg2, Hheap2. fold st2 in Hc2, Hreg2, Hheap2.
    destruct Hheap1 as (m & Hm & Hid).
    destruct (Hheap2 created _ Hm) as (e2 & He2 & Hid2 & Hk2).
    destruct e2 as [m2|x2]; [|done].
    pose proof (fetchModule_registered getManualChunk id importer' mse' isEntry' st2 created
                  m2 (Hreg2 _ _ Hreg1) He2) as H.
    subst again. unfold eval, exec. rewrite H. simpl.
    split; [done|]. split; [|done]. apply length_alter.
Qed.

Lemma registry_one_entity_per_id_witness :
  let build := run (λ _, false) (λ _ _, true) (λ _, None) ∅ in
  let st1 := exec (fetchModule (λ _, None) "a.js" None true true) (build [] empty_loader) in
  let st2 := build [OpFetchResolvedDependency "./a.js" "b.js" (mkResolvedId false "a.js" true);
                    OpFetchModuleTransformed 0 (Returned (mkModuleSource [] [] []))] st1 in
  eval (fetchModule (λ _, None) "a.js" (Some "c.js") false false) st2 = Returned (Settled 0)
  ∧ length (heap (exec (fetchModule (λ _, None) "a.js" (Some "c.js") false false) st2))
    = length (heap st2).
Proof.
  intros build st1 st2.
  pose proof (registry_one_entity_per_id (λ _, false) (λ _ _, true) (λ _, None) ∅
                [] empty_loader empty_loader_consistent) as (_ & _ & H).
  destruct (H "a.js" None true true eq_refl) as (_ & _ & Hagain).
  destruct (Hagain [OpFetchResolvedDependency "./a.js" "b.js" (mkResolvedId false "a.js" true);
                    OpFetchModuleTransformed 0 (Returned (mkModuleSource [] [] []))]
                   (Some "c.js") false false) as (Heval & Hlen & _).
  split; [exact Heval | exact Hlen].
Defined.

(** ** The entry index *)

Section EntryIndex.

Variable ids : ref → option string.

(** What one round of the loop does to the list: a new entry at the end,
    or the minimum on the entry of the module. *)
Lemma mergeEntryModule_cases (m : ref) (j : nat) (l : list (nat * ref)) :
  (Forall (λ x, ids x.2 ≠ ids m) l ∧ mergeEntryModule ids m j l = l ++ [(j, m)])
  ∨ (∃ l1 i0 r0 l2,
       l = l1 ++ (i0, r0) :: l2 ∧ ids r0 = ids m
       ∧ mergeEntryModule ids m j l = l1 ++ (i0 `min` j, r0) :: l2).
Proof.
  unfold mergeEntryModule.
  destruct (list_find _ l) as [[pos [i0 r0]]|] eqn:Hfind.
  - right. apply list_find_Some in Hfind as (Hpos & Hid & _). simpl in Hid.
    exists (take pos l), i0, r0, (drop (S pos) l). split; [|split; [done|]].
    + by rewrite take_drop_middle.
    + simpl. apply insert_take_drop. by eapply lookup_lt_Some.
  - left. apply list_find_None in Hfind. done.
Qed.

Lemma entry_index_nil : entry_index ids [] [].
Proof.
  split; [constructor|]. split.
  - by intros i r ?%elem_of_nil.
  - by intros j r ?%elem_of_nil.
Qed.

Lemma one_module_per_id_app_l (reqs reqs' : list (nat * ref)) :
  one_module_per_id ids (reqs ++ reqs') → one_module_per_id ids reqs.
Proof.
  intros H i r j r' Hi Hj. apply (H i r j r'); apply elem_of_app; by left.
Qed.

(** One more request. *)
Lemma entry_index_merge (reqs l : list (nat * ref)) (m : ref) (j : nat) :
  one_module_per_id ids (reqs ++ [(j, m)]) →
  entry_index ids reqs l →
  entry_index ids (reqs ++ [(j, m)]) (mergeEntryModule ids m j l).
Proof.
  intros Hinj (Hnodup & Hmin & Hall).
  destruct (mergeEntryModule_cases m j l)
    as [[Hnone ->]|(l1 & i0 & r0 & l2 & -> & Hid0 & ->)].
  - rewrite Forall_forall in Hnone. split; [|split].
    + rewrite fmap_app, fmap_app. simpl. apply NoDup_app. split; [done|].
      split; [|apply NoDup_singleton].
      intros k Hk Hk'. apply list_elem_of_singleton in Hk'. subst k.
      apply list_elem_of_fmap in Hk as (r & Hr & Hin).
      apply list_elem_of_fmap in Hin as ([i r'] & -> & Hin). simpl in Hr.
      apply (Hnone _ Hin). done.
    + intros i r [Hin|Hin%list_elem_of_singleton]%elem_of_app.
      * destruct (Hmin i r Hin) as [Hreq Hleast]. split; [apply elem_of_app; by left|].
        intros j' r' [Hin'|Hin'%list_elem_of_singleton]%elem_of_app Hid.
        -- by apply (Hleast j' r').
        -- injection Hin' as -> ->. exfalso. by apply (Hnone _ Hin).
      * injection Hin as -> ->. split; [apply elem_of_app; right; by left|].
        intros j' r' [Hin'|Hin'%list_elem_of_singleton]%elem_of_app Hid.
        -- exfalso. destruct (Hall j' r' Hin') as (i & r & Hin & Hid').
           apply (Hnone _ Hin). simpl. congruence.
        -- by injection Hin' as -> ->.
    + intros j' r' [Hin'|Hin'%list_elem_of_singleton]%elem_of_app.
      * destruct (Hall j' r' Hin') as (i & r & Hin & Hid).
        exists i, r. split; [apply elem_of_app; by left|done].
      * injection Hin' as -> ->. exists j, m. split; [|done].
        apply elem_of_app. right. by left.
  - assert ((i0, r0) ∈ l1 ++ (i0, r0) :: l2) as Hin0.
    { apply elem_of_app. right. by left. }
    destruct (Hmin i0 r0 Hin0) as [Hreq0 Hleast0].
    assert (r0 = m) as ->.
    { apply (Hinj i0 r0 j m); [apply elem_of_app; by left| |done].
      apply elem_of_app. right. by left. }
    split; [|split].
    + by rewrite !fmap_app, !fmap_cons in *.
    + intros i r Hin.
      assert ((i = i0 `min` j ∧ r = m) ∨ ((i, r) ∈ l1 ++ (i0, m) :: l2 ∧ ids r ≠ ids m))
        as [[-> ->]|[Hin' Hne]].
      { apply elem_of_app in Hin as [Hin|Hin].
        - right. split; [apply elem_of_app; by left|].
          rewrite !fmap_app, !fmap_cons in Hnodup. simpl in Hnodup.
          apply NoDup_app in Hnodup as (_ & Hdisj & _).
          intros Heq. apply (Hdisj (ids r)).
          + apply list_elem_of_fmap. exists r. split; [done|].
            apply list_elem_of_fmap. by exists (i, r).
          + rewrite Heq. by left.
        - apply elem_of_cons in Hin as [Hin|Hin].
          + left. by injection Hin as -> ->.
          + right. split; [apply elem_of_app; right; by right|].
            rewrite !fmap_app, !fmap_cons in Hnodup. simpl in Hnodup.
            apply NoDup_app in Hnodup as (_ & _ & Hnodup).
            apply NoDup_cons in Hnodup as [Hnotin _].
            intros Heq. apply Hnotin. rewrite <- Heq.
            apply list_elem_of_fmap. exists r. split; [done|].
            apply list_elem_of_fmap. by exists (i, r). }
      * split.
        -- destruct (Nat.min_spec i0 j) as [[_ ->]|[_ ->]].
           ++ apply elem_of_app. by left.
           ++ apply elem_of_app. right. by left.
        -- intros j' r' [Hin'|Hin'%list_elem_of_singleton]%elem_of_app Hid.
           ++ pose proof (Hleast0 j' r' Hin' Hid). lia.
           ++ injection Hin' as -> ->. lia.
      * destruct (Hmin i r Hin') as [Hreq Hleast]. split; [apply elem_of_app; by left|].
        intros j' r' [Hin''|Hin''%list_elem_of_singleton]%elem_of_app Hid.
        -- by apply (Hleast j' r').
        -- injection Hin'' as -> ->. done.
    + intros j' r' Hin'.
      assert (∃ i r, (i, r) ∈ l1 ++ (i0, m) :: l2 ∧ ids r = ids r') as (i & r & Hin & Hid).
      { apply elem_of_app in Hin' as [Hin'|Hin'%list_elem_of_singleton].
        - by apply (Hall j' r').
        - injection Hin' as -> ->. by exists i0, m. }
      apply elem_of_app in Hin as [Hin|Hin].
      * exists i, r. split; [apply elem_of_app; by left|done].
      * apply elem_of_cons in Hin as [Hin|Hin].
        -- injection Hin as -> ->. exists (i0 `min` j), m.
           split; [apply elem_of_app; right; by left|done].
        -- exists i, r. split; [apply elem_of_app; right; by right|done].
Qed.

(** The requests of a whole call. *)
Lemma entry_index_merge_requests (reqs l batch : list (nat * ref)) :
  one_module_per_id ids (reqs ++ batch) →
  entry_index ids reqs l →
  entry_index ids (reqs ++ batch) (merge_requests ids l batch).
Proof.
  revert reqs l. induction batch as [|[j m] batch IH]; intros reqs l Hinj Hindex.
  - by rewrite app_nil_r.
  - simpl. rewrite (assoc_L (++) reqs [(j, m)] batch : reqs ++ (j, m) :: batch = _).
    rewrite (assoc_L (++) reqs [(j, m)] batch : reqs ++ (j, m) :: batch = _) in Hinj.
    apply IH; [done|]. apply entry_index_merge; [|done].
    by eapply one_module_per_id_app_l.
Qed.

(** Neither the order of the list nor the order of the requests matters
    to [entry_index]. *)
Lemma entry_index_Permutation (reqs reqs' l l' : list (nat * ref)) :
  reqs ≡ₚ reqs' → l ≡ₚ l' → entry_index ids reqs l → entry_index ids reqs' l'.
Proof.
  intros Hreqs Hl (Hnodup & Hmin & Hall). split; [|split].
  - by rewrite <- Hl.
  - intros i r Hin. rewrite <- Hl in Hin. destruct (Hmin i r Hin) as [Hreq Hleast].
    split; [by rewrite <- Hreqs|].
    intros j r' Hin'. rewrite <- Hreqs in Hin'. by apply Hleast.
  - intros j r' Hin'. rewrite <- Hreqs in Hin'.
    destruct (Hall j r' Hin') as (i & r & Hin & Hid). exists i, r. by rewrite <- Hl.
Qed.

(** The indices of the entries are distinct when those of the requests
    are. *)
Lemma entry_index_NoDup (reqs l : list (nat * ref)) :
  NoDup reqs.*1 → entry_index ids reqs l → NoDup l.*1.
Proof.
  intros Hreqs (Hnodup & Hmin & _).
  assert (∀ i r r', (i, r) ∈ reqs → (i, r') ∈ reqs → r = r') as Hfun.
  { clear -Hreqs. induction reqs as [|[j m] reqs IH]; intros i r r' H1 H2.
    - by apply elem_of_nil in H1.
    - simpl in Hreqs. apply NoDup_cons in Hreqs as [Hnotin Hreqs].
      apply elem_of_cons in H1 as [H1|H1]; apply elem_of_cons in H2 as [H2|H2].
      + congruence.
      + injection H1 as -> ->. exfalso. apply Hnotin.
        apply list_elem_of_fmap. by exists (j, r').
      + injection H2 as -> ->. exfalso. apply Hnotin.
        apply list_elem_of_fmap. by exists (j, r).
      + by apply (IH Hreqs i). }
  induction l as [|[i r] l IH]; [constructor|].
  simpl in *. apply NoDup_cons in Hnodup as [Hnotin Hnodup].
  apply NoDup_cons. split.
  - intros Hin. apply list_elem_of_fmap in Hin as ([i' r'] & Hi & Hin). simpl in Hi. subst i'.
    assert (r = r') as <-.
    { apply (Hfun i); [apply Hmin; by left|apply Hmin; by right]. }
    apply Hnotin. apply list_elem_of_fmap. exists r. split; [done|].
    apply list_elem_of_fmap. by exists (i, r).
  - apply IH; [done|]. intros i' r' Hin. apply Hmin. by right.
Qed.

(** The entry index of given requests is one list, once it is sorted. *)
Lemma entry_index_unique (reqs l1 l2 : list (nat * ref)) :
  NoDup reqs.*1 →
  one_module_per_id ids reqs →
  entry_index ids reqs l1 → entry_index ids reqs l2 →
  Sorted (λ a b : nat * ref, (a.1 < b.1)%nat) l1 →
  Sorted (λ a b : nat * ref, (a.1 < b.1)%nat) l2 →
  l1 = l2.
Proof.
  intros Hreqs Hinj H1 H2 Hs1 Hs2.
  assert (∀ la lb, entry_index ids reqs la → entry_index ids reqs lb →
            ∀ x, x ∈ la → x ∈ lb) as Hsub.
  { intros la lb (_ & Hmina & _) (_ & Hminb & Hallb) [i r] Hin.
    destruct (Hmina i r Hin) as [Hreq Hleast].
    destruct (Hallb i r Hreq) as (i' & r' & Hin' & Hid).
    destruct (Hminb i' r' Hin') as [Hreq' Hleast'].
    assert (r' = r) as -> by (by apply (Hinj i' r' i r)).
    assert (i = i') as <-.
    { pose proof (Hleast i' r Hreq' eq_refl). pose proof (Hleast' i r Hreq eq_refl). lia. }
    done. }
  assert (Transitive (λ a b : nat * ref, (a.1 < b.1)%nat)) as Htrans.
  { intros a b c. lia. }
  apply (Sorted_unique_strong (λ a b : nat * ref, (a.1 < b.1)%nat)); [|done|done|].
  - intros x1 x2 _ _. lia.
  - apply NoDup_Permutation.
    + eapply NoDup_fmap_1. by eapply entry_index_NoDup.
    + eapply NoDup_fmap_1. by eapply entry_index_NoDup.
    + intros x. split; by apply Hsub.
Qed.

End EntryIndex.

(** ** The sort of the entry index *)

Lemma sort_insert_Permutation (x : nat * ref) (l : list (nat * ref)) :
  sort_insert x l ≡ₚ x :: l.
Proof.
  induction l as [|y l IH]; simpl; [done|].
  case_bool_decide; [|done]. rewrite IH. apply Permutation_swap.
Qed.

Lemma Array_sort_Permutation (l : list (nat * ref)) : Array_sort l ≡ₚ l.
Proof.
  induction l as [|x l IH]; simpl; [done|].
  by rewrite sort_insert_Permutation, IH.
Qed.

Lemma compareIndex_positive (x y : nat * ref) : (0 < compareIndex x y)%Z ↔ y.1 < x.1.
Proof. unfold compareIndex. case_bool_decide; split; (done || lia). Qed.

Lemma sort_insert_Sorted (x : nat * ref) (l : list (nat * ref)) :
  Sorted (λ a b : nat * ref, (a.1 ≤ b.1)%nat) l →
  Sorted (λ a b : nat * ref, (a.1 ≤ b.1)%nat) (sort_insert x l).
Proof.
  induction l as [|y l IH]; intros Hsorted; simpl.
  - repeat constructor.
  - apply Sorted_inv in Hsorted as [Hsorted Hhd].
    case_bool_decide as Hcmp.
    + apply compareIndex_positive in Hcmp. constructor; [by apply IH|].
      destruct l as [|z l]; simpl.
      * constructor. lia.
      * case_bool_decide; constructor; [by inv Hhd|lia].
    + rewrite compareIndex_positive in Hcmp. constructor; [by constructor|].
      constructor. lia.
Qed.

Lemma Array_sort_Sorted (l : list (nat * ref)) :
  Sorted (λ a b : nat * ref, (a.1 ≤ b.1)%nat) (Array_sort l).
Proof.
  induction l as [|x l IH]; simpl; [constructor|]. by apply sort_insert_Sorted.
Qed.

(** With distinct indices the sorted list is strictly increasing. *)
Lemma Sorted_le_NoDup_lt (l : list (nat * ref)) :
  NoDup l.*1 →
  Sorted (λ a b : nat * ref, (a.1 ≤ b.1)%nat) l →
  Sorted (λ a b : nat * ref, (a.1 < b.1)%nat) l.
Proof.
  induction l as [|x l IH]; intros Hnodup Hsorted; [constructor|].
  simpl in Hnodup. apply NoDup_cons in Hnodup as [Hnotin Hnodup].
  apply Sorted_inv in Hsorted as [Hsorted Hhd].
  constructor; [by apply IH|].
  destruct Hhd as [|y l Hle]; constructor.
  assert (x.1 ≠ y.1); [|lia].
  intros Heq. apply Hnotin. rewrite Heq. by left.
Qed.

(** ** The merges of [addEntryModules] on the loader *)

Lemma module_id_update_module (r : ref) (f : Module → Module) (st : loader) (r' : ref) :
  (∀ m, m_id (f m) = m_id m) →
  module_id (update_module r f st) r' = module_id st r'.
Proof.
  intros Hf. unfold module_id, update_module. simpl.
  destruct (decide (r = r')) as [->|Hne].
  - rewrite list_lookup_alter_eq. destruct (heap st !! r') as [[m|x]|]; simpl; [|done|done].
    by rewrite Hf.
  - by rewrite list_lookup_alter_ne.
Qed.

Lemma mergeEntryModule_ext (ids ids' : ref → option string) (m : ref) (j : nat)
    (l : list (nat * ref)) :
  (∀ r, ids r = ids' r) → mergeEntryModule ids m j l = mergeEntryModule ids' m j l.
Proof.
  intros Hext. unfold mergeEntryModule.
  rewrite (list_find_ext (λ x, ids x.2 = ids m) (λ x, ids' x.2 = ids' m)); [done|].
  intros x. by rewrite !Hext.
Qed.

Lemma merge_requests_ext (ids ids' : ref → option string) (l reqs : list (nat * ref)) :
  (∀ r, ids r = ids' r) → merge_requests ids l reqs = merge_requests ids' l reqs.
Proof.
  intros Hext. revert l. induction reqs as [|req reqs IH]; intros l; [done|].
  simpl. rewrite (mergeEntryModule_ext ids ids') by done. apply IH.
Qed.

(** The loop of [addEntryModules] builds [merge_requests]; the ids of the
    modules stay as they are. *)
Lemma mergeEntryModules_indexed (isUserDefined : bool) (entryModules : list ref)
    (moduleIndex : nat) (st : loader) :
  let st' := exec (mergeEntryModules isUserDefined entryModules moduleIndex) st in
  eval (mergeEntryModules isUserDefined entryModules moduleIndex) st = Returned tt
  ∧ indexedEntryModules st'
    = merge_requests (module_id st) (indexedEntryModules st)
        (batch_requests moduleIndex entryModules)
  ∧ (∀ r, module_id st' r = module_id st r).
Proof.
  revert moduleIndex st.
  induction entryModules as [|entryModule rest IH]; intros moduleIndex st; [done|].
  simpl. unfold exec, eval. simpl. unfold mbind, M_bind, modify. simpl.
  set (st1 := update_module entryModule _ st).
  assert (∀ r, module_id st1 r = module_id st r) as Hids.
  { intros r. apply module_id_update_module. preserves_field. }
  set (st2 := set_indexedEntryModules _ st1).
  assert (∀ r, module_id st2 r = module_id st r) as Hids2.
  { intros r. by rewrite <- Hids. }
  destruct (IH (S moduleIndex) st2) as (Heval & Hlist & Hids').
  unfold exec, eval in Heval, Hlist, Hids'.
  destruct (mergeEntryModules isUserDefined rest (S moduleIndex) st2) as [[[]|e] st3];
    simpl in *; [|done].
  split; [done|]. split.
  - rewrite Hlist. unfold batch_requests. simpl.
    rewrite (merge_requests_ext (module_id st2) (module_id st)) by done.
    unfold merge_requests. simpl.
    by rewrite (mergeEntryModule_ext (module_id st1) (module_id st)).
  - intros r. by rewrite Hids'.
Qed.

Lemma addEntryModules_merge_indexed (first : nat) (isUserDefined : bool)
    (entryModules : list ref) (st : loader) :
  let st' := exec (addEntryModules_merge first isUserDefined entryModules) st in
  eval (addEntryModules_merge first isUserDefined entryModules) st = Returned entryModules
  ∧ indexedEntryModules st'
    = merge_call (module_id st) (indexedEntryModules st) (first, isUserDefined, entryModules)
  ∧ (∀ r, module_id st' r = module_id st r).
Proof.
  destruct (mergeEntryModules_indexed isUserDefined entryModules first st)
    as (Heval & Hlist & Hids).
  unfold addEntryModules_merge, exec, eval in *. unfold mbind, M_bind.
  destruct (mergeEntryModules isUserDefined entryModules first st) as [[[]|e] st1];
    simpl in *; [|done].
  split; [done|]. split; [|done].
  unfold merge_call. simpl. by rewrite Hlist.
Qed.

Lemma merge_calls_indexed (calls : list (nat * bool * list ref)) (st : loader) :
  let st' := exec (merge_calls calls) st in
  eval (merge_calls calls) st = Returned tt
  ∧ indexedEntryModules st'
    = foldl (merge_call (module_id st)) (indexedEntryModules st) calls
  ∧ (∀ r, module_id st' r = module_id st r).
Proof.
  revert st. induction calls as [|[[first isUserDefined] entryModules] calls IH]; intros st;
    [done|].
  destruct (addEntryModules_merge_indexed first isUserDefined entryModules st)
    as (Heval & Hlist & Hids).
  set (st1 := exec (addEntryModules_merge first isUserDefined entryModules) st) in *.
  assert ((addEntryModules_merge first isUserDefined entryModules;; mret tt) st
          = (Returned tt, st1)) as Hstep.
  { unfold mbind, M_bind. subst st1. unfold exec, eval in *.
    by destruct (addEntryModules_merge first isUserDefined entryModules st) as [[ms|e] st1']. }
  destruct (IH st1) as (Heval' & Hlist' & Hids').
  unfold merge_calls, exec, eval in *.
  rewrite (for_each_cons_Returned _ (first, isUserDefined, entryModules) calls st st1 Hstep).
  split; [done|]. split.
  - rewrite Hlist', Hlist. clear -Hids. simpl.
    generalize (merge_call (module_id st) (indexedEntryModules st)
                  (first, isUserDefined, entryModules)).
    induction calls as [|c calls IHc]; intros l; [done|]. simpl.
    unfold merge_call at 2 4.
    rewrite (merge_requests_ext (module_id st1) (module_id st)) by done.
    apply IHc.
  - intros r. by rewrite Hids'.
Qed.

(** The merges of any calls leave the entry index of their requests,
    sorted. *)
Lemma merge_call_entry_index (ids : ref → option string)
    (calls : list (nat * bool * list ref)) (reqs l : list (nat * ref)) :
  one_module_per_id ids (reqs ++ calls_requests calls) →
  entry_index ids reqs l →
  entry_index ids (reqs ++ calls_requests calls) (foldl (merge_call ids) l calls).
Proof.
  revert reqs l. induction calls as [|c calls IH]; intros reqs l Hinj Hindex.
  - unfold calls_requests. simpl. by rewrite app_nil_r.
  - unfold calls_requests in *. rewrite bind_cons in *. rewrite (assoc_L (++)) in *.
    simpl. apply IH; [done|].
    eapply entry_index_Permutation; [done|symmetry; apply Array_sort_Permutation|].
    apply entry_index_merge_requests; [|done].
    by eapply one_module_per_id_app_l.
Qed.

Lemma merge_call_Sorted (ids : ref → option string)
    (calls : list (nat * bool * list ref)) (l : list (nat * ref)) :
  Sorted (λ a b : nat * ref, (a.1 ≤ b.1)%nat) l →
  Sorted (λ a b : nat * ref, (a.1 ≤ b.1)%nat) (foldl (merge_call ids) l calls).
Proof.
  revert l. induction calls as [|c calls IH]; intros l Hsorted; [done|].
  simpl. apply IH. apply Array_sort_Sorted.
Qed.

Lemma calls_requests_Permutation (calls calls' : list (nat * bool * list ref)) :
  calls ≡ₚ calls' → calls_requests calls ≡ₚ calls_requests calls'.
Proof. intros H. unfold calls_requests. by rewrite H. Qed.

Lemma one_module_per_id_Permutation (ids : ref → option string) (reqs reqs' : list (nat * ref)) :
  reqs ≡ₚ reqs' → one_module_per_id ids reqs → one_module_per_id ids reqs'.
Proof.
  intros Hperm H i r j r' Hi Hj. rewrite <- Hperm in Hi, Hj. by apply (H i r j r').
Qed.

(** [one_module_per_id] can be checked by going through the requests. *)
Lemma one_module_per_id_Forall (ids : ref → option string) (reqs : list (nat * ref)) :
  Forall (λ x, Forall (λ y : nat * ref, ids x.2 = ids y.2 → x.2 = y.2) reqs) reqs →
  one_module_per_id ids reqs.
Proof.
  intros H i r j r' Hi Hj Hid. rewrite Forall_forall in H.
  pose proof (H _ Hi) as H'. rewrite Forall_forall in H'. by apply (H' _ Hj).
Qed.

(** The calls of the hook in [addEntryModules] leave the counter alone. *)
Lemma loadEntryModule_loop {A} (f : A → string) (isEntry : bool) (xs : list A) (st : loader) :
  eval (for_each (λ x, loadEntryModule (f x) isEntry) xs) st = Returned tt
  ∧ nextEntryModuleIndex (exec (for_each (λ x, loadEntryModule (f x) isEntry) xs) st)
    = nextEntryModuleIndex st.
Proof.
  revert st. induction xs as [|x xs IH]; intros st; [done|].
  unfold exec, eval in *.
  rewrite (for_each_cons_Returned _ x xs st (call_out (HookResolveId (f x) None) st)) by done.
  apply (IH (call_out (HookResolveId (f x) None) st)).
Qed.

Lemma addEntryModules_counter (us : list UnresolvedModule) (st : loader) :
  eval (addEntryModules us) st = Returned (nextEntryModuleIndex st)
  ∧ nextEntryModuleIndex (exec (addEntryModules us) st) = nextEntryModuleIndex st + length us.
Proof.
  unfold addEntryModules, exec, eval. unfold mbind at 1 2 4 5, M_bind, gets, modify.
  set (st1 := set_nextEntryModuleIndex _ st).
  destruct (loadEntryModule_loop um_id true us st1) as [Heval Hnext].
  unfold exec, eval in Heval, Hnext. unfold mbind, M_bind.
  destruct (for_each _ us st1) as [[[]|e] st2]; simpl in *; done.
Qed.

(** The indices that the counter hands out are consecutive. *)
Lemma batch_requests_indices (first : nat) (entryModules : list ref) :
  (batch_requests first entryModules).*1 = seq first (length entryModules).
Proof. unfold batch_requests. apply fst_zip. by rewrite length_seq. Qed.

Lemma number_calls_indices (next : nat) (batches : list (bool * list ref)) :
  (calls_requests (number_calls next batches)).*1
  = seq next (sum_list (length <$> batches.*2)).
Proof.
  revert next. induction batches as [|[isUserDefined entryModules] batches IH]; intros next;
    [done|].
  cbn [number_calls]. unfold calls_requests in *. rewrite bind_cons, fmap_app.
  cbn [fst snd]. rewrite batch_requests_indices, IH.
  rewrite fmap_cons. cbn [snd fmap list_fmap sum_list sum_list_with]. by rewrite seq_app.
Qed.

Lemma number_calls_NoDup (next : nat) (batches : list (bool * list ref)) :
  NoDup (calls_requests (number_calls next batches)).*1.
Proof. rewrite number_calls_indices. apply NoDup_seq. Qed.

Lemma NoDup_submseteq_l {A} (l k : list A) : l ⊆+ k → NoDup k → NoDup l.
Proof.
  intros [k' Hk]%submseteq_Permutation Hnodup. rewrite Hk in Hnodup.
  by apply NoDup_app in Hnodup as (? & _).
Qed.

(** C5. Each call of [addEntryModules] takes its indices from the one
    counter: it starts at the counter and moves it on by the number of its
    specifiers, so that the next call starts behind it.  Of the calls so
    numbered, those whose modules all arrive are merged, in the order in
    which they complete.  Whatever that order, the entry index ends up the
    same list: one entry per module, with the least index at which the
    module was ever requested, sorted by index; [entryModules] is that
    list. *)
Theorem entry_modules_sorted_by_minimum_index
    (batches : list (bool * list ref)) (completed completed' : list (nat * bool * list ref))
    (newEntryModules : list ref) (st : loader) :
  let calls := number_calls (nextEntryModuleIndex st) batches in
  indexedEntryModules st = [] →
  completed ⊆+ calls →
  completed' ≡ₚ completed →
  one_module_per_id (module_id st) (calls_requests completed) →
  let final := indexedEntryModules (exec (merge_calls completed) st) in
  (∀ st0 us us',
     eval (addEntryModules us) st0 = Returned (nextEntryModuleIndex st0)
     ∧ eval (addEntryModules us') (exec (addEntryModules us) st0)
       = Returned (nextEntryModuleIndex st0 + length us))
  ∧ eval (merge_calls completed) st = Returned tt
  ∧ entry_index (module_id st) (calls_requests completed) final
  ∧ Sorted (λ a b : nat * ref, (a.1 < b.1)%nat) final
  ∧ final = indexedEntryModules (exec (merge_calls completed') st)
  ∧ eval (addEntryModules_result newEntryModules) (exec (merge_calls completed) st)
    = Returned {| entryModules := final.*2;
                  manualChunkModulesByAlias :=
                    manualChunkModules (exec (merge_calls completed) st);
                  newEntryModules := newEntryModules |}.
Proof.
  intros calls Hempty Hsub Hperm Hinj final.
  assert (NoDup (calls_requests completed).*1) as Hnodup.
  { apply (NoDup_submseteq_l _ (calls_requests calls).*1).
    - unfold calls_requests. by rewrite Hsub.
    - apply number_calls_NoDup. }
  assert (∀ cs, cs ≡ₚ completed →
            entry_index (module_id st) (calls_requests completed)
              (indexedEntryModules (exec (merge_calls cs) st))
            ∧ Sorted (λ a b : nat * ref, (a.1 < b.1)%nat)
                (indexedEntryModules (exec (merge_calls cs) st))) as Hfinal.
  { intros cs Hcs.
    destruct (merge_calls_indexed cs st) as (_ & -> & _). rewrite Hempty.
    assert (entry_index (module_id st) (calls_requests completed)
              (foldl (merge_call (module_id st)) [] cs)) as Hindex.
    { eapply entry_index_Permutation;
        [by apply calls_requests_Permutation|reflexivity|].
      apply (merge_call_entry_index (module_id st) cs [] []).
      - simpl. eapply one_module_per_id_Permutation; [|done].
        symmetry. by apply calls_requests_Permutation.
      - apply entry_index_nil. }
    split; [done|].
    apply Sorted_le_NoDup_lt.
    - by eapply entry_index_NoDup.
    - apply merge_call_Sorted. constructor. }
  destruct (Hfinal completed) as [Hindex Hsorted]; [done|].
  destruct (Hfinal completed') as [Hindex' Hsorted']; [done|].
  split; [|split; [|split; [|split; [|split]]]].
  - intros st0 us us'. destruct (addEntryModules_counter us st0) as [Heval Hnext].
    split; [done|].
    destruct (addEntryModules_counter us' (exec (addEntryModules us) st0)) as [-> _].
    by rewrite Hnext.
  - by destruct (merge_calls_indexed completed st) as (? & _).
  - done.
  - done.
  - by apply (entry_index_unique (module_id st) (calls_requests completed)).
  - reflexivity.
Qed.

Lemma entry_modules_sorted_by_minimum_index_witness :
  let st := {| heap := [ EModule (new_Module "a.js" true true);
                         EModule (new_Module "b.js" true true);
                         EModule (new_Module "c.js" true true) ];
               modulesById := list_to_map [("a.js", 0); ("b.js", 1); ("c.js", 2)];
               indexedEntryModules := [];
               nextEntryModuleIndex := 0;
               manualChunkModules := ∅;
               warnings := [];
               hookCalls := [] |} in
  let first := (0, true, [0; 1]) in
  let second := (2, true, [1; 2]) in
  indexedEntryModules (exec (merge_calls [second; first]) st) = [(0, 0); (1, 1); (3, 2)]
  ∧ indexedEntryModules (exec (merge_calls [second; first]) st)
    = indexedEntryModules (exec (merge_calls [first; second]) st).
Proof.
  intros st first second.
  pose proof (entry_modules_sorted_by_minimum_index [(true, [0; 1]); (true, [1; 2])]
                [second; first] [first; second] [] st
                eq_refl
                ltac:(apply (bool_decide_unpack _); vm_compute; exact I)
                (perm_swap _ _ _)
                ltac:(apply one_module_per_id_Forall;
                      apply (bool_decide_unpack _); vm_compute; exact I))
    as (_ & _ & _ & _ & Hsame & _).
  split; [reflexivity | exact Hsame].
Defined.

(* ================================================================== *)
(** * Further properties of the loader *)
(* ================================================================== *)

(** ** Resolution of import sources *)

(** X1. [normalizeResolveIdResult] answers [null] in one situation only:
    the hook gave no id (null, undefined or the empty string) and the
    source, made absolute when relative, is not external by
    configuration. *)
Theorem normalizeResolveIdResult_null_iff
    (isRelative : string → bool) (resolve : string → string → string → string)
    (isExternal : string → string → bool → bool)
    (hasModuleSideEffects : string → bool → bool)
    (answer : ResolveIdResult) (importer source : string) :
  normalizeResolveIdResult isRelative resolve isExternal hasModuleSideEffects
    answer importer source = None
  ↔ (answer = RidNullish ∨ answer = RidString "")
    ∧ isExternal (normalizeRelativeExternalId isRelative resolve importer source)
        importer true = false.
Proof.
  unfold normalizeResolveIdResult.
  destruct answer as [resolved| | |id external mse]; simpl.
  - destruct (String.eqb_spec resolved "") as [->|Hne].
    + destruct (isExternal _ importer true); simpl; split; try done.
      * by intros [_ ?].
      * intros _. split; [by right|done].
    + split; [done|]. intros [[?|[= ?]] _]; done.
  - split; [done|]. by intros [[?|?] _].
  - destruct (isExternal _ importer true); simpl; split; try done.
    + by intros [_ ?].
    + intros _. split; [by left|done].
  - split; [done|]. by intros [[?|?] _].
Qed.

(** X2. A resolution given as an object is taken at its word: the id is
    not made absolute, the external flag is the one given, an explicit
    side-effects flag wins, and neither [isExternal] nor the path helpers
    have a say. *)
Theorem object_resolution_is_taken_at_its_word
    (isRelative isRelative' : string → bool)
    (resolve resolve' : string → string → string → string)
    (isExternal isExternal' : string → string → bool → bool)
    (hasModuleSideEffects : string → bool → bool)
    (id : string) (external : bool) (moduleSideEffects : option bool)
    (importer source : string) :
  normalizeResolveIdResult isRelative resolve isExternal hasModuleSideEffects
    (RidObject id external moduleSideEffects) importer source
  = Some {| rid_external := external;
            rid_id := id;
            rid_moduleSideEffects :=
              default (hasModuleSideEffects id external) moduleSideEffects |}
  ∧ normalizeResolveIdResult isRelative resolve isExternal hasModuleSideEffects
      (RidObject id external moduleSideEffects) importer source
    = normalizeResolveIdResult isRelative' resolve' isExternal' hasModuleSideEffects
        (RidObject id external moduleSideEffects) importer source.
Proof. split; unfold normalizeResolveIdResult; by destruct moduleSideEffects. Qed.

(** X3. A source that is external by configuration is resolved without a
    call of the [resolveId] hook: the answer is there at once, external,
    with the source made absolute when it is relative. *)
Theorem resolveId_external_by_configuration
    (isRelative : string → bool) (resolve : string → string → string → string)
    (isExternal : string → string → bool → bool)
    (hasModuleSideEffects : string → bool → bool)
    (source importer : string) (st : loader) :
  isExternal source importer false = true →
  let id := normalizeRelativeExternalId isRelative resolve importer source in
  resolveId isRelative resolve isExternal hasModuleSideEffects source importer st
  = (Returned (ResolvedNow (Some {| rid_external := true;
                                    rid_id := id;
                                    rid_moduleSideEffects := hasModuleSideEffects id true |})),
     st).
Proof. intros Hext id. unfold resolveId. rewrite Hext. reflexivity. Qed.

Lemma resolveId_external_by_configuration_witness :
  resolveId (λ s, startsWith "./" s) (λ a b c, a +:+ "/" +:+ b +:+ "/" +:+ c)
    (λ id _ _, String.eqb id "lodash") (λ _ _, true) "lodash" "main.js" empty_loader
  = (Returned (ResolvedNow (Some (mkResolvedId true "lodash" true))), empty_loader).
Proof.
  apply (resolveId_external_by_configuration (λ s, startsWith "./" s)
           (λ a b c, a +:+ "/" +:+ b +:+ "/" +:+ c)
           (λ id _ _, String.eqb id "lodash") (λ _ _, true) "lodash" "main.js" empty_loader).
  reflexivity.
Defined.

(** X4. An import becomes an internal module only through a plugin: when
    the resolution that [resolveAndFetchDependency] stores is not external,
    its id is the non-empty string, or the id of the object, that the hook
    answered; nothing is warned about. *)
Theorem internal_ids_come_from_the_hook
    (isRelative : string → bool) (resolve : string → string → string → string)
    (isExternal : string → string → bool → bool)
    (hasModuleSideEffects : string → bool → bool)
    (source importer : string) (answer : ResolveIdResult)
    (resolvedId : ResolvedId) (st st' : loader) :
  resolveImport isRelative resolve isExternal hasModuleSideEffects source importer answer st
  = (Returned resolvedId, st') →
  rid_external resolvedId = false →
  st' = st
  ∧ ((answer = RidString (rid_id resolvedId) ∧ rid_id resolvedId ≠ "")
     ∨ ∃ moduleSideEffects, answer = RidObject (rid_id resolvedId) false moduleSideEffects).
Proof.
  unfold resolveImport, resolveId_resolved, handleMissingImports, normalizeResolveIdResult.
  intros Hrun Hinternal.
  destruct answer as [resolved| | |id external mse]; simpl in Hrun.
  - destruct (String.eqb_spec resolved "") as [->|Hne].
    + destruct (isExternal _ importer true); simpl in Hrun.
      * injection Hrun as <- <-. done.
      * run_M. destruct (isRelative source); simpl in Hrun; [done|].
        injection Hrun as <- <-. done.
    + destruct (isExternal resolved importer true) eqn:Hext; simpl in Hrun;
        injection Hrun as <- <-; simpl in *; [done|]. split; [done|]. by left.
  - injection Hrun as <- <-. done.
  - destruct (isExternal _ importer true); simpl in Hrun.
    + injection Hrun as <- <-. done.
    + run_M. destruct (isRelative source); simpl in Hrun; [done|].
      injection Hrun as <- <-. done.
  - injection Hrun as <- <-. simpl in *. subst external. split; [done|]. right. by exists mse.
Qed.

Lemma internal_ids_come_from_the_hook_witness :
  let isRelative := λ s, startsWith "./" s in
  let resolve := λ a b c : string, a +:+ "/" +:+ b +:+ "/" +:+ c in
  empty_loader = empty_loader
  ∧ ((RidString "/src/b.js" = RidString "/src/b.js" ∧ "/src/b.js" ≠ "")
     ∨ ∃ moduleSideEffects, RidString "/src/b.js" = RidObject "/src/b.js" false moduleSideEffects).
Proof.
  intros isRelative resolve.
  apply (internal_ids_come_from_the_hook isRelative resolve (λ _ _ _, false) (λ _ _, true)
           "./b.js" "/src/a.js" (RidString "/src/b.js")
           (mkResolvedId false "/src/b.js" true) empty_loader empty_loader);
    reflexivity.
Defined.

(** X5. A source that is not relative never fails to resolve: whatever
    the hook answers, [resolveAndFetchDependency] gets a resolution; when
    the hook has no id for it, the resolution is external and its id is the
    source as written. *)
Theorem bare_import_always_resolves
    (isRelative : string → bool) (resolve : string → string → string → string)
    (isExternal : string → string → bool → bool)
    (hasModuleSideEffects : string → bool → bool)
    (source importer : string) (answer : ResolveIdResult) (st : loader) :
  isRelative source = false →
  ∃ resolvedId,
    eval (resolveImport isRelative resolve isExternal hasModuleSideEffects
            source importer answer) st = Returned resolvedId
    ∧ (answer = RidNullish ∨ answer = RidFalse ∨ answer = RidString "" →
       resolvedId = {| rid_external := true;
                       rid_id := source;
                       rid_moduleSideEffects := hasModuleSideEffects source true |}).
Proof.
  intros Hrel.
  unfold resolveImport, resolveId_resolved, handleMissingImports, normalizeResolveIdResult,
    normalizeRelativeExternalId, eval.
  rewrite Hrel.
  destruct answer as [resolved| | |id external mse]; simpl.
  - destruct (String.eqb_spec resolved "") as [->|Hne].
    + destruct (isExternal source importer true); simpl; eexists; split; done.
    + eexists. split; [done|]. intros [?|[?|[= ?]]]; done.
  - eexists. split; done.
  - destruct (isExternal source importer true); simpl; eexists; split; done.
  - eexists. split; [done|]. intros [?|[?|?]]; done.
Qed.

Lemma bare_import_always_resolves_witness :
  ∃ resolvedId,
    eval (resolveImport (λ s, startsWith "./" s) (λ a b c, a +:+ "/" +:+ b +:+ "/" +:+ c)
            (λ _ _ _, false) (λ _ _, true) "left-pad" "x.js" RidNullish) empty_loader
    = Returned resolvedId
    ∧ (RidNullish = RidNullish ∨ RidNullish = RidFalse ∨ RidNullish = RidString "" →
       resolvedId = mkResolvedId true "left-pad" true).
Proof.
  apply (bare_import_always_resolves (λ s, startsWith "./" s)
           (λ a b c, a +:+ "/" +:+ b +:+ "/" +:+ c)
           (λ _ _ _, false) (λ _ _, true) "left-pad" "x.js" RidNullish empty_loader).
  reflexivity.
Defined.

(** ** The render pipeline *)

(** X6. Over the results of any number of plugins the reducer only adds to
    the source-map chain, at its end and in the order of the plugins: one
    entry for every result that is not null and whose [map] is not [null],
    the decoded map or else a marker that names the plugin.  The code that
    comes out is the code of the last result that is not null. *)
Theorem reducer_extends_the_chain {SourceMap Decoded}
    (decodedSourcemap : option SourceMap → option Decoded)
    (code : string) (sourcemapChain : list (chain_entry Decoded))
    (results : list (string * RenderResult SourceMap)) :
  reduceResults decodedSourcemap code sourcemapChain results
  = (default code (last (omap (λ pr, result_code pr.2) results)),
     sourcemapChain
     ++ omap (λ pr, map ← pushed_map pr.2;
                    Some (match decodedSourcemap map with
                          | Some decoded => DecodedMap decoded
                          | None => MissingMap pr.1
                          end)) results).
Proof.
  unfold reduceResults. revert code sourcemapChain.
  assert (∀ (c c' : string) l, default c (last (c' :: l)) = default c' (last l)) as Hlast.
  { intros c c' l. rewrite last_cons. by destruct (last l). }
  induction results as [|[plugin result] results IH]; intros code chain.
  - simpl. by rewrite app_nil_r.
  - destruct result as [|code'|code' [| |map]]; simpl; rewrite IH; simpl;
      rewrite ?Hlast, <- ?app_assoc; reflexivity.
Qed.

(** X7. How [renderChunk] passes failures on.  A failure of the
    'renderChunk' stage comes out as it is.  A failure of the
    'transformChunk' stage, thrown or rejected, comes out as a rejection
    with the code BAD_CHUNK_TRANSFORMER that keeps the name of the plugin
    and quotes the original message.  What the 'transformBundle' stage
    throws at once comes out with the code BAD_BUNDLE_TRANSFORMER. *)
Theorem render_failures_are_classified
    (renderChunkStage : call_result string)
    (transformChunkStage transformBundleStage : string → call_result string) :
  (∀ err, renderChunkStage = ThrewAtOnce err →
          renderChunk renderChunkStage transformChunkStage transformBundleStage
          = ThrewAtOnce err)
  ∧ (∀ err, renderChunkStage = Promised (Rejected err) →
            renderChunk renderChunkStage transformChunkStage transformBundleStage
            = Promised (Rejected err))
  ∧ (∀ code err,
       renderChunkStage = Promised (Fulfilled code) →
       transformChunkStage code = ThrewAtOnce err
       ∨ transformChunkStage code = Promised (Rejected err) →
       ∃ err',
         renderChunk renderChunkStage transformChunkStage transformBundleStage
         = Promised (Rejected err')
         ∧ err_code err' = Some "BAD_CHUNK_TRANSFORMER"
         ∧ err_plugin err' = err_plugin err
         ∧ ∃ prefix, err_message err' = prefix +:+ ": " +:+ err_message err)
  ∧ (∀ code code' err,
       renderChunkStage = Promised (Fulfilled code) →
       transformChunkStage code = Promised (Fulfilled code') →
       transformBundleStage code' = ThrewAtOnce err →
       ∃ err',
         renderChunk renderChunkStage transformChunkStage transformBundleStage
         = Promised (Rejected err')
         ∧ err_code err' = Some "BAD_BUNDLE_TRANSFORMER"
         ∧ err_plugin err' = err_plugin err).
Proof.
  split; [by intros err ->|]. split; [by intros err ->|]. split.
  - intros code err -> Hstage. unfold renderChunk.
    exists (transformer_error false err).
    split; [by destruct Hstage as [-> | ->]|]. split; [done|]. split; [done|].
    unfold transformer_error. cbn [err_message].
    eexists ("Error transforming " +:+ "chunk" +:+ _).
    reflexivity.
  - intros code code' err -> Hchunk Hbundle. unfold renderChunk. rewrite Hchunk, Hbundle.
    by exists (transformer_error true err).
Qed.

Lemma render_failures_are_classified_witness :
  let err := mkRenderError None "unexpected token" (Some "minify") in
  ∃ err',
    renderChunk (Promised (Fulfilled "code")) (λ _, Promised (Rejected err))
      (λ code, Promised (Fulfilled code))
    = Promised (Rejected err')
    ∧ err_code err' = Some "BAD_CHUNK_TRANSFORMER"
    ∧ err_plugin err' = Some "minify"
    ∧ ∃ prefix, err_message err' = prefix +:+ ": " +:+ "unexpected token".
Proof.
  intros err.
  pose proof (render_failures_are_classified (Promised (Fulfilled "code"))
                (λ _, Promised (Rejected err)) (λ code, Promised (Fulfilled code)))
    as (_ & _ & H & _).
  exact (H "code" err eq_refl (or_intror eq_refl)).
Defined.

(** X8. The promise of the 'transformBundle' stage is returned from inside
    [try] without being awaited: however it settles, that is how
    [renderChunk] settles.  A rejection of that stage therefore keeps its
    own code and message; it is not given the code
    BAD_BUNDLE_TRANSFORMER. *)
Theorem transformBundle_promise_is_returned_as_it_is
    (renderChunkStage : call_result string)
    (transformChunkStage transformBundleStage : string → call_result string)
    (code code' : string) (p : settled string) :
  renderChunkStage = Promised (Fulfilled code) →
  transformChunkStage code = Promised (Fulfilled code') →
  transformBundleStage code' = Promised p →
  renderChunk renderChunkStage transformChunkStage transformBundleStage = Promised p.
Proof. intros -> Hchunk Hbundle. unfold renderChunk. by rewrite Hchunk, Hbundle. Qed.

Lemma transformBundle_promise_is_returned_as_it_is_witness :
  let err := mkRenderError (Some "PLUGIN_ERROR") "boom" (Some "banner") in
  renderChunk (Promised (Fulfilled "code")) (λ code, Promised (Fulfilled code))
    (λ _, Promised (Rejected err))
  = Promised (Rejected err).
Proof.
  intros err.
  apply (transformBundle_promise_is_returned_as_it_is (Promised (Fulfilled "code"))
           (λ code, Promised (Fulfilled code)) (λ _, Promised (Rejected err))
           "code" "code" (Rejected err)); reflexivity.
Defined.

(** ** The predicate builders, beyond callbacks *)

(** X9. Only a callback option is ever called or exempts the ids of
    virtual modules: with a list of ids the predicate is membership in the
    list for every id, also one that starts with '\\0'; with [true] it
    holds for every id; and whatever option is not a function, nothing is
    called and the rest arguments do not matter. *)
Theorem list_options_are_plain_membership {T} (option : id_option T)
    (ids : list string) (id : string) (args args' : T) :
  (Traced.value (getIdMatcher (OptIds ids) id args) = true ↔ id ∈ ids)
  ∧ getIdMatcher (OptBool true) id args = (true, [])
  ∧ ((∀ f, option ≠ OptFun f) →
       Traced.calls (getIdMatcher option id args) = []
       ∧ getIdMatcher option id args = getIdMatcher option id args').
Proof.
  split; [|split; [done|]].
  - unfold getIdMatcher, Set_has, Traced.value. simpl.
    rewrite bool_decide_eq_true. rewrite list_elem_of_fmap. split.
    + by intros (s & [= ->] & Hin).
    + intros Hin. by exists id.
  - intros Hfun. destruct option as [[]|f| | |[]]; try done.
    + by destruct (Hfun f).
    + unfold getIdMatcher. simpl. by destruct (negb _).
Qed.

Lemma list_options_are_plain_membership_witness :
  (Traced.value (getIdMatcher (T:=unit) (OptIds [NUL +:+ "virtual"; "lodash"])
                   (NUL +:+ "virtual") tt) = true
     ↔ NUL +:+ "virtual" ∈ [NUL +:+ "virtual"; "lodash"])
  ∧ Traced.calls (getIdMatcher (T:=unit) (OptString "lodash") "lodash" tt) = [].
Proof.
  split.
  - apply (list_options_are_plain_membership (OptBool true)
             [NUL +:+ "virtual"; "lodash"] (NUL +:+ "virtual") tt tt).
  - apply (list_options_are_plain_membership (OptString "lodash") [] "lodash" tt tt).
    discriminate.
Defined.

(** X10. With a [moduleSideEffects] option that is none of the recognised
    ones the builder warns exactly when the option is truthy, and the
    predicate says "no side effects" exactly for an external id that
    [pureExternalModules] matches.  The pure-external option is consulted
    for external ids only; when it is a callback, an external id of a
    virtual module always has side effects and the callback is not
    called. *)
Theorem unrecognised_side_effects_option
    (is_truthy : bool) (pureExternalModules : id_option unit)
    (id : string) (external : bool) :
  let built := getHasModuleSideEffects (MseOther is_truthy) pureExternalModules in
  (built.1 = [] ↔ is_truthy = false)
  ∧ (Traced.value (built.2 id external) = false
     ↔ external = true ∧ Traced.value (getIdMatcher pureExternalModules id tt) = true)
  ∧ (external = false → Traced.calls (built.2 id external) = [])
  ∧ (∀ f, pureExternalModules = OptFun f → startsWith NUL id = true →
          built.2 id external = (true, [])).
Proof.
  simpl. split; [by destruct is_truthy|]. split; [|split].
  - destruct external; simpl.
    + rewrite negb_false_iff. split; [done|]. by intros [_ ?].
    + split; [done|]. by intros [? _].
  - by intros ->.
  - intros f -> Hid. destruct external; [|done]. simpl. by rewrite Hid.
Qed.

Lemma unrecognised_side_effects_option_witness :
  (getHasModuleSideEffects (MseOther true) (OptFun (λ _ _, CbTrue))).2
    (NUL +:+ "virtual") true = (true, [])
  ∧ Traced.calls ((getHasModuleSideEffects (MseOther true) (OptIds ["lodash"])).2
                    "lodash" false) = [].
Proof.
  split.
  - apply (unrecognised_side_effects_option true (OptFun (λ _ _, CbTrue))
             (NUL +:+ "virtual") true) with (λ _ _, CbTrue); reflexivity.
  - apply (unrecognised_side_effects_option true (OptIds ["lodash"]) "lodash" false).
    reflexivity.
Defined.

(** X11. In the four recognised modes of [moduleSideEffects] (a boolean,
    'no-external', a function, a list of ids) the [pureExternalModules]
    option plays no part and the builder does not warn. *)
Theorem pure_external_modules_only_matter_as_fallback
    (option : mse_option) (pure pure' : id_option unit) (id : string) (external : bool) :
  (∀ is_truthy, option ≠ MseOther is_truthy) →
  (getHasModuleSideEffects option pure).1 = []
  ∧ (getHasModuleSideEffects option pure).2 id external
    = (getHasModuleSideEffects option pure').2 id external.
Proof.
  intros Hother. destruct option as [b| |f|ids|t]; try done. by destruct (Hother t).
Qed.

Lemma pure_external_modules_only_matter_as_fallback_witness :
  (getHasModuleSideEffects MseNoExternal (OptBool true)).1 = []
  ∧ (getHasModuleSideEffects MseNoExternal (OptBool true)).2 "lodash" true
    = (getHasModuleSideEffects MseNoExternal (OptBool false)).2 "lodash" true.
Proof.
  apply (pure_external_modules_only_matter_as_fallback MseNoExternal
           (OptBool true) (OptBool false) "lodash" true).
  discriminate.
Defined.

(** ** Loading and the transform cache *)

Lemma emitFile_loop (files : list string) (st : loader) :
  for_each (λ f, modify (call_out (EmitFile f))) files st
  = (Returned tt,
     mkLoader (heap st) (modulesById st) (indexedEntryModules st) (nextEntryModuleIndex st)
       (manualChunkModules st) (warnings st) (hookCalls st ++ (EmitFile <$> files))).
Proof.
  revert st. induction files as [|f files IH]; intros st.
  - simpl. rewrite app_nil_r. by destruct st.
  - erewrite for_each_cons_Returned by reflexivity. rewrite IH. simpl.
    by rewrite <- app_assoc.
Qed.

(** X12. The transform stage runs exactly when the cache does not answer.
    When [graph.cachedModules] has the id with its custom-transform flag
    unset and the same original code, the cached source is taken: the
    files the cached transform emitted are emitted again, in order,
    [transform] is not called, and a [moduleSideEffects] that the load
    result carries is NOT written to the module.  Otherwise the flag from
    the load result is written and [transform] is called once. *)
Theorem transform_runs_iff_cache_miss
    (cachedModules : gmap string CachedModule) (module : ref) (id : string)
    (importer : option string) (source : LoadResult)
    (code : string) (moduleSideEffects : option bool) (st : loader) :
  (source = LoadString code ∧ moduleSideEffects = None)
  ∨ source = LoadObject code moduleSideEffects →
  let run := fetchModule_loaded cachedModules module id importer source in
  match cachedModules !! id with
  | Some cachedModule =>
      if negb (c_customTransformCache cachedModule)
         && String.eqb (c_originalCode cachedModule) code
      then eval run st = Returned (FromCache (c_source cachedModule))
           ∧ heap (exec run st) = heap st
           ∧ hookCalls (exec run st)
             = hookCalls st ++ (EmitFile <$> default [] (c_transformFiles cachedModule))
      else eval run st = Returned AwaitingTransform
           ∧ heap (exec run st)
             = match moduleSideEffects with
               | Some b => alter (on_module (set_moduleSideEffects b)) module (heap st)
               | None => heap st
               end
           ∧ hookCalls (exec run st) = hookCalls st ++ [CallTransform id code]
  | None =>
      eval run st = Returned AwaitingTransform
      ∧ heap (exec run st)
        = match moduleSideEffects with
          | Some b => alter (on_module (set_moduleSideEffects b)) module (heap st)
          | None => heap st
          end
      ∧ hookCalls (exec run st) = hookCalls st ++ [CallTransform id code]
  end.
Proof.
  intros Hsource run.
  assert (run = (λ st0, (let '(code, mse) := (code, moduleSideEffects) in
            match cachedModules !! id with
            | Some cachedModule =>
                if negb (c_customTransformCache cachedModule)
                   && String.eqb (c_originalCode cachedModule) code
                then
                  (match c_transformFiles cachedModule with
                   | Some files => for_each (λ f, modify (call_out (EmitFile f))) files
                   | None => mret tt
                   end);;
                  mret (FromCache (c_source cachedModule))
                else
                  (match mse with
                   | Some b => modify (update_module module (set_moduleSideEffects b))
                   | None => mret tt
                   end);;
                  modify (call_out (CallTransform id code));;
                  mret AwaitingTransform
            | None =>
                (match mse with
                 | Some b => modify (update_module module (set_moduleSideEffects b))
                 | None => mret tt
                 end);;
                modify (call_out (CallTransform id code));;
                mret AwaitingTransform
            end) st0)) as ->.
  { subst run. by destruct Hsource as [[-> ->] | ->]. }
  unfold eval, exec. cbv beta iota.
  destruct (cachedModules !! id) as [cachedModule|].
  - destruct (negb _ && _).
    + unfold mbind, M_bind. destruct (c_transformFiles cachedModule) as [files|].
      * rewrite emitFile_loop. done.
      * simpl. by rewrite app_nil_r.
    + by destruct moduleSideEffects.
  - by destruct moduleSideEffects.
Qed.

Lemma transform_runs_iff_cache_miss_witness :
  let cached := {[ "a.js" := mkCachedModule false "export default 1"
                                (Some ["a.css"]) (mkModuleSource [] ["default"] []) ]}
                : gmap string CachedModule in
  let st := exec (fetchModule (λ _, None) "a.js" None true true) empty_loader in
  let run := fetchModule_loaded cached 0 "a.js" None
               (LoadObject "export default 1" (Some false)) in
  eval run st = Returned (FromCache (mkModuleSource [] ["default"] []))
  ∧ heap (exec run st) = heap st
  ∧ hookCalls (exec run st) = [HookLoad "a.js"; EmitFile "a.css"].
Proof.
  intros cached st run.
  exact (transform_runs_iff_cache_miss cached 0 "a.js" None
           (LoadObject "export default 1" (Some false)) "export default 1" (Some false) st
           (or_intror eq_refl)).
Defined.

(** After [fetchModule] has created a module, the id is registered to it. *)
Lemma fetchModule_new_registered (getManualChunk : string → option string)
    (id : string) (importer : option string) (moduleSideEffects isEntry : bool)
    (st : loader) :
  registry_consistent st →
  modulesById st !! id = None →
  let st1 := exec (fetchModule getManualChunk id importer moduleSideEffects isEntry) st in
  registry_consistent st1
  ∧ modulesById st1 !! id = Some (length (heap st))
  ∧ ∃ m, heap st1 !! length (heap st) = Some (EModule m) ∧ m_id m = id.
Proof.
  intros Hc Hfree st1.
  pose proof (preserves_fetchModule getManualChunk id importer moduleSideEffects isEntry st Hc)
    as (Hc1 & _ & _).
  split; [done|].
  subst st1. unfold exec. rewrite fetchModule_new by done.
  pose proof (grows_register (EModule (new_Module id moduleSideEffects isEntry)) st Hfree Hc)
    as Hg.
  simpl in Hg.
  match goal with |- context [(?m ?sta).2] =>
    assert (grows sta (m sta).2) as (Hc' & Hreg' & Hheap')
  end.
  { apply (preserves_bind _ _); [| |by destruct Hg].
    - destruct (getManualChunk id);
        [apply preserves_addModuleToManualChunk|apply preserves_ret].
    - intros _. apply preserves_bind; [apply preserves_call_out|].
      intros _. apply preserves_ret. }
  split.
  - apply Hreg'. simpl. by rewrite lookup_insert_eq.
  - destruct (Hheap' (length (heap st)) (EModule (new_Module id moduleSideEffects isEntry)))
      as (e' & He' & Hid & Hk).
    { simpl. rewrite lookup_app_r by done. by rewrite Nat.sub_diag. }
    destruct e' as [m|x]; [|done]. by exists m.
Qed.

(** X13. A load that fails is never tried again.  When the [load] hook
    rejects, or answers something that is not code, the fetch fails before
    [transform] or [emitFile] is called and the state stays as it is: the
    module that was created for the id stays registered.  A later
    [fetchModule] of the id therefore settles with that module, and the
    [load] hook is not called for it. *)
Theorem failed_load_is_not_retried
    (getManualChunk : string → option string) (cachedModules : gmap string CachedModule)
    (id : string) (importer importer' : option string)
    (moduleSideEffects isEntry moduleSideEffects' isEntry' : bool)
    (source : LoadResult) (st : loader) :
  registry_consistent st →
  modulesById st !! id = None →
  (source = LoadOther ∨ ∃ message, source = LoadRejected message) →
  let module := length (heap st) in
  let st1 := exec (fetchModule getManualChunk id importer moduleSideEffects isEntry) st in
  let failed := fetchModule_loaded cachedModules module id importer source in
  let again := fetchModule getManualChunk id importer' moduleSideEffects' isEntry' in
  is_Returned (eval failed st1) = false
  ∧ exec failed st1 = st1
  ∧ eval again (exec failed st1) = Returned (Settled module)
  ∧ hookCalls (exec again (exec failed st1)) = hookCalls st1.
Proof.
  intros Hc Hfree Hsource module st1 failed again.
  destruct (fetchModule_new_registered getManualChunk id importer moduleSideEffects isEntry
              st Hc Hfree) as (Hc1 & Hreg1 & m & Hm & Hid).
  fold st1 in Hc1, Hreg1, Hm. fold module in Hreg1, Hm.
  assert (is_Returned (eval failed st1) = false ∧ exec failed st1 = st1) as [Hfail ->].
  { subst failed. by destruct Hsource as [-> | [message ->]]. }
  split; [done|]. split; [done|].
  subst again. unfold eval, exec.
  by rewrite (fetchModule_registered getManualChunk id importer' moduleSideEffects' isEntry'
                st1 module m Hreg1 Hm).
Qed.

Lemma failed_load_is_not_retried_witness :
  let st1 := exec (fetchModule (λ _, None) "a.js" None true true) empty_loader in
  let failed := fetchModule_loaded ∅ 0 "a.js" None (LoadRejected "ENOENT") in
  eval failed st1 = Threw (PluginError "Could not load a.js: ENOENT")
  ∧ eval (fetchModule (λ _, None) "a.js" (Some "b.js") true false) (exec failed st1)
    = Returned (Settled 0)
  ∧ hookCalls (exec (fetchModule (λ _, None) "a.js" (Some "b.js") true false)
                 (exec failed st1)) = [HookLoad "a.js"].
Proof.
  intros st1 failed.
  pose proof (failed_load_is_not_retried (λ _, None) ∅ "a.js" None (Some "b.js")
                true true true false (LoadRejected "ENOENT") empty_loader
                empty_loader_consistent eq_refl
                (or_intror (ex_intro _ "ENOENT" eq_refl))) as (_ & _ & Hagain & Hcalls).
  split; [reflexivity|]. split; [exact Hagain | exact Hcalls].
Defined.

(** ** External modules *)

(** X14. The ExternalModule of an id is created by the first external
    resolution of the id and by no later one: the first fetch puts it at
    the end of the heap with the side-effects flag of that resolution; any
    later external resolution of the id, whatever flag it carries, settles
    with the same object and changes nothing. *)
Theorem external_module_is_created_once
    (getManualChunk : string → option string)
    (source source' importer importer' : string) (first later : ResolvedId)
    (st : loader) :
  rid_external first = true →
  rid_external later = true →
  rid_id later = rid_id first →
  modulesById st !! rid_id first = None →
  let created := length (heap st) in
  let st1 := exec (fetchResolvedDependency getManualChunk source importer first) st in
  eval (fetchResolvedDependency getManualChunk source importer first) st
  = Returned (Settled created)
  ∧ heap st1
    = heap st ++ [EExternal (new_ExternalModule (rid_id first) (rid_moduleSideEffects first))]
  ∧ fetchResolvedDependency getManualChunk source' importer' later st1
    = (Returned (Settled created), st1).
Proof.
  intros Hext Hext' Hid Hfree created st1.
  assert (fetchResolvedDependency getManualChunk source importer first st
          = (Returned (Settled created),
             set_modulesById (<[rid_id first := created]> (modulesById st))
               (set_heap (heap st ++ [EExternal (new_ExternalModule (rid_id first)
                                                   (rid_moduleSideEffects first))]) st)))
    as Hfirst.
  { rewrite fetchResolvedDependency_new by done.
    unfold mbind, M_bind, gets. simpl. rewrite lookup_insert_eq. simpl.
    rewrite lookup_app_r by done. subst created. by rewrite Nat.sub_diag. }
  subst st1. unfold eval, exec. rewrite Hfirst. simpl.
  split; [done|]. split; [done|].
  erewrite fetchResolvedDependency_known; [|done|].
  - unfold mbind, M_bind, gets. simpl. rewrite Hid, lookup_insert_eq. simpl.
    rewrite lookup_app_r by done. subst created. by rewrite Nat.sub_diag.
  - simpl. rewrite Hid. apply lookup_insert_eq.
Qed.

Lemma external_module_is_created_once_witness :
  let first := mkResolvedId true "lodash" false in
  let later := mkResolvedId true "lodash" true in
  let st1 := exec (fetchResolvedDependency (λ _, None) "lodash" "a.js" first) empty_loader in
  heap st1 = [EExternal (new_ExternalModule "lodash" false)]
  ∧ fetchResolvedDependency (λ _, None) "lodash" "b.js" later st1
    = (Returned (Settled 0), st1).
Proof.
  intros first later st1.
  pose proof (external_module_is_created_once (λ _, None) "lodash" "lodash" "a.js" "b.js"
                first later empty_loader eq_refl eq_refl eq_refl eq_refl)
    as (_ & Hheap & Hlater).
  split; [exact Hheap | exact Hlater].
Defined.

(** X15. An id that is registered to an internal module cannot be fetched
    as external: [fetchResolvedDependency] with an external resolution of
    that id throws "internal id cannot be external", creates nothing and
    leaves the state as it is. *)
Theorem external_resolution_of_internal_id_is_fatal
    (getManualChunk : string → option string)
    (source importer : string) (resolvedId : ResolvedId)
    (r : ref) (m : Module) (st : loader) :
  rid_external resolvedId = true →
  modulesById st !! rid_id resolvedId = Some r →
  heap st !! r = Some (EModule m) →
  fetchResolvedDependency getManualChunk source importer resolvedId st
  = (Threw (errInternalIdCannotBeExternal source importer), st).
Proof.
  intros Hext Hreg Hheap. erewrite fetchResolvedDependency_known by done.
  unfold mbind, M_bind, gets. simpl. rewrite Hreg. simpl. by rewrite Hheap.
Qed.

Lemma external_resolution_of_internal_id_is_fatal_witness :
  let st := exec (fetchModule (λ _, None) "a.js" None true true) empty_loader in
  fetchResolvedDependency (λ _, None) "./a.js" "b.js" (mkResolvedId true "a.js" true) st
  = (Threw (errInternalIdCannotBeExternal "./a.js" "b.js"), st).
Proof.
  intros st.
  apply (external_resolution_of_internal_id_is_fatal (λ _, None) "./a.js" "b.js"
           (mkResolvedId true "a.js" true) 0 (new_Module "a.js" true true) st);
    reflexivity.
Defined.

(** X16. An import that nothing resolves.  When the source is not relative
    and its name is free in the registry, the dependency becomes a new
    ExternalModule named as the source is written, one warning is recorded,
    and the resolution is kept in [module.resolvedIds].  When the source is
    relative the fetch fails with "unresolved import" and nothing is
    written: no warning, no module, and no entry in
    [module.resolvedIds]. *)
Theorem unresolved_import_becomes_external_module
    (isRelative : string → bool) (hasModuleSideEffects : string → bool → bool)
    (getManualChunk : string → option string)
    (module : ref) (m : Module) (source : string) (st : loader) :
  heap st !! module = Some (EModule m) →
  let run := resolveAndFetchDependency_resolved isRelative hasModuleSideEffects
               getManualChunk module source None in
  let resolvedId := {| rid_external := true; rid_id := source;
                       rid_moduleSideEffects := hasModuleSideEffects source true |} in
  (isRelative source = true →
     run st = (Threw (errUnresolvedImport source (m_id m)), st))
  ∧ (isRelative source = false → modulesById st !! source = None →
       eval run st = Returned (Settled (length (heap st)))
       ∧ warnings (exec run st)
         = warnings st ++ [errUnresolvedImportTreatedAsExternal source (m_id m)]
       ∧ modulesById (exec run st) = <[source := length (heap st)]> (modulesById st)
       ∧ heap (exec run st)
         = <[module := EModule (set_resolvedIds (<[source := resolvedId]> (m_resolvedIds m)) m)]>
             (heap st)
           ++ [EExternal (new_ExternalModule source (hasModuleSideEffects source true))]).
Proof.
  intros Hheap run resolvedId.
  assert (run st
          = (resolvedId0 ← handleMissingImports isRelative hasModuleSideEffects None
                             source (m_id m);
             modify (update_module module
                       (λ m1, set_resolvedIds (<[source := resolvedId0]> (m_resolvedIds m1))
                                m1));;
             fetchResolvedDependency getManualChunk source (m_id m) resolvedId0) st) as Hrun.
  { subst run. unfold resolveAndFetchDependency_resolved.
    unfold mbind at 1, M_bind at 1, gets. by rewrite Hheap. }
  split.
  - intros Hrel. rewrite Hrun.
    unfold mbind, M_bind, handleMissingImports. rewrite Hrel. reflexivity.
  - intros Hrel Hfree.
    assert (handleMissingImports isRelative hasModuleSideEffects None source (m_id m) st
            = (Returned resolvedId,
               warn (errUnresolvedImportTreatedAsExternal source (m_id m)) st)) as Hmissing.
    { unfold handleMissingImports. rewrite Hrel. reflexivity. }
    unfold eval, exec. rewrite Hrun. unfold mbind, M_bind. rewrite Hmissing. unfold modify.
    set (st1 := update_module module _ (warn _ st)).
    assert (modulesById st1 !! rid_id resolvedId = None) as Hfree1 by done.
    rewrite (fetchResolvedDependency_new getManualChunk source (m_id m) resolvedId st1
               eq_refl Hfree1).
    unfold mbind, M_bind, gets. simpl. rewrite lookup_insert_eq. simpl.
    rewrite length_alter. rewrite lookup_app_r by (by rewrite length_alter).
    rewrite length_alter, Nat.sub_diag. simpl.
    split; [done|]. split; [done|]. split; [done|]. f_equal.
    apply list_eq. intros i. destruct (decide (i = module)) as [->|Hne].
    + rewrite list_lookup_alter_eq, Hheap. simpl.
      rewrite list_lookup_insert_eq; [done|]. by eapply lookup_lt_Some.
    + rewrite list_lookup_alter_ne by done. by rewrite list_lookup_insert_ne.
Qed.

Lemma unresolved_import_becomes_external_module_witness :
  let st := exec (fetchModule (λ _, None) "x.js" None true true) empty_loader in
  let run := resolveAndFetchDependency_resolved (λ s, startsWith "./" s) (λ _ _, true)
               (λ _, None) 0 "left-pad" None in
  eval run st = Returned (Settled 1)
  ∧ warnings (exec run st) = [errUnresolvedImportTreatedAsExternal "left-pad" "x.js"]
  ∧ resolveAndFetchDependency_resolved (λ s, startsWith "./" s) (λ _ _, true)
      (λ _, None) 0 "./gone.js" None st
    = (Threw (errUnresolvedImport "./gone.js" "x.js"), st).
Proof.
  intros st run.
  pose proof (unresolved_import_becomes_external_module (λ s, startsWith "./" s)
                (λ _ _, true) (λ _, None) 0 (new_Module "x.js" true true) "left-pad" st
                eq_refl) as (_ & Hbare).
  destruct (Hbare eq_refl eq_refl) as (Heval & Hwarn & _).
  pose proof (unresolved_import_becomes_external_module (λ s, startsWith "./" s)
                (λ _ _, true) (λ _, None) 0 (new_Module "x.js" true true) "./gone.js" st
                eq_refl) as (Hrelative & _).
  split; [exact Heval|]. split; [exact Hwarn | exact (Hrelative eq_refl)].
Defined.

(** ** Entry and manual-chunk intake *)

(** X17. The hints of an entry specifier.  A file name is recorded and then
    the name of the specifier is not looked at: the chunk name and the user
    chunk names stay as they are.  Without a file name, a name becomes the
    chunk name only when the module has none yet (the first name stays),
    and it is added to the user chunk names only for a user-defined
    entry. *)
Theorem entry_hints (u : UnresolvedModule) (isUserDefined : bool)
    (module : ref) (m : Module) (st : loader) :
  heap st !! module = Some (EModule m) →
  ∃ m',
    addEntryModules_hints u isUserDefined module st
    = (Returned module, set_heap (<[module := EModule m']> (heap st)) st)
    ∧ m_id m' = m_id m
    ∧ match um_fileName u, um_name u with
      | Some fileName, _ =>
          m_chunkFileNames m' = {[fileName]} ∪ m_chunkFileNames m
          ∧ m_chunkName m' = m_chunkName m
          ∧ m_userChunkNames m' = m_userChunkNames m
      | None, Some name =>
          m_chunkFileNames m' = m_chunkFileNames m
          ∧ m_chunkName m' = Some (default name (m_chunkName m))
          ∧ m_userChunkNames m'
            = (if isUserDefined then {[name]} ∪ m_userChunkNames m else m_userChunkNames m)
      | None, None => m' = m
      end.
Proof.
  intros Hheap.
  assert (∀ f st0 m0, heap st0 !! module = Some (EModule m0) →
            update_module module f st0
            = set_heap (<[module := EModule (f m0)]> (heap st0)) st0) as Hupd.
  { intros f st0 m0 H0. unfold update_module. f_equal.
    apply list_eq. intros i. destruct (decide (i = module)) as [->|Hne].
    - rewrite list_lookup_alter_eq, H0. simpl.
      rewrite list_lookup_insert_eq; [done|]. by eapply lookup_lt_Some.
    - rewrite list_lookup_alter_ne by done. by rewrite list_lookup_insert_ne. }
  unfold addEntryModules_hints.
  destruct (um_fileName u) as [fileName|]; [|destruct (um_name u) as [name|]].
  - eexists. split; [|split].
    + unfold mbind, M_bind, modify, mret, M_ret. by erewrite Hupd.
    + done.
    + done.
  - destruct isUserDefined.
    + eexists. split; [|split].
      * unfold mbind, M_bind, modify, mret, M_ret.
        erewrite (Hupd _ st) by done.
        erewrite Hupd by (simpl; apply list_lookup_insert_eq; by eapply lookup_lt_Some).
        unfold set_heap. simpl. by rewrite list_insert_insert_eq.
      * destruct m as [? ? ? ? ? ? cn ? ? ? ? ? ?]. by destruct cn.
      * destruct m as [? ? ? ? ? ? cn ? ? ? ? ? ?]. by destruct cn.
    + eexists. split; [|split].
      * unfold mbind, M_bind, modify, mret, M_ret. by erewrite Hupd.
      * destruct m as [? ? ? ? ? ? cn ? ? ? ? ? ?]. by destruct cn.
      * destruct m as [? ? ? ? ? ? cn ? ? ? ? ? ?]. by destruct cn.
  - exists m. split; [|done].
    unfold mbind, M_bind, mret, M_ret. unfold set_heap.
    rewrite list_insert_id by done. by destruct st.
Qed.

Lemma entry_hints_witness :
  let st := exec (fetchModule (λ _, None) "a.js" None true true) empty_loader in
  let named := mkUnresolvedModule None "a.js" (Some "main") in
  let renamed := mkUnresolvedModule None "a.js" (Some "other") in
  ∃ m',
    addEntryModules_hints renamed false 0 (exec (addEntryModules_hints named true 0) st)
    = (Returned 0,
       set_heap (<[0 := EModule m']> (heap (exec (addEntryModules_hints named true 0) st)))
         (exec (addEntryModules_hints named true 0) st))
    ∧ m_id m' = "a.js"
    ∧ m_chunkFileNames m' = ∅
      ∧ m_chunkName m' = Some "main"
      ∧ m_userChunkNames m' = {["main"]} ∪ ∅.
Proof.
  intros st named renamed.
  exact (entry_hints renamed false 0
           (set_userChunkNames ({["main"]} ∪ ∅)
              (set_chunkName (Some "main") (new_Module "a.js" true true)))
           (exec (addEntryModules_hints named true 0) st) eq_refl).
Defined.

(** X18. Every specifier goes through the [resolveId] hook, in order and
    without an importer: [addEntryModules] calls the hook once per
    specifier, [addManualChunks] once per id, alias by alias, also for an
    id that is listed twice.  Nothing else happens before the hooks
    answer, but that [addEntryModules] moves the counter. *)
Theorem intake_calls_the_hook_per_specifier
    (unresolvedEntryModules : list UnresolvedModule)
    (manualChunks : list (string * list string)) (st : loader) :
  addEntryModules unresolvedEntryModules st
  = (Returned (nextEntryModuleIndex st),
     mkLoader (heap st) (modulesById st) (indexedEntryModules st)
       (nextEntryModuleIndex st + length unresolvedEntryModules)
       (manualChunkModules st) (warnings st)
       (hookCalls st ++ ((λ u, HookResolveId (um_id u) None) <$> unresolvedEntryModules)))
  ∧ addManualChunks manualChunks st
    = (Returned tt,
       mkLoader (heap st) (modulesById st) (indexedEntryModules st)
         (nextEntryModuleIndex st) (manualChunkModules st) (warnings st)
         (hookCalls st
          ++ ((λ id, HookResolveId id None) <$> concat manualChunks.*2)))
  ∧ (unresolvedManualChunks manualChunks).*2 = concat manualChunks.*2
  ∧ length (unresolvedManualChunks manualChunks) = sum_list (length <$> manualChunks.*2).
Proof.
  assert (∀ {A} (f : A → string) (b : bool) (xs : list A) (st0 : loader),
            for_each (λ x, loadEntryModule (f x) b) xs st0
            = (Returned tt,
               mkLoader (heap st0) (modulesById st0) (indexedEntryModules st0)
                 (nextEntryModuleIndex st0) (manualChunkModules st0) (warnings st0)
                 (hookCalls st0 ++ ((λ x, HookResolveId (f x) None) <$> xs)))) as Hloop.
  { intros A f b xs. induction xs as [|x xs IH]; intros st0.
    - simpl. rewrite app_nil_r. by destruct st0.
    - erewrite for_each_cons_Returned by reflexivity. rewrite IH. simpl.
      by rewrite <- app_assoc. }
  assert ((unresolvedManualChunks manualChunks).*2 = concat manualChunks.*2) as Hflat.
  { unfold unresolvedManualChunks.
    induction manualChunks as [|[alias ids] cs IH]; [done|].
    rewrite bind_cons, fmap_app, IH. simpl. f_equal.
    clear. induction ids as [|id ids IH]; [done|].
    rewrite bind_cons, fmap_app, IH. done. }
  split; [|split; [|split]].
  - unfold addEntryModules. unfold mbind, M_bind, gets, modify. rewrite Hloop. done.
  - unfold addManualChunks. rewrite Hloop. simpl. do 2 f_equal.
    rewrite <- Hflat. by rewrite <- list_fmap_compose.
  - done.
  - rewrite <- (length_fmap snd), Hflat.
    clear. induction manualChunks as [|[alias ids] cs IH]; [done|].
    rewrite !fmap_cons. simpl. rewrite length_app. by rewrite IH.
Qed.

(** ** Induction over builds

    A relation between states that is reflexive and transitive holds
    between the start and the end of every build as soon as the few
    segments that touch the registry, the manual chunks and the entry
    counter respect it, together with the plain assignments. *)
Section BuildInduction.

Variable R : relation loader.
Context `{!Reflexive R} `{!Transitive R}.

Lemma steps_ret {A} (a : A) : steps R (mret a).
Proof. intros st. simpl. reflexivity. Qed.

Lemma steps_throw {A} (e : error) : steps R (throw (A:=A) e).
Proof. intros st. simpl. reflexivity. Qed.

Lemma steps_gets {A} (f : loader → A) : steps R (gets f).
Proof. intros st. simpl. reflexivity. Qed.

Lemma steps_bind {A B} (m : M A) (k : A → M B) :
  steps R m → (∀ a, steps R (k a)) → steps R (m ≫= k).
Proof.
  intros Hm Hk st. unfold mbind, M_bind.
  specialize (Hm st). destruct (m st) as [[a|e] st1]; simpl in *; [|done].
  etrans; [done|]. apply Hk.
Qed.

Lemma steps_for_each {A} (body : A → M unit) (xs : list A) :
  (∀ x, steps R (body x)) → steps R (for_each body xs).
Proof.
  intros Hbody. induction xs as [|x xs IH]; simpl.
  - apply steps_ret.
  - apply steps_bind; [done|]. by intros _.
Qed.

Variable isRelative : string → bool.
Variable hasModuleSideEffects : string → bool → bool.
Variable getManualChunk : string → option string.
Variable cachedModules : gmap string CachedModule.

Hypothesis R_fetchModule : ∀ id importer moduleSideEffects isEntry,
  steps R (fetchModule getManualChunk id importer moduleSideEffects isEntry).
Hypothesis R_addModuleToManualChunk : ∀ alias module,
  steps R (addModuleToManualChunk alias module).
Hypothesis R_addEntryModules : ∀ us, steps R (addEntryModules us).
Hypothesis R_external : ∀ source importer resolvedId,
  rid_external resolvedId = true →
  steps R (fetchResolvedDependency getManualChunk source importer resolvedId).
Hypothesis R_update : ∀ r f, field_update f → steps R (modify (update_module r f)).
Hypothesis R_warn : ∀ w, steps R (modify (warn w)).
Hypothesis R_call : ∀ c, (∀ id, c ≠ HookLoad id) → steps R (modify (call_out c)).
Hypothesis R_indexed : ∀ g : loader → list (nat * ref),
  steps R (modify (λ st, set_indexedEntryModules (g st) st)).
Hypothesis R_register : ∀ id module,
  steps R (modify (λ st, set_modulesById (<[id := module]> (modulesById st)) st)).

Lemma steps_fetchResolvedDependency (source importer : string) (resolvedId : ResolvedId) :
  steps R (fetchResolvedDependency getManualChunk source importer resolvedId).
Proof.
  destruct (rid_external resolvedId) eqn:Hext; [by apply R_external|].
  unfold fetchResolvedDependency. rewrite Hext. apply R_fetchModule.
Qed.

Lemma steps_handleMissingImports (resolvedId : option ResolvedId) (source importer : string) :
  steps R (handleMissingImports isRelative hasModuleSideEffects resolvedId source importer).
Proof.
  unfold handleMissingImports. destruct resolvedId; [apply steps_ret|].
  apply steps_bind.
  - destruct (isRelative source); [apply steps_throw|apply steps_ret].
  - intros _. apply steps_bind; [apply R_warn|]. intros _. apply steps_ret.
Qed.

Lemma steps_loadEntryModule_resolved (unresolvedId : string) (isEntry : bool)
    (r : ResolveIdResult) :
  steps R (loadEntryModule_resolved getManualChunk unresolvedId isEntry r).
Proof.
  destruct r as [id| | |id [] mse]; simpl;
    first [apply steps_throw | apply R_fetchModule].
Qed.

Lemma steps_resolveAndFetchDependency_resolved (module : ref) (source : string)
    (resolved : option ResolvedId) :
  steps R (resolveAndFetchDependency_resolved isRelative hasModuleSideEffects
             getManualChunk module source resolved).
Proof.
  unfold resolveAndFetchDependency_resolved.
  apply steps_bind; [apply steps_gets|]. intros [[m|x]|]; try apply steps_throw.
  apply steps_bind; [apply steps_handleMissingImports|]. intros resolvedId.
  apply steps_bind; [apply R_update; field_update_tac|].
  intros _. apply steps_fetchResolvedDependency.
Qed.

Lemma steps_fetchModule_loaded (module : ref) (id : string) (importer : option string)
    (source : LoadResult) :
  steps R (fetchModule_loaded cachedModules module id importer source).
Proof.
  unfold fetchModule_loaded.
  apply steps_bind.
  { destruct source; first [apply steps_ret | apply steps_throw]. }
  intros [code mse].
  assert (steps R
            (match mse with
             | Some b => modify (update_module module (set_moduleSideEffects b))
             | None => mret tt
             end;; modify (call_out (CallTransform id code));; mret AwaitingTransform))
    as Htransform.
  { apply steps_bind.
    - destruct mse; [apply R_update; field_update_tac|apply steps_ret].
    - intros _. apply steps_bind; [by apply R_call|].
      intros _. apply steps_ret. }
  destruct (cachedModules !! id) as [cachedModule|]; [|done].
  destruct (_ && _); [|done].
  apply steps_bind.
  - destruct (c_transformFiles cachedModule); [|apply steps_ret].
    apply steps_for_each. intros f. by apply R_call.
  - intros _. apply steps_ret.
Qed.

Lemma steps_fetchModule_transformed (module : ref) (id : string)
    (source : outcome ModuleSource) :
  steps R (fetchModule_transformed module id source).
Proof.
  unfold fetchModule_transformed. destruct source as [source|e]; [|apply steps_throw].
  apply steps_bind; [apply R_update; field_update_tac|]. intros _. apply R_register.
Qed.

Lemma steps_fetchModule_linked {D} (module : ref) (deps : outcome D) :
  steps R (fetchModule_linked module deps).
Proof.
  unfold fetchModule_linked. destruct deps as [d|e]; [|apply steps_throw].
  apply steps_bind; [apply steps_gets|]. intros [[m|x]|]; try apply steps_throw.
  apply steps_bind.
  { apply steps_for_each. intros name. unfold exportOwnName.
    destruct (negb _); [apply R_update; field_update_tac|apply steps_ret]. }
  intros _. apply steps_bind; [|intros _; apply steps_ret].
  apply steps_for_each. intros source. unfold mergeExportAllSource.
  apply steps_bind; [apply steps_gets|]. intros [[m'|x']|]; try apply steps_throw.
  destruct (m_resolvedIds m' !! source) as [resolvedId|]; [|apply steps_throw].
  apply steps_bind; [apply steps_gets|]. intros [x|]; [|apply steps_throw].
  apply steps_bind; [apply steps_gets|].
  intros [[xm|xe]|]; first [apply steps_ret | apply steps_throw | idtac].
  apply steps_for_each. intros [name origin]. unfold mergeExportedName.
  apply steps_bind; [apply steps_gets|]. intros e.
  apply steps_bind; [apply steps_gets|]. intros e'.
  destruct e as [[m1|x1]|]; try apply steps_throw.
  destruct e' as [[m2|x2]|]; try apply steps_throw.
  destruct (has_key _ _); [apply R_warn|].
  apply R_update. field_update_tac.
Qed.

Lemma steps_mergeEntryModules (isUserDefined : bool) (entryModules : list ref)
    (moduleIndex : nat) :
  steps R (mergeEntryModules isUserDefined entryModules moduleIndex).
Proof.
  revert moduleIndex. induction entryModules as [|entryModule rest IH]; intros moduleIndex.
  - apply steps_ret.
  - simpl. apply steps_bind; [apply R_update; field_update_tac|].
    intros _. apply steps_bind; [|intros _; apply IH].
    apply (R_indexed (λ st, mergeEntryModule (module_id st) entryModule moduleIndex
                              (indexedEntryModules st))).
Qed.

Lemma steps_addEntryModules_hints (u : UnresolvedModule) (isUserDefined : bool)
    (module : ref) :
  steps R (addEntryModules_hints u isUserDefined module).
Proof.
  unfold addEntryModules_hints.
  apply steps_bind; [|intros _; apply steps_ret].
  destruct (um_fileName u) as [fileName|].
  - apply R_update. field_update_tac.
  - destruct (um_name u) as [name|]; [|apply steps_ret].
    apply steps_bind; [apply R_update; field_update_tac|].
    intros _. destruct isUserDefined; [|apply steps_ret].
    apply R_update. field_update_tac.
Qed.

Lemma steps_step (o : op) :
  steps R (step isRelative hasModuleSideEffects getManualChunk cachedModules o).
Proof.
  destruct o; simpl;
    try (apply steps_bind; [|intros _; apply steps_ret]).
  - apply R_addEntryModules.
  - apply steps_loadEntryModule_resolved.
  - apply steps_addEntryModules_hints.
  - unfold addEntryModules_merge.
    apply steps_bind; [apply steps_mergeEntryModules|].
    intros _. apply steps_bind; [|intros _; apply steps_ret].
    apply (R_indexed (λ st, Array_sort (indexedEntryModules st))).
  - apply steps_for_each. intros u. by apply R_call.
  - apply steps_for_each. intros am. apply R_addModuleToManualChunk.
  - apply R_fetchModule.
  - unfold with_module. apply steps_bind; [apply steps_gets|].
    intros [[m|x]|]; try apply steps_ret.
    apply steps_bind; [apply steps_fetchModule_loaded|intros _; apply steps_ret].
  - unfold with_module. apply steps_bind; [apply steps_gets|].
    intros [[m|x]|]; try apply steps_ret. apply steps_fetchModule_transformed.
  - apply steps_fetchModule_linked.
  - apply steps_resolveAndFetchDependency_resolved.
  - apply steps_fetchResolvedDependency.
Qed.

Lemma steps_run (ops : list op) (st : loader) :
  R st (run isRelative hasModuleSideEffects getManualChunk cachedModules ops st).
Proof.
  revert st. induction ops as [|o ops IH]; intros st; simpl; [reflexivity|].
  etrans; [apply (steps_step o st)|]. apply IH.
Qed.

End BuildInduction.

(** ** What a build never takes back *)

Lemma module_advances_refl (m : Module) : module_advances m m.
Proof. unfold module_advances. repeat split; done. Qed.

Lemma module_advances_trans (m1 m2 m3 : Module) :
  module_advances m1 m2 → module_advances m2 m3 → module_advances m1 m3.
Proof.
  intros (H1 & H2 & H3 & H4 & H5 & H6) (G1 & G2 & G3 & G4 & G5 & G6).
  unfold module_advances. repeat split; try (by auto); set_solver.
Qed.

Global Instance advances_refl : Reflexive advances.
Proof.
  intros st. split; [|done]. intros r m Hm. exists m. split; [done|].
  apply module_advances_refl.
Qed.

Global Instance advances_trans : Transitive advances.
Proof.
  intros st1 st2 st3 (Hh & Hn & Hw & Hc) (Hh' & Hn' & Hw' & Hc').
  split; [|split; [lia|split; by etrans]].
  intros r m Hm. destruct (Hh r m Hm) as (m2 & Hm2 & Hadv).
  destruct (Hh' r m2 Hm2) as (m3 & Hm3 & Hadv'). exists m3. split; [done|].
  by eapply module_advances_trans.
Qed.

(** The heap is only added to, or kept. *)
Lemma advances_heap_app (st st' : loader) (new : list entity) :
  heap st' = heap st ++ new →
  nextEntryModuleIndex st' = nextEntryModuleIndex st →
  warnings st' = warnings st → hookCalls st' = hookCalls st →
  advances st st'.
Proof.
  intros Hh Hn Hw Hc. split; [|rewrite Hn, Hw, Hc; done].
  intros r m Hm. exists m. split; [|apply module_advances_refl].
  rewrite Hh. by apply lookup_app_l_Some.
Qed.

Lemma advances_update_module (r : ref) (f : Module → Module) (st : loader) :
  (∀ m, heap st !! r = Some (EModule m) → module_advances m (f m)) →
  advances st (update_module r f st).
Proof.
  intros Hf. split; [|done]. intros r' m Hm. simpl.
  destruct (decide (r = r')) as [->|Hne].
  - exists (f m). rewrite list_lookup_alter_eq, Hm. split; [done|]. by apply Hf.
  - exists m. rewrite list_lookup_alter_ne by done. split; [done|].
    apply module_advances_refl.
Qed.

Lemma advances_addModuleToManualChunk (alias : string) (module : ref) :
  steps advances (addModuleToManualChunk alias module).
Proof.
  intros st. unfold addModuleToManualChunk. unfold mbind at 1, M_bind at 1, gets.
  destruct (heap st !! module) as [[m|x]|] eqn:Hm; try reflexivity.
  assert (m_manualChunkAlias m = None ∨ m_manualChunkAlias m = Some alias
          ∨ ∃ current, m_manualChunkAlias m = Some current ∧ current ≠ alias)
    as [Hnone|[Hsame|(current & Hcur & Hne)]].
  { destruct (m_manualChunkAlias m) as [current|]; [|by left].
    destruct (decide (current = alias)) as [->|]; [right; by left|].
    right. right. by exists current. }
  3: { rewrite Hcur. unfold mbind, M_bind.
       destruct (String.eqb_spec current alias); [done|]. simpl. reflexivity. }
  all: assert (advances st (update_module module (set_manualChunkAlias (Some alias)) st))
         as Hadv
         by (apply advances_update_module; intros m0 Hm0; rewrite Hm in Hm0;
             injection Hm0 as <-; unfold module_advances; simpl;
             repeat split; try done; intros a Ha; congruence).
  all: unfold mbind, M_bind, modify, gets; rewrite ?Hnone, ?Hsame, ?String.eqb_refl; simpl.
  all: destruct (get_property _ alias); simpl; try done;
         (etrans; [exact Hadv|]; by apply (advances_heap_app _ _ []); rewrite ?app_nil_r).
Qed.

Lemma advances_fetchModule (getManualChunk : string → option string)
    (id : string) (importer : option string) (moduleSideEffects isEntry : bool) :
  steps advances (fetchModule getManualChunk id importer moduleSideEffects isEntry).
Proof.
  intros st. destruct (modulesById st !! id) as [r|] eqn:Hreg.
  - unfold fetchModule. unfold mbind at 1, M_bind at 1, gets. rewrite Hreg.
    unfold mbind at 1, M_bind at 1.
    destruct (heap st !! r) as [[m|x]|] eqn:He; simpl; try reflexivity.
    apply advances_update_module. intros m0 Hm0. rewrite He in Hm0. injection Hm0 as <-.
    unfold module_advances. simpl. repeat split; try done.
    intros ->. done.
  - rewrite fetchModule_new by done.
    match goal with |- advances _ (_ ?st1).2 => trans st1 end.
    { apply (advances_heap_app st _ [EModule (new_Module id moduleSideEffects isEntry)]);
        done. }
    match goal with |- advances ?st1 (?m ?st1).2 => assert (steps advances m) as Hm end.
    { apply steps_bind; try apply _.
      - destruct (getManualChunk id);
          [apply advances_addModuleToManualChunk|apply steps_ret; apply _].
      - intros _. apply steps_bind; try apply _.
        + intros st0. simpl. split; [|split; [done|split; [done|]]].
          * intros r m Hm. exists m. split; [done|]. apply module_advances_refl.
          * by apply prefix_app_r.
        + intros _. apply steps_ret; apply _. }
    apply Hm.
Qed.

(** The end of the external branch of [fetchResolvedDependency] leaves the
    state as it is. *)
Lemma external_lookup_state (source importer : string) (resolvedId : ResolvedId)
    (st : loader) :
  ((externalModule ← gets (λ st, r ← modulesById st !! rid_id resolvedId;
                                 e ← heap st !! r; mret (r, e));
    match externalModule with
    | Some (r, EExternal _) => mret (Settled r)
    | _ => throw (errInternalIdCannotBeExternal source importer)
    end) st).2 = st.
Proof.
  unfold mbind at 1, M_bind at 1, gets.
  by destruct (_ ≫= _) as [[r [m|x]]|].
Qed.

Lemma advances_external (getManualChunk : string → option string)
    (source importer : string) (resolvedId : ResolvedId) :
  rid_external resolvedId = true →
  steps advances (fetchResolvedDependency getManualChunk source importer resolvedId).
Proof.
  intros Hext st. destruct (modulesById st !! rid_id resolvedId) as [r|] eqn:Hreg.
  - erewrite fetchResolvedDependency_known by done.
    rewrite external_lookup_state. reflexivity.
  - rewrite fetchResolvedDependency_new by done.
    rewrite external_lookup_state.
    by eapply advances_heap_app.
Qed.

(** The state after the calls of the hook for a list of specifiers. *)
Lemma loadEntryModule_loop_state {A} (f : A → string) (isEntry : bool) (xs : list A)
    (st : loader) :
  for_each (λ x, loadEntryModule (f x) isEntry) xs st
  = (Returned tt,
     mkLoader (heap st) (modulesById st) (indexedEntryModules st)
       (nextEntryModuleIndex st) (manualChunkModules st) (warnings st)
       (hookCalls st ++ ((λ x, HookResolveId (f x) None) <$> xs))).
Proof.
  revert st. induction xs as [|x xs IH]; intros st.
  - simpl. rewrite app_nil_r. by destruct st.
  - erewrite for_each_cons_Returned by reflexivity. rewrite IH. simpl.
    by rewrite <- app_assoc.
Qed.

Lemma addEntryModules_state (us : list UnresolvedModule) (st : loader) :
  (addEntryModules us st).2
  = mkLoader (heap st) (modulesById st) (indexedEntryModules st)
      (nextEntryModuleIndex st + length us)
      (manualChunkModules st) (warnings st)
      (hookCalls st ++ ((λ u, HookResolveId (um_id u) None) <$> us)).
Proof.
  unfold addEntryModules. unfold mbind, M_bind, gets, modify.
  by rewrite loadEntryModule_loop_state.
Qed.

Lemma advances_run (isRelative : string → bool)
    (hasModuleSideEffects : string → bool → bool)
    (getManualChunk : string → option string)
    (cachedModules : gmap string CachedModule) (ops : list op) (st : loader) :
  advances st (run isRelative hasModuleSideEffects getManualChunk cachedModules ops st).
Proof.
  apply (steps_run advances).
  - apply advances_fetchModule.
  - apply advances_addModuleToManualChunk.
  - intros us st0. rewrite addEntryModules_state.
    split; [|split; [simpl; lia|split; [done|by apply prefix_app_r]]].
    intros r m Hm. exists m. split; [done|]. apply module_advances_refl.
  - apply advances_external.
  - intros r f Hf st0. apply advances_update_module. intros m _. apply Hf.
  - intros w st0. simpl. split; [|split; [done|split; [by apply prefix_app_r|done]]].
    intros r m Hm. exists m. split; [done|]. apply module_advances_refl.
  - intros c _ st0. simpl. split; [|split; [done|split; [done|by apply prefix_app_r]]].
    intros r m Hm. exists m. split; [done|]. apply module_advances_refl.
  - intros g st0. by apply (advances_heap_app _ _ []); rewrite ?app_nil_r.
  - intros id module st0. by apply (advances_heap_app _ _ []); rewrite ?app_nil_r.
Qed.

(** X19. What a build never takes back.  Over any sequence of loader
    segments a module stays in its place in the heap; its [isEntryPoint]
    and [isUserDefinedEntryPoint], once true, stay true; its chunk name and
    its manual-chunk alias, once set, stay what they are; its file names
    and user chunk names are only added to.  The entry counter does not go
    back, and the warnings and hook calls made so far stay at the head of
    the lists. *)
Theorem build_never_takes_back
    (isRelative : string → bool) (hasModuleSideEffects : string → bool → bool)
    (getManualChunk : string → option string) (cachedModules : gmap string CachedModule)
    (ops : list op) (st : loader) :
  let st' := run isRelative hasModuleSideEffects getManualChunk cachedModules ops st in
  (∀ r m, heap st !! r = Some (EModule m) →
     ∃ m', heap st' !! r = Some (EModule m')
           ∧ (m_isEntryPoint m = true → m_isEntryPoint m' = true)
           ∧ (m_isUserDefinedEntryPoint m = true → m_isUserDefinedEntryPoint m' = true)
           ∧ m_chunkFileNames m ⊆ m_chunkFileNames m'
           ∧ m_userChunkNames m ⊆ m_userChunkNames m'
           ∧ (∀ name, m_chunkName m = Some name → m_chunkName m' = Some name)
           ∧ (∀ alias, m_manualChunkAlias m = Some alias →
                       m_manualChunkAlias m' = Some alias))
  ∧ (nextEntryModuleIndex st ≤ nextEntryModuleIndex st')%nat
  ∧ warnings st `prefix_of` warnings st'
  ∧ hookCalls st `prefix_of` hookCalls st'.
Proof.
  exact (advances_run isRelative hasModuleSideEffects getManualChunk cachedModules ops st).
Qed.

(** ** Invariants of a build *)

Global Instance keeps_refl (I : loader → Prop) : Reflexive (keeps I).
Proof. by intros st H. Qed.

Global Instance keeps_trans (I : loader → Prop) : Transitive (keeps I).
Proof. intros st1 st2 st3 H12 H23 H. apply H23, H12, H. Qed.

(** [addModuleToManualChunk] touches neither the registry nor the hooks. *)
Lemma addModuleToManualChunk_frame (alias : string) (module : ref) (st : loader) :
  modulesById (addModuleToManualChunk alias module st).2 = modulesById st
  ∧ hookCalls (addModuleToManualChunk alias module st).2 = hookCalls st.
Proof.
  destruct (addModuleToManualChunk alias module st) as [o st'] eqn:E. simpl.
  revert E. unfold addModuleToManualChunk, mbind, M_bind, gets, modify, throw, mret, M_ret.
  destruct (heap st !! module) as [[m|x]|]; try (by intros [= <- <-]).
  destruct (m_manualChunkAlias m) as [current|]; [destruct (negb _)|]; simpl;
    try (by intros [= <- <-]);
    destruct (get_property _ alias); by intros [= <- <-].
Qed.

Lemma loaded_ids_call_out (c : hook_call) (st : loader) :
  loaded_ids (call_out c st)
  = loaded_ids st ++ match c with HookLoad id => [id] | _ => [] end.
Proof. unfold loaded_ids. simpl. rewrite omap_app. by destruct c. Qed.

Lemma loads_once_frame (st st' : loader) :
  loaded_ids st' = loaded_ids st →
  (∀ id, is_Some (modulesById st !! id) → is_Some (modulesById st' !! id)) →
  keeps loads_once st st'.
Proof.
  intros Hl Hr [Hnd Hreg]. split; rewrite Hl; [done|]. intros id Hid. by apply Hr, Hreg.
Qed.

Lemma loads_once_fetchModule (getManualChunk : string → option string)
    (id : string) (importer : option string) (moduleSideEffects isEntry : bool) :
  steps (keeps loads_once) (fetchModule getManualChunk id importer moduleSideEffects isEntry).
Proof.
  intros st. destruct (modulesById st !! id) as [r|] eqn:Hreg.
  - unfold fetchModule. unfold mbind at 1, M_bind at 1, gets. rewrite Hreg.
    unfold mbind at 1, M_bind at 1.
    destruct (heap st !! r) as [[m|x]|] eqn:He; simpl; try reflexivity.
    by apply loads_once_frame.
  - rewrite fetchModule_new by done.
    set (st1 := set_modulesById _ _).
    assert (∀ st2, modulesById st2 = modulesById st1 → hookCalls st2 = hookCalls st →
                   keeps loads_once st
                     ((modify (call_out (HookLoad id));;
                       mret (M:=M) (AwaitingLoad (length (heap st)))) st2).2) as Hcall.
    { intros st2 Hm Hc [Hnd Hin]. unfold mbind, M_bind, modify. simpl.
      assert (loaded_ids st2 = loaded_ids st) as Hl by (unfold loaded_ids; by rewrite Hc).
      split.
      - rewrite loaded_ids_call_out, Hl. apply NoDup_app. split; [done|]. split.
        + intros x Hx ->%list_elem_of_singleton. apply Hin in Hx.
          rewrite Hreg in Hx. by destruct Hx.
        + apply NoDup_singleton.
      - intros x. rewrite loaded_ids_call_out, Hl. simpl. rewrite Hm. simpl.
        intros [Hx| ->%list_elem_of_singleton]%elem_of_app.
        + destruct (decide (x = id)) as [->|Hne].
          * rewrite lookup_insert_eq. by eexists.
          * rewrite lookup_insert_ne by done. by apply Hin.
        + rewrite lookup_insert_eq. by eexists. }
    unfold mbind at 1, M_bind at 1.
    destruct (getManualChunk id) as [alias|].
    + destruct (addModuleToManualChunk_frame alias (length (heap st)) st1) as [Hm Hc].
      destruct (addModuleToManualChunk alias (length (heap st)) st1) as [[[]|e] st2];
        simpl in *.
      * by apply Hcall.
      * apply loads_once_frame.
        -- unfold loaded_ids. by rewrite Hc.
        -- intros x Hx. rewrite Hm. simpl.
           destruct (decide (x = id)) as [->|Hne].
           ++ rewrite lookup_insert_eq. by eexists.
           ++ by rewrite lookup_insert_ne.
    + by apply Hcall.
Qed.

Lemma loads_once_run (isRelative : string → bool)
    (hasModuleSideEffects : string → bool → bool)
    (getManualChunk : string → option string)
    (cachedModules : gmap string CachedModule) (ops : list op) (st : loader) :
  keeps loads_once st
    (run isRelative hasModuleSideEffects getManualChunk cachedModules ops st).
Proof.
  apply (steps_run (keeps loads_once)).
  - apply loads_once_fetchModule.
  - intros alias module st0.
    destruct (addModuleToManualChunk_frame alias module st0) as [Hm Hc].
    apply loads_once_frame; [unfold loaded_ids; by rewrite Hc|by rewrite Hm].
  - intros us st0. rewrite addEntryModules_state. apply loads_once_frame; [|done].
    unfold loaded_ids. simpl. rewrite omap_app.
    assert (omap (λ c, match c with HookLoad id => Some id | _ => None end)
              ((λ u, HookResolveId (um_id u) None) <$> us) = []) as ->.
    { clear. by induction us. }
    by rewrite app_nil_r.
  - intros source importer resolvedId Hext st0.
    destruct (modulesById st0 !! rid_id resolvedId) as [r|] eqn:Hreg.
    + erewrite fetchResolvedDependency_known by done.
      rewrite external_lookup_state. reflexivity.
    + rewrite fetchResolvedDependency_new by done.
      rewrite external_lookup_state. apply loads_once_frame; [done|].
      intros x Hx. simpl. destruct (decide (x = rid_id resolvedId)) as [->|Hne].
      * rewrite lookup_insert_eq. by eexists.
      * by rewrite lookup_insert_ne.
  - intros r f _ st0. by apply loads_once_frame.
  - intros w st0. by apply loads_once_frame.
  - intros c Hc st0. apply loads_once_frame; [|done].
    unfold modify. simpl. rewrite loaded_ids_call_out. destruct c; rewrite ?app_nil_r; try done.
    by destruct (Hc id).
  - intros g st0. by apply loads_once_frame.
  - intros id module st0. apply loads_once_frame; [done|].
    intros x Hx. simpl. destruct (decide (x = id)) as [->|Hne].
    + rewrite lookup_insert_eq. by eexists.
    + by rewrite lookup_insert_ne.
Qed.

(** X20. The [load] hook is called at most once per id.  Over any sequence
    of loader segments, from a state in which no id was loaded twice and
    every loaded id is registered, the ids handed to the [load] hook are
    pairwise distinct and every one of them is registered. *)
Theorem load_hook_is_called_once_per_id
    (isRelative : string → bool) (hasModuleSideEffects : string → bool → bool)
    (getManualChunk : string → option string) (cachedModules : gmap string CachedModule)
    (ops : list op) (st : loader) :
  loads_once st →
  let st' := run isRelative hasModuleSideEffects getManualChunk cachedModules ops st in
  NoDup (loaded_ids st')
  ∧ ∀ id, id ∈ loaded_ids st' → is_Some (modulesById st' !! id).
Proof.
  intros H. exact (loads_once_run isRelative hasModuleSideEffects getManualChunk
                     cachedModules ops st H).
Qed.

Lemma empty_loader_loads_once : loads_once empty_loader.
Proof. split; [constructor|]. intros id Hid. by apply elem_of_nil in Hid. Qed.

Lemma load_hook_is_called_once_per_id_witness :
  let st' := run (λ _, false) (λ _ _, true) (λ _, None) ∅
               [OpFetchModule "a.js" None true true;
                OpFetchModule "b.js" (Some "a.js") true false;
                OpFetchModule "a.js" (Some "b.js") true false] empty_loader in
  loads_once empty_loader
  ∧ NoDup (loaded_ids st')
  ∧ ∀ id, id ∈ loaded_ids st' → is_Some (modulesById st' !! id).
Proof.
  intros st'. split; [exact empty_loader_loads_once|].
  exact (load_hook_is_called_once_per_id (λ _, false) (λ _ _, true) (λ _, None) ∅
           [OpFetchModule "a.js" None true true;
            OpFetchModule "b.js" (Some "a.js") true false;
            OpFetchModule "a.js" (Some "b.js") true false]
           empty_loader empty_loader_loads_once).
Defined.

(** A state whose chunk lists are those of [st] and whose modules carry
    the aliases they carry in [st]. *)
Lemma chunks_frame (st st' : loader) :
  manualChunkModules st' = manualChunkModules st →
  (∀ r m, heap st !! r = Some (EModule m) →
          ∃ m', heap st' !! r = Some (EModule m')
                ∧ m_manualChunkAlias m' = m_manualChunkAlias m) →
  keeps chunks_consistent st st'.
Proof.
  intros Hl Hh Hc alias modules r Hmodules Hr. rewrite Hl in Hmodules.
  destruct (Hc alias modules r Hmodules Hr) as (m & Hm & Ha).
  destruct (Hh r m Hm) as (m' & Hm' & Ha'). exists m'. split; [done|]. congruence.
Qed.

Lemma chunks_heap_app (st st' : loader) (new : list entity) :
  manualChunkModules st' = manualChunkModules st →
  heap st' = heap st ++ new →
  keeps chunks_consistent st st'.
Proof.
  intros Hl Hh. apply chunks_frame; [done|]. intros r m Hm. exists m. split; [|done].
  rewrite Hh. by apply lookup_app_l_Some.
Qed.

Lemma chunks_update_module (r : ref) (f : Module → Module) (st : loader) :
  (∀ m, m_manualChunkAlias (f m) = m_manualChunkAlias m) →
  keeps chunks_consistent st (update_module r f st).
Proof.
  intros Hf. apply chunks_frame; [done|]. intros r' m Hm. simpl.
  destruct (decide (r = r')) as [->|Hne].
  - exists (f m). by rewrite list_lookup_alter_eq, Hm.
  - exists m. by rewrite list_lookup_alter_ne.
Qed.

(** The list of [alias] is replaced by a list of modules that carry
    [alias]. *)
Lemma chunks_push (alias : string) (modules' : list ref) (st : loader) :
  chunks_consistent st →
  (∀ r, r ∈ modules' →
        ∃ m, heap st !! r = Some (EModule m) ∧ m_manualChunkAlias m = Some alias) →
  chunks_consistent (set_manualChunkModules (<[alias := modules']> (manualChunkModules st)) st).
Proof.
  intros Hc Hnew a l r Hl Hr. simpl in *.
  destruct (decide (a = alias)) as [->|Hne].
  - rewrite lookup_insert_eq in Hl. injection Hl as <-. by apply Hnew.
  - rewrite lookup_insert_ne in Hl by done. by eapply Hc.
Qed.

Lemma chunks_addModuleToManualChunk (alias : string) (module : ref) :
  steps (keeps chunks_consistent) (addModuleToManualChunk alias module).
Proof.
  intros st Hc. unfold addModuleToManualChunk. unfold mbind at 1, M_bind at 1, gets.
  destruct (heap st !! module) as [[m|x]|] eqn:Hm; try done.
  remember (update_module module (set_manualChunkAlias (Some alias)) st) as st1 eqn:Hst1.
  assert (heap st1 !! module = Some (EModule (set_manualChunkAlias (Some alias) m))) as Hm1.
  { rewrite Hst1. simpl. by rewrite list_lookup_alter_eq, Hm. }
  assert ((m_manualChunkAlias m = None ∨ m_manualChunkAlias m = Some alias) →
          chunks_consistent st1) as Hc1.
  { intros Ha a l r Hl Hr.
    assert (manualChunkModules st1 = manualChunkModules st) as Hsame by by rewrite Hst1.
    rewrite Hsame in Hl. destruct (Hc a l r Hl Hr) as (m0 & Hm0 & Ha0).
    destruct (decide (r = module)) as [->|Hne].
    - eexists. split; [exact Hm1|]. simpl. rewrite Hm in Hm0. injection Hm0 as <-.
      destruct Ha; congruence.
    - exists m0. split; [|done]. rewrite Hst1. simpl. by rewrite list_lookup_alter_ne. }
  assert ((m_manualChunkAlias m = None ∨ m_manualChunkAlias m = Some alias) →
          chunks_consistent
            ((modify (λ _, st1);;
              chunks ← gets manualChunkModules;
              match get_property chunks alias with
              | Undefined => modify (set_manualChunkModules (<[alias := [module]]> chunks))
              | Own modules =>
                  modify (set_manualChunkModules (<[alias := modules ++ [module]]> chunks))
              | Inherited =>
                  throw (TypeError "this.manualChunkModules[alias].push is not a function")
              end) st).2) as Hrest.
  { intros Ha. specialize (Hc1 Ha). unfold mbind, M_bind, modify, gets.
    unfold get_property.
    destruct (manualChunkModules st1 !! alias) as [modules|] eqn:Hl; simpl.
    - apply chunks_push; [done|]. intros r [Hr| ->%list_elem_of_singleton]%elem_of_app.
      + by eapply Hc1.
      + by eexists.
    - case_bool_decide; simpl; [done|].
      apply chunks_push; [done|]. intros r ->%list_elem_of_singleton. by eexists. }
  assert (∀ {A} (k : M A),
            (modify (update_module module (set_manualChunkAlias (Some alias)));; k) st
            = (modify (λ _, st1);; k) st) as Hst.
  { intros A k. unfold mbind, M_bind, modify. by rewrite Hst1. }
  unfold mbind at 1, M_bind at 1.
  destruct (m_manualChunkAlias m) as [current|] eqn:Hcur.
  - destruct (String.eqb_spec current alias) as [->|Hne]; simpl; [|done].
    rewrite Hst. apply Hrest. by right.
  - simpl. rewrite Hst. apply Hrest. by left.
Qed.

Lemma chunks_fetchModule (getManualChunk : string → option string)
    (id : string) (importer : option string) (moduleSideEffects isEntry : bool) :
  steps (keeps chunks_consistent)
    (fetchModule getManualChunk id importer moduleSideEffects isEntry).
Proof.
  intros st. destruct (modulesById st !! id) as [r|] eqn:Hreg.
  - unfold fetchModule. unfold mbind at 1, M_bind at 1, gets. rewrite Hreg.
    unfold mbind at 1, M_bind at 1.
    destruct (heap st !! r) as [[m|x]|] eqn:He; simpl; try reflexivity.
    by apply chunks_update_module.
  - rewrite fetchModule_new by done.
    match goal with |- keeps _ _ (_ ?st1).2 => trans st1 end.
    { by apply (chunks_heap_app st _ [EModule (new_Module id moduleSideEffects isEntry)]). }
    match goal with
    | |- keeps chunks_consistent ?st1 (?m ?st1).2 =>
        assert (steps (keeps chunks_consistent) m) as Hm
    end.
    { apply steps_bind; try apply _.
      - destruct (getManualChunk id);
          [apply chunks_addModuleToManualChunk|apply steps_ret; apply _].
      - intros _. apply steps_bind; try apply _.
        + intros st0. by apply (chunks_heap_app _ _ []); rewrite ?app_nil_r.
        + intros _. apply steps_ret; apply _. }
    apply Hm.
Qed.

Lemma chunks_run (isRelative : string → bool)
    (hasModuleSideEffects : string → bool → bool)
    (getManualChunk : string → option string)
    (cachedModules : gmap string CachedModule) (ops : list op) (st : loader) :
  keeps chunks_consistent st
    (run isRelative hasModuleSideEffects getManualChunk cachedModules ops st).
Proof.
  apply (steps_run (keeps chunks_consistent)).
  - apply chunks_fetchModule.
  - apply chunks_addModuleToManualChunk.
  - intros us st0. rewrite addEntryModules_state.
    by apply (chunks_heap_app _ _ []); rewrite ?app_nil_r.
  - intros source importer resolvedId Hext st0.
    destruct (modulesById st0 !! rid_id resolvedId) as [r|] eqn:Hreg.
    + erewrite fetchResolvedDependency_known by done.
      rewrite external_lookup_state. reflexivity.
    + rewrite fetchResolvedDependency_new by done.
      rewrite external_lookup_state. by eapply chunks_heap_app.
  - intros r f Hf st0. apply chunks_update_module. intros m. apply Hf.
  - intros w st0. by apply (chunks_heap_app _ _ []); rewrite ?app_nil_r.
  - intros c _ st0. by apply (chunks_heap_app _ _ []); rewrite ?app_nil_r.
  - intros g st0. by apply (chunks_heap_app _ _ []); rewrite ?app_nil_r.
  - intros id module st0. by apply (chunks_heap_app _ _ []); rewrite ?app_nil_r.
Qed.

Lemma empty_loader_chunks_consistent : chunks_consistent empty_loader.
Proof. intros alias modules r H. simpl in H. by rewrite lookup_empty in H. Qed.

(** X21. The manual-chunk lists agree with the aliases of the modules.
    Over any sequence of loader segments, from a state in which it holds,
    every entry of [manualChunkModules[alias]] is a module whose
    [manualChunkAlias] is [alias]; so no module is in the lists of two
    aliases. *)
Theorem manual_chunk_lists_agree_with_aliases
    (isRelative : string → bool) (hasModuleSideEffects : string → bool → bool)
    (getManualChunk : string → option string) (cachedModules : gmap string CachedModule)
    (ops : list op) (st : loader) :
  chunks_consistent st →
  let st' := run isRelative hasModuleSideEffects getManualChunk cachedModules ops st in
  (∀ alias modules r,
     manualChunkModules st' !! alias = Some modules → r ∈ modules →
     ∃ m, heap st' !! r = Some (EModule m) ∧ m_manualChunkAlias m = Some alias)
  ∧ (∀ alias1 alias2 modules1 modules2 r,
       manualChunkModules st' !! alias1 = Some modules1 →
       manualChunkModules st' !! alias2 = Some modules2 →
       r ∈ modules1 → r ∈ modules2 → alias1 = alias2).
Proof.
  intros Hc st'.
  pose proof (chunks_run isRelative hasModuleSideEffects getManualChunk cachedModules
                ops st Hc) as Hc'.
  fold st' in Hc'. split; [exact Hc'|].
  intros alias1 alias2 modules1 modules2 r H1 H2 Hr1 Hr2.
  destruct (Hc' _ _ _ H1 Hr1) as (m1 & Hm1 & Ha1).
  destruct (Hc' _ _ _ H2 Hr2) as (m2 & Hm2 & Ha2).
  congruence.
Qed.

Lemma manual_chunk_lists_agree_with_aliases_witness :
  let st' := run (λ _, false) (λ _ _, true)
               (λ id, if String.eqb id "a.js" then Some "vendor" else None) ∅
               [OpFetchModule "a.js" None true true;
                OpFetchModule "b.js" None true false;
                OpAddManualChunksAssign [("lib", ["b.js"])] [1]] empty_loader in
  chunks_consistent empty_loader
  ∧ ∀ alias modules r,
      manualChunkModules st' !! alias = Some modules → r ∈ modules →
      ∃ m, heap st' !! r = Some (EModule m) ∧ m_manualChunkAlias m = Some alias.
Proof.
  intros st'. split; [exact empty_loader_chunks_consistent|].
  exact (proj1 (manual_chunk_lists_agree_with_aliases (λ _, false) (λ _ _, true)
                  (λ id, if String.eqb id "a.js" then Some "vendor" else None) ∅
                  [OpFetchModule "a.js" None true true;
                   OpFetchModule "b.js" None true false;
                   OpAddManualChunksAssign [("lib", ["b.js"])] [1]]
                  empty_loader empty_loader_chunks_consistent)).
Defined.

(** X22. The registry is only added to.  Over any sequence of loader
    segments, from a consistent registry, an id that is registered stays
    registered to the same object, and an object of the heap keeps its id
    and its kind: a Module never becomes an ExternalModule, nor the other
    way round. *)
Theorem registry_is_only_added_to
    (isRelative : string → bool) (hasModuleSideEffects : string → bool → bool)
    (getManualChunk : string → option string) (cachedModules : gmap string CachedModule)
    (ops : list op) (st : loader) :
  registry_consistent st →
  let st' := run isRelative hasModuleSideEffects getManualChunk cachedModules ops st in
  (∀ id r, modulesById st !! id = Some r → modulesById st' !! id = Some r)
  ∧ (∀ r e, heap st !! r = Some e →
            ∃ e', heap st' !! r = Some e'
                  ∧ entity_id e' = entity_id e ∧ is_external e' = is_external e)
  ∧ (length (heap st) ≤ length (heap st'))%nat.
Proof.
  intros Hc st'.
  destruct (grows_run isRelative hasModuleSideEffects getManualChunk cachedModules
              ops st Hc) as (_ & Hreg & Hheap).
  split; [exact Hreg|]. split; [exact Hheap|].
  destruct (length (heap st)) as [|n] eqn:Hlen; [lia|].
  destruct (lookup_lt_is_Some_2 (heap st) n) as [e He]; [lia|].
  destruct (Hheap n e He) as (e' & He' & _).
  apply lookup_lt_Some in He'. fold st' in He'. lia.
Qed.

Lemma registry_is_only_added_to_witness :
  let st := exec (fetchResolvedDependency (λ _, None) "lodash" "a.js"
                    (mkResolvedId true "lodash" true)) empty_loader in
  let st' := run (λ _, false) (λ _ _, true) (λ _, None) ∅
               [OpFetchModule "a.js" None true true;
                OpFetchResolvedDependency "lodash" "a.js" (mkResolvedId false "lodash" true)]
               st in
  modulesById st' !! "lodash" = Some 0
  ∧ ∃ e', heap st' !! 0 = Some e' ∧ entity_id e' = "lodash" ∧ is_external e' = true.
Proof.
  intros st st'.
  assert (registry_consistent st) as Hc.
  { apply (preserves_fetchResolvedDependency (λ _, None) "lodash" "a.js"
             (mkResolvedId true "lodash" true) empty_loader empty_loader_consistent). }
  pose proof (registry_is_only_added_to (λ _, false) (λ _ _, true) (λ _, None) ∅
                [OpFetchModule "a.js" None true true;
                 OpFetchResolvedDependency "lodash" "a.js" (mkResolvedId false "lodash" true)]
                st Hc) as (Hreg & Hheap & _).
  split.
  - exact (Hreg "lodash" 0 eq_refl).
  - exact (Hheap 0 (EExternal (new_ExternalModule "lodash" true)) eq_refl).
Defined.
